(** * The Agents Game: tournament engine

    A shallow embedding of the tournament/match orchestration core of the
    repository (league manager and referee agent) together with the
    properties stated about it.

    Python [int] is [Z], [str] is [string], a [dict] whose iteration order
    matters is an insertion-ordered association list, a [dict] only read by
    key is a [gmap], a [set] is a [gset].  Methods that mutate [self] take
    the object and return the new one next to their result; a raised
    exception is a result of its own, returned with the object as it was
    when the exception left the method. *)

From stdpp Require Import gmap strings list sorting pretty.
From Stdlib Require Import ZArith Lia.

Set Warnings "-clear-no-such-hyp".

Open Scope string_scope.
Open Scope list_scope.
Open Scope Z_scope.

(** ** Common definitions *)

(** The outcome of a call that may raise. *)
Inductive outcome (E A : Type) : Type :=
  | Returned (a : A)
  | Raised (e : E).
Arguments Returned {E A} a.
Arguments Raised {E A} e.

(** Python exceptions met in the modelled code, with their message. *)
Inductive exn : Type :=
  | KeyError (msg : string)
  | ValueError (msg : string)
  | TimeoutError (msg : string)
  | OtherError (msg : string).

Definition exn_str (e : exn) : string :=
  match e with
  | KeyError m | ValueError m | TimeoutError m | OtherError m => m
  end.

(** An insertion-ordered Python [dict]: [d[k] = v] keeps the position of a
    key that is already there and appends a new key at the end. *)
Section ordered_dict.
Context {V : Type}.

Fixpoint dict_get (k : string) (d : list (string * V)) : option V :=
  match d with
  | [] => None
  | (k', v) :: d' => if decide (k = k') then Some v else dict_get k d'
  end.

Fixpoint dict_set (k : string) (v : V) (d : list (string * V))
  : list (string * V) :=
  match d with
  | [] => [(k, v)]
  | (k', v') :: d' =>
      if decide (k = k') then (k, v) :: d' else (k', v') :: dict_set k v d'
  end.

(** In-place mutation of the object stored under [k]. *)
Fixpoint dict_alter (f : V → V) (k : string) (d : list (string * V))
  : list (string * V) :=
  match d with
  | [] => []
  | (k', v') :: d' =>
      if decide (k = k') then (k', f v') :: d' else (k', v') :: dict_alter f k d'
  end.

Definition dict_keys (d : list (string * V)) : list string := d.*1.
Definition dict_values (d : list (string * V)) : list V := d.*2.
Definition dict_mem (k : string) (d : list (string * V)) : bool :=
  bool_decide (is_Some (dict_get k d)).

End ordered_dict.

(** ** league_manager/scheduler/round_robin.py *)

Module Scheduler.

(** A pairing is the tuple [(player_a, player_b)]. *)
Definition pairing : Type := string * string.

(** [list(itertools.combinations(player_ids, 2))]: pairs by position, in
    lexicographic order of the positions. *)
Fixpoint combinations2 (player_ids : list string) : list pairing :=
  match player_ids with
  | [] => []
  | p :: rest => ((λ q, (p, q)) <$> rest) ++ combinations2 rest
  end.

(** The set built by the inner loop over [rounds[round_idx]]. *)
Definition players_in_round (round : list pairing) : gset string :=
  foldl (λ s m, s ∪ {[m.1]} ∪ {[m.2]}) ∅ round.

(** [match[0] not in players_in_round and match[1] not in players_in_round] *)
Definition both_free (m : pairing) (round : list pairing) : bool :=
  bool_decide (m.1 ∉ players_in_round round)
  && bool_decide (m.2 ∉ players_in_round round).

(** The loop [for round_idx in range(num_rounds)] for one match: append it
    to the first round where both players are free and [break]; when the
    loop runs out of rounds nothing is appended. *)
Fixpoint assign_match (m : pairing) (rounds : list (list pairing))
  : list (list pairing) :=
  match rounds with
  | [] => []
  | r :: rs =>
      if both_free m r then (r ++ [m]) :: rs else r :: assign_match m rs
  end.

(** [n - 1 if n % 2 == 0 else n] *)
Definition num_rounds (n : nat) : nat :=
  if (n mod 2 =? 0)%nat then (n - 1)%nat else n.

Definition create_round_robin_schedule (player_ids : list string)
  : list (list pairing) :=
  let n := length player_ids in
  if (n <? 2)%nat then []
  else
    let all_matches := combinations2 player_ids in
    let rounds := replicate (num_rounds n) [] in
    foldl (λ rounds m, assign_match m rounds) rounds all_matches.

(** Number of matches in a schedule. *)
Definition total_matches (schedule : list (list pairing)) : nat :=
  length (concat schedule).

(** [C(n,2)] *)
Definition choose2 (n : nat) : nat := (n * (n - 1) / 2)%nat.

(** Number of rounds in which the unordered pair [{a, b}] is played. *)
Definition rounds_with_pair (a b : string) (schedule : list (list pairing))
  : nat :=
  length (filter (λ r, (a, b) ∈ r ∨ (b, a) ∈ r) schedule).

(** The players of a round, with repetitions. *)
Definition round_players (round : list pairing) : list string :=
  round ≫= λ m, [m.1; m.2].

End Scheduler.

(** ** referee/game_logic/state_machine.py *)

Module StateMachine.

Inductive GameState : Type :=
  | WAITING_FOR_PLAYERS
  | COLLECTING_CHOICES
  | DRAWING_NUMBER
  | EVALUATING
  | FINISHED
  | ABORTED.

#[global] Instance GameState_eq_dec : EqDecision GameState.
Proof. solve_decision. Defined.

(** [GameState.value] *)
Definition value (s : GameState) : string :=
  match s with
  | WAITING_FOR_PLAYERS => "waiting_for_players"
  | COLLECTING_CHOICES => "collecting_choices"
  | DRAWING_NUMBER => "drawing_number"
  | EVALUATING => "evaluating"
  | FINISHED => "finished"
  | ABORTED => "aborted"
  end.

(** The class attribute [TRANSITIONS]. *)
Definition TRANSITIONS (s : GameState) : list GameState :=
  match s with
  | WAITING_FOR_PLAYERS => [COLLECTING_CHOICES; ABORTED]
  | COLLECTING_CHOICES => [DRAWING_NUMBER; ABORTED]
  | DRAWING_NUMBER => [EVALUATING]
  | EVALUATING => [FINISHED]
  | FINISHED => []
  | ABORTED => []
  end.

(** What [datetime.now()] returns. *)
Definition timestamp : Type := Z.

Record GameStateMachine : Type := mkGame {
  match_id : string;
  state : GameState;
  history : list (GameState * timestamp)
}.

(** [GameStateMachine.__init__] *)
Definition init (match_id : string) (now : timestamp) : GameStateMachine :=
  mkGame match_id WAITING_FOR_PLAYERS [(WAITING_FOR_PLAYERS, now)].

(** [GameStateMachine.transition]; [now] is the value [datetime.now()]
    returns when the history entry is built. *)
Definition transition (new_state : GameState) (now : timestamp)
    (g : GameStateMachine) : GameStateMachine * outcome exn () :=
  if bool_decide (new_state ∉ TRANSITIONS (state g)) then
    (g, Raised (ValueError ("Invalid transition: " +:+ value (state g)
                            +:+ " -> " +:+ value new_state)))
  else
    (mkGame (match_id g) new_state (history g ++ [(new_state, now)]),
     Returned ()).

Definition can_transition (new_state : GameState) (g : GameStateMachine)
  : bool :=
  bool_decide (new_state ∈ TRANSITIONS (state g)).

(** The edges listed by the specification. *)
Inductive edge : GameState → GameState → Prop :=
  | edge_invited : edge WAITING_FOR_PLAYERS COLLECTING_CHOICES
  | edge_collected : edge COLLECTING_CHOICES DRAWING_NUMBER
  | edge_drawn : edge DRAWING_NUMBER EVALUATING
  | edge_evaluated : edge EVALUATING FINISHED
  | edge_abort_waiting : edge WAITING_FOR_PLAYERS ABORTED
  | edge_abort_collecting : edge COLLECTING_CHOICES ABORTED.

End StateMachine.

(** ** referee/game_logic/scorer.py *)

Module Scorer.

Record GameResult : Type := mkResult {
  status : string;
  winner_player_id : option string;
  drawn_number : Z;
  number_parity : string;
  choices : list (string * string);
  scores : list (string * Z)
}.

(** ["even" if drawn_number % 2 == 0 else "odd"] *)
Definition parity_of (drawn_number : Z) : string :=
  if drawn_number mod 2 =? 0 then "even" else "odd".

(** The loop that looks for the winner: the first key whose choice is the
    parity, [None] when the loop ends without a [break]. *)
Fixpoint find_winner (parity : string) (choices : list (string * string))
  : option string :=
  match choices with
  | [] => None
  | (player_id, choice) :: rest =>
      if decide (choice = parity) then Some player_id
      else find_winner parity rest
  end.

Definition determine_winner (drawn_number : Z)
    (choices : list (string * string)) : GameResult :=
  let number_parity := parity_of drawn_number in
  let winner_id := find_winner number_parity choices in
  let scores :=
    foldl (λ scores player_id,
             dict_set player_id
               (if decide (Some player_id = winner_id) then 3 else 0) scores)
          [] (dict_keys choices) in
  mkResult "WIN" winner_id drawn_number number_parity choices scores.

(** [scores[player_id]], 0 for a key that is absent. *)
Definition score_of (player_id : string) (r : GameResult) : Z :=
  default 0 (dict_get player_id (scores r)).

End Scorer.

(** ** referee/game_orchestrator.py and referee/orchestration/ *)

Module Orchestration.
Import StateMachine.

(** *** JSON documents on the wire *)

#[local] Unset Elimination Schemes.
Inductive Json : Type :=
  | JNull
  | JBool (b : bool)
  | JNum (z : Z)
  | JStr (s : string)
  | JArr (items : list Json)
  | JObj (fields : list (string * Json)).
#[local] Set Elimination Schemes.

(** [type(obj).__name__] of a decoded document. *)
Definition type_name (obj : Json) : string :=
  match obj with
  | JNull => "NoneType"
  | JBool _ => "bool"
  | JNum _ => "int"
  | JStr _ => "str"
  | JArr _ => "list"
  | JObj _ => "dict"
  end.

(** The [AttributeError] of [obj.attr] on an object without it. *)
Definition no_attribute (obj : Json) (attr : string) : exn :=
  OtherError ("'" +:+ type_name obj +:+ "' object has no attribute '"
              +:+ attr +:+ "'").

(** [obj.get(k, dflt)]; on a value that is no dict Python raises
    [AttributeError]. *)
Definition py_get (obj : Json) (k : string) (dflt : Json)
  : outcome exn Json :=
  match obj with
  | JObj fields => Returned (default dflt (dict_get k fields))
  | _ => Raised (no_attribute obj "get")
  end.

(** Python truth value. *)
Definition truthy (j : Json) : bool :=
  match j with
  | JNull => false
  | JBool b => b
  | JNum z => negb (z =? 0)
  | JStr s => negb (bool_decide (s = ""))
  | JArr items => negb (bool_decide (items = []))
  | JObj fields => negb (bool_decide (fields = []))
  end.

(** Field access in a received document, for reading requests back. *)
Definition json_field (k : string) (j : Json) : option Json :=
  match j with
  | JObj fields => dict_get k fields
  | _ => None
  end.

(** *** Python dict objects

    Message parameters are dicts built in memory, copied with [{**d}] and
    updated in place before they are sent.  A dict is an object: a value
    stored in another dict is a reference to it, and a shallow copy shares
    the dicts the original refers to. *)

Inductive pyval : Type :=
  | PStr (s : string)
  | PRef (l : nat).

Record heap : Type := mkHeap {
  next_loc : nat;
  cells : gmap nat (list (string * pyval))
}.

Definition empty_heap : heap := mkHeap 0 ∅.

(** A dict display [{...}] allocates a new object. *)
Definition new_dict (d : list (string * pyval)) (h : heap) : nat * heap :=
  (next_loc h, mkHeap (S (next_loc h)) (<[next_loc h := d]> (cells h))).

(** [{**d}]: a new dict with the same keys and the same values. *)
Definition copy_dict (l : nat) (h : heap) : nat * heap :=
  new_dict (default [] (cells h !! l)) h.

(** [d[k] = v] *)
Definition setitem (l : nat) (k : string) (v : pyval) (h : heap) : heap :=
  mkHeap (next_loc h) (alter (dict_set k v) l (cells h)).

(** [d[k]] *)
Definition getitem (l : nat) (k : string) (h : heap) : option pyval :=
  cells h !! l ≫= dict_get k.

(** Serialisation of a value when the request is posted ([json=payload]);
    [depth] bounds the nesting that is followed. *)
Fixpoint dumps (depth : nat) (h : heap) (v : pyval) : Json :=
  match v with
  | PStr s => JStr s
  | PRef l =>
      match depth with
      | O => JNull
      | S depth' =>
          JObj ((λ kv, (kv.1, dumps depth' h kv.2))
                  <$> default [] (cells h !! l))
      end
  end.

Definition max_depth : nat := 8.

(** *** Configuration, match parameters and the outside world *)

Record Config : Type := mkConfig {
  referee_id : string;
  auth_token : option string;
  league_id : option string;
  league_manager_endpoint : string
}.

Record MatchParams : Type := mkParams {
  p_match_id : string;
  p_round_id : string;
  player_A_id : string;
  player_B_id : string;
  player_A_endpoint : string;
  player_B_endpoint : string
}.

(** What an awaited call comes back with: the decoded response, or the
    exception it ended in (also [asyncio.wait_for]'s timeout). *)
Definition reply : Type := outcome exn Json.

(** The answers of the peers and of the environment during one run. *)
Record World : Type := mkWorld {
  invitation_reply_A : reply;
  invitation_reply_B : reply;
  choice_reply_A : reply;
  choice_reply_B : reply;
  drawn : Z;
  league_reply : reply;
  clock : nat → timestamp;
  utc_timestamp : string;
  deadline : string
}.

(** What leaves the referee. *)
Inductive event : Type :=
  | Call (endpoint tool : string) (params : Json)
  | Close.

Record run_state : Type := mkRun {
  game : GameStateMachine;
  trace : list event
}.

(** *** Computations that change the run state and may raise *)

Definition M (A : Type) : Type := run_state → run_state * outcome exn A.

Definition ret {A} (a : A) : M A := λ s, (s, Returned a).

Definition raise {A} (e : exn) : M A := λ s, (s, Raised e).

Definition bind {A B} (m : M A) (k : A → M B) : M B :=
  λ s, match m s with
       | (s', Returned a) => k a s'
       | (s', Raised e) => (s', Raised e)
       end.

Notation "x <- m ;; k" := (bind m (λ x, k))
  (at level 100, m at next level, right associativity).
Notation "m ;;; k" := (bind m (λ _, k))
  (at level 100, right associativity).

(** [try: m except <filter> as e: handler e] *)
Definition try_except {A} (m : M A) (caught : exn → bool)
    (handler : exn → M A) : M A :=
  λ s, match m s with
       | (s', Raised e) => if caught e then handler e s' else (s', Raised e)
       | r => r
       end.

(** [try: m finally: cleanup] *)
Definition try_finally {A} (m : M A) (cleanup : M ()) : M A :=
  λ s, match m s with
       | (s', r) =>
           match cleanup s' with
           | (s'', Returned _) => (s'', r)
           | (s'', Raised e) => (s'', Raised e)
           end
       end.

Definition emit (e : event) : M () :=
  λ s, (mkRun (game s) (trace s ++ [e]), Returned ()).

Definition lift_outcome {A} (o : outcome exn A) : M A :=
  match o with Returned a => ret a | Raised e => raise e end.

Definition is_timeout (e : exn) : bool :=
  match e with TimeoutError _ => true | _ => false end.

Section run.
Variable config : Config.
Variable w : World.

(** [game.transition(new_state)] *)
Definition game_transition (new_state : GameState) : M () :=
  λ s, let '(g, r) :=
         transition new_state (clock w (length (history (game s)))) (game s)
       in (mkRun g (trace s), r).

(** [config.auth_token or ""] *)
Definition or_empty (o : option string) : string := default "" o.

(** *** orchestration/invitations.py *)

(** The two invitation dicts as they are when the requests are posted. *)
Definition invitations (mp : MatchParams) : Json * Json :=
  let '(a, h) :=
    new_dict
      [("protocol", PStr "league.v2");
       ("message_type", PStr "GAME_INVITATION");
       ("sender", PStr ("referee:" +:+ referee_id config));
       ("timestamp", PStr (utc_timestamp w));
       ("conversation_id", PStr ("conv" +:+ p_match_id mp +:+ "001"));
       ("auth_token", PStr (or_empty (auth_token config)));
       ("league_id", PStr (or_empty (league_id config)));
       ("round_id", PStr (p_round_id mp));
       ("match_id", PStr (p_match_id mp));
       ("game_type", PStr "even_odd");
       ("role_in_match", PStr "PLAYER_A");
       ("opponent_id", PStr (player_B_id mp))] empty_heap in
  let '(b, h) := copy_dict a h in
  let h := setitem b "role_in_match" (PStr "PLAYER_B") h in
  let h := setitem b "opponent_id" (PStr (player_A_id mp)) h in
  (dumps max_depth h (PRef a), dumps max_depth h (PRef b)).

(** The loop over the gathered invitation results. *)
Fixpoint check_invitations (results : list reply) : M bool :=
  match results with
  | [] =>
      game_transition COLLECTING_CHOICES ;;; ret true
  | Raised _ :: _ =>
      game_transition ABORTED ;;; ret false
  | Returned result :: rest =>
      inner <- lift_outcome (py_get result "result" (JObj [])) ;;
      accept <- lift_outcome (py_get inner "accept" (JBool false)) ;;
      if negb (truthy accept) then game_transition ABORTED ;;; ret false
      else check_invitations rest
  end.

Definition send_invitations (mp : MatchParams) : M bool :=
  let '(invitation_A, invitation_B) := invitations mp in
  try_except
    (emit (Call (player_A_endpoint mp) "handle_game_invitation" invitation_A) ;;;
     emit (Call (player_B_endpoint mp) "handle_game_invitation" invitation_B) ;;;
     check_invitations [invitation_reply_A w; invitation_reply_B w])
    is_timeout
    (λ _, game_transition ABORTED ;;; ret false).

(** *** orchestration/choices.py *)

(** The two [CHOOSE_PARITY_CALL] dicts as they are when the requests are
    posted: [choice_params_B = {**choice_params_A}] is a shallow copy, and
    the assignment through [choice_params_B["context"]] updates the dict
    both refer to. *)
Definition choice_requests (mp : MatchParams) : Json * Json :=
  let '(c, h) :=
    new_dict [("opponent_id", PStr (player_B_id mp));
              ("round_id", PStr (p_round_id mp))] empty_heap in
  let '(a, h) :=
    new_dict
      [("protocol", PStr "league.v2");
       ("message_type", PStr "CHOOSE_PARITY_CALL");
       ("sender", PStr ("referee:" +:+ referee_id config));
       ("timestamp", PStr (utc_timestamp w));
       ("conversation_id", PStr ("conv" +:+ p_match_id mp +:+ "001"));
       ("auth_token", PStr (or_empty (auth_token config)));
       ("match_id", PStr (p_match_id mp));
       ("game_type", PStr "even_odd");
       ("deadline", PStr (deadline w));
       ("player_id", PStr (player_A_id mp));
       ("context", PRef c)] h in
  let '(b, h) := copy_dict a h in
  let h := setitem b "player_id" (PStr (player_B_id mp)) h in
  let h :=
    match getitem b "context" h with
    | Some (PRef ctx) => setitem ctx "opponent_id" (PStr (player_A_id mp)) h
    | _ => h
    end in
  (dumps max_depth h (PRef a), dumps max_depth h (PRef b)).

(** [choice not in ["even", "odd"]] *)
Definition legal_choice (choice : Json) : option string :=
  match choice with
  | JStr s => if bool_decide (s = "even" ∨ s = "odd") then Some s else None
  | _ => None
  end.

(** The loop over the gathered choice results; [ids] are the player ids in
    the order of the results. *)
Fixpoint extract_choices (results : list (string * reply))
    (choices : list (string * string)) : M (option (list (string * string))) :=
  match results with
  | [] =>
      game_transition DRAWING_NUMBER ;;; ret (Some choices)
  | (_, Raised _) :: _ =>
      game_transition ABORTED ;;; ret None
  | (player_id, Returned result) :: rest =>
      inner <- lift_outcome (py_get result "result" (JObj [])) ;;
      choice <- lift_outcome (py_get inner "parity_choice" JNull) ;;
      match legal_choice choice with
      | None => game_transition ABORTED ;;; ret None
      | Some c => extract_choices rest (dict_set player_id c choices)
      end
  end.

Definition collect_choices (mp : MatchParams)
  : M (option (list (string * string))) :=
  let '(choice_params_A, choice_params_B) := choice_requests mp in
  try_except
    (emit (Call (player_A_endpoint mp) "choose_parity" choice_params_A) ;;;
     emit (Call (player_B_endpoint mp) "choose_parity" choice_params_B) ;;;
     extract_choices [(player_A_id mp, choice_reply_A w);
                      (player_B_id mp, choice_reply_B w)] [])
    is_timeout
    (λ _, game_transition ABORTED ;;; ret None).

(** *** orchestration/evaluation.py *)

Definition draw_and_evaluate (mp : MatchParams)
    (choices : list (string * string)) : M Scorer.GameResult :=
  let drawn_number := drawn w in
  game_transition EVALUATING ;;;
  let result := Scorer.determine_winner drawn_number choices in
  game_transition FINISHED ;;;
  ret result.

(** *** orchestration/reporting.py *)

Definition json_opt_str (o : option string) : Json :=
  match o with Some s => JStr s | None => JNull end.

Definition json_scores (d : list (string * Z)) : Json :=
  JObj (prod_map id JNum <$> d).

Definition json_choices (d : list (string * string)) : Json :=
  JObj (prod_map id JStr <$> d).

Definition json_result (r : Scorer.GameResult) : Json :=
  JObj [("status", JStr (Scorer.status r));
        ("winner_player_id", json_opt_str (Scorer.winner_player_id r));
        ("drawn_number", JNum (Scorer.drawn_number r));
        ("number_parity", JStr (Scorer.number_parity r));
        ("choices", json_choices (Scorer.choices r));
        ("scores", json_scores (Scorer.scores r))].

Definition notify_players (mp : MatchParams) (result : Scorer.GameResult)
  : M () :=
  let game_over_params :=
    JObj [("protocol", JStr "league.v2");
          ("message_type", JStr "GAME_OVER");
          ("sender", JStr ("referee:" +:+ referee_id config));
          ("timestamp", JStr (utc_timestamp w));
          ("conversation_id", JStr ("conv" +:+ p_match_id mp +:+ "001"));
          ("auth_token", JStr (or_empty (auth_token config)));
          ("match_id", JStr (p_match_id mp));
          ("game_type", JStr "even_odd");
          ("game_result", json_result result)] in
  emit (Call (player_A_endpoint mp) "notify_match_result" game_over_params) ;;;
  emit (Call (player_B_endpoint mp) "notify_match_result" game_over_params).

(** The envelope shared by the two reports to the league manager. *)
Definition report_params (mp : MatchParams) (conv : string) (result : Json)
  : Json :=
  JObj [("protocol", JStr "league.v2");
        ("message_type", JStr "MATCH_RESULT_REPORT");
        ("sender", JStr ("referee:" +:+ referee_id config));
        ("timestamp", JStr (utc_timestamp w));
        ("conversation_id", JStr ("conv" +:+ p_match_id mp +:+ conv));
        ("auth_token", JStr (or_empty (auth_token config)));
        ("league_id", JStr (or_empty (league_id config)));
        ("round_id", JStr (p_round_id mp));
        ("match_id", JStr (p_match_id mp));
        ("game_type", JStr "even_odd");
        ("result", result)].

Definition report_result (mp : MatchParams) (result : Scorer.GameResult)
  : M () :=
  emit (Call (league_manager_endpoint config) "report_match_result"
          (report_params mp "report"
             (JObj [("winner", json_opt_str (Scorer.winner_player_id result));
                    ("score", json_scores (Scorer.scores result));
                    ("details",
                     JObj [("drawn_number", JNum (Scorer.drawn_number result));
                           ("choices", json_choices (Scorer.choices result))])]))) ;;;
  _ <- lift_outcome (league_reply w) ;;
  ret ().

Definition report_aborted_game (mp : MatchParams) (reason : string) : M () :=
  try_except
    (emit (Call (league_manager_endpoint config) "report_match_result"
             (report_params mp "abort"
                (JObj [("status", JStr "ABORTED");
                       ("reason", JStr reason)]))) ;;;
     _ <- lift_outcome (league_reply w) ;;
     ret ())
    (λ _, true)
    (λ _, ret ()).

(** *** game_orchestrator.py *)

Definition orchestrate_game_body (mp : MatchParams) : M () :=
  try_finally
    (try_except
       (success <- send_invitations mp ;;
        if negb success then ret ()
        else
          choices <- collect_choices mp ;;
          match choices with
          | None | Some [] => ret ()
          | Some choices =>
              result <- draw_and_evaluate mp choices ;;
              notify_players mp result ;;;
              report_result mp result
          end)
       (λ _, true)
       (λ e, game_transition ABORTED ;;;
             report_aborted_game mp (exn_str e)))
    (emit Close).

(** A run of [orchestrate_game]: the final state machine, everything that
    was sent, and how the coroutine ended. *)
Definition orchestrate_game (mp : MatchParams) : run_state * outcome exn () :=
  orchestrate_game_body mp (mkRun (init (p_match_id mp) (clock w 0)) []).

End run.

(** The requests sent with the given tool name, with their endpoint. *)
Definition calls_to (tool : string) (tr : list event)
  : list (string * Json) :=
  tr ≫= λ e, match e with
             | Call endpoint t params =>
                 if decide (t = tool) then [(endpoint, params)] else []
             | Close => []
             end.

(** The request is a [MATCH_RESULT_REPORT] whose result has status
    [ABORTED] and a reason string. *)
Definition is_aborted_report (params : Json) : bool :=
  match json_field "message_type" params, json_field "result" params with
  | Some (JStr "MATCH_RESULT_REPORT"), Some result =>
      match json_field "status" result, json_field "reason" result with
      | Some (JStr "ABORTED"), Some (JStr _) => true
      | _, _ => false
      end
  | _, _ => false
  end.

(** An [ABORTED] report was sent to the league manager during the run. *)
Definition reports_abort (config : Config) (tr : list event) : bool :=
  existsb (λ c, bool_decide (c.1 = league_manager_endpoint config)
                && is_aborted_report c.2)
          (calls_to "report_match_result" tr).

(** [context.opponent_id] of a [CHOOSE_PARITY_CALL] request. *)
Definition context_opponent_id (params : Json) : option Json :=
  json_field "context" params ≫= json_field "opponent_id".

End Orchestration.

(** ** league_manager/handlers/round_manager.py *)

Module RoundManager.

Inductive RoundStatus : Type :=
  | PENDING
  | IN_PROGRESS
  | COMPLETED.

#[global] Instance RoundStatus_eq_dec : EqDecision RoundStatus.
Proof. solve_decision. Defined.

(** [scheduler.match_scheduler.Match] *)
Record Match : Type := mkMatch {
  match_id : string;
  player_a_id : string;
  player_b_id : string;
  referee_id : string;
  round_number : Z
}.

(** The fields of [RoundManager] that its methods read and write;
    [current_round] is [None] until a round is started. *)
Record RoundManager : Type := mkManager {
  current_round : option Z;
  round_status : gmap Z RoundStatus;
  round_matches : gmap Z (list Match);
  completed_matches : gmap Z (gset string);
  total_rounds : Z
}.

(** [RoundManager.__init__] *)
Definition init : RoundManager := mkManager None ∅ ∅ ∅ 0.

(** The loop of [initialize_tournament] from index [round_idx] on. *)
Fixpoint initialize_rounds (round_idx : Z) (schedule : list (list Match))
    (m : RoundManager) : RoundManager :=
  match schedule with
  | [] => m
  | matches :: rest =>
      let round_number := round_idx + 1 in
      initialize_rounds (round_idx + 1) rest
        (mkManager (current_round m)
           (<[round_number := PENDING]> (round_status m))
           (<[round_number := matches]> (round_matches m))
           (<[round_number := ∅]> (completed_matches m))
           (total_rounds m))
  end.

Definition initialize_tournament (tournament_schedule : list (list Match))
    (m : RoundManager) : RoundManager :=
  initialize_rounds 0 tournament_schedule
    (mkManager None (round_status m) (round_matches m) (completed_matches m)
       (Z.of_nat (length tournament_schedule))).

(** [start_round], up to the state it leaves behind; the announcement and
    its broadcast do not touch the manager. *)
Definition start_round (round_number : Z) (m : RoundManager)
  : RoundManager * outcome exn () :=
  match round_matches m !! round_number with
  | None => (m, Raised (ValueError "Round does not exist"))
  | Some _ =>
      match round_status m !! round_number with
      | None => (m, Raised (KeyError "round_status"))
      | Some st =>
          if decide (st ≠ PENDING) then
            (m, Raised (ValueError "Round already started"))
          else
            (mkManager (Some round_number)
               (<[round_number := IN_PROGRESS]> (round_status m))
               (round_matches m) (completed_matches m) (total_rounds m),
             Returned ())
      end
  end.

Definition mark_match_complete (match_id : string) (round_number : Z)
    (m : RoundManager) : RoundManager * outcome exn bool :=
  match completed_matches m !! round_number with
  | None => (m, Returned false)
  | Some done =>
      let m' :=
        mkManager (current_round m) (round_status m) (round_matches m)
          (<[round_number := done ∪ {[match_id]}]> (completed_matches m))
          (total_rounds m) in
      match round_matches m !! round_number with
      | None => (m', Raised (KeyError "round_matches"))
      | Some matches =>
          (m', Returned (bool_decide (size (done ∪ {[match_id]})
                                      = length matches)))
      end
  end.

(** [complete_round]: the status is written first, then the matches of the
    round are looked up. *)
Definition complete_round (round_number : Z) (m : RoundManager)
  : RoundManager * outcome exn () :=
  let m' :=
    mkManager (current_round m)
      (<[round_number := COMPLETED]> (round_status m))
      (round_matches m) (completed_matches m) (total_rounds m) in
  match round_matches m !! round_number with
  | None => (m', Raised (KeyError "round_matches"))
  | Some _ => (m', Returned ())
  end.

(** [all(s == RoundStatus.COMPLETED for s in self.round_status.values())] *)
Definition is_tournament_complete (m : RoundManager) : bool :=
  forallb (λ s, bool_decide (s = COMPLETED))
          ((map_to_list (round_status m)).*2).

(** A call of one of the four methods. *)
Inductive call : Type :=
  | InitializeTournament (schedule : list (list Match))
  | StartRound (round_number : Z)
  | MarkMatchComplete (match_id : string) (round_number : Z)
  | CompleteRound (round_number : Z).

(** The manager after the call, whether it returned or raised. *)
Definition after (c : call) (m : RoundManager) : RoundManager :=
  match c with
  | InitializeTournament schedule => initialize_tournament schedule m
  | StartRound n => (start_round n m).1
  | MarkMatchComplete id n => (mark_match_complete id n m).1
  | CompleteRound n => (complete_round n m).1
  end.

(** The call returned normally. *)
Definition succeeds (c : call) (m : RoundManager) : bool :=
  match c with
  | InitializeTournament _ => true
  | StartRound n =>
      match (start_round n m).2 with Returned _ => true | _ => false end
  | MarkMatchComplete id n =>
      match (mark_match_complete id n m).2 with
      | Returned _ => true
      | _ => false
      end
  | CompleteRound n =>
      match (complete_round n m).2 with Returned _ => true | _ => false end
  end.

Definition run (calls : list call) : RoundManager :=
  foldl (λ m c, after c m) init calls.

(** Every call of the sequence, made in turn from [m], returns normally. *)
Fixpoint all_succeed (calls : list call) (m : RoundManager) : bool :=
  match calls with
  | [] => true
  | c :: rest => succeeds c m && all_succeed rest (after c m)
  end.

(** States of a manager that went through some sequence of calls. *)
Definition reachable (m : RoundManager) : Prop := ∃ calls, m = run calls.

(** Every round's status is [COMPLETED]. *)
Definition all_rounds_completed (m : RoundManager) : Prop :=
  ∀ n st, round_status m !! n = Some st → st = COMPLETED.

End RoundManager.

(** ** league_manager/standings/match_tracker.py *)

Module MatchTracker.

Record MatchResult : Type := mkMatchResult {
  match_id : string;
  player_a_id : string;
  player_b_id : string;
  winner_id : option string;
  result_type : string;
  timestamp : string
}.

(** One entry of [player_stats]. *)
Record PlayerStats : Type := mkStats {
  wins : Z;
  losses : Z;
  ties : Z;
  matches_played : Z
}.

Record MatchTracker : Type := mkTracker {
  matches : list MatchResult;
  head_to_head : gmap (string * string) string;
  player_stats : gmap string PlayerStats
}.

(** [MatchTracker.__init__] *)
Definition init : MatchTracker := mkTracker [] ∅ ∅.

Definition add_win (s : PlayerStats) : PlayerStats :=
  mkStats (wins s + 1) (losses s) (ties s) (matches_played s + 1).
Definition add_loss (s : PlayerStats) : PlayerStats :=
  mkStats (wins s) (losses s + 1) (ties s) (matches_played s + 1).
Definition add_tie (s : PlayerStats) : PlayerStats :=
  mkStats (wins s) (losses s) (ties s + 1) (matches_played s + 1).

(** [if player_id not in self.player_stats: self.player_stats[player_id] = {...}] *)
Definition ensure_stats (player_id : string) (st : gmap string PlayerStats)
  : gmap string PlayerStats :=
  match st !! player_id with
  | Some _ => st
  | None => <[player_id := mkStats 0 0 0 0]> st
  end.

(** [record_match]; [now] is the timestamp the new [MatchResult] gets. *)
Definition record_match (match_id player_a_id player_b_id : string)
    (winner_id : option string) (result_type now : string)
    (t : MatchTracker) : MatchTracker * outcome exn () :=
  if bool_decide (winner_id ≠ None
                  ∧ winner_id ≠ Some player_a_id
                  ∧ winner_id ≠ Some player_b_id) then
    (t, Raised (ValueError ("Winner " +:+ default "" winner_id
                            +:+ " not in match players")))
  else
    let matches :=
      matches t ++ [mkMatchResult match_id player_a_id player_b_id winner_id
                      result_type now] in
    let h2h :=
      if decide (winner_id = Some player_a_id) then
        <[(player_b_id, player_a_id) := "L"]>
          (<[(player_a_id, player_b_id) := "W"]> (head_to_head t))
      else if decide (winner_id = Some player_b_id) then
        <[(player_b_id, player_a_id) := "W"]>
          (<[(player_a_id, player_b_id) := "L"]> (head_to_head t))
      else
        <[(player_b_id, player_a_id) := "T"]>
          (<[(player_a_id, player_b_id) := "T"]> (head_to_head t)) in
    let stats :=
      ensure_stats player_b_id (ensure_stats player_a_id (player_stats t)) in
    let stats :=
      match winner_id with
      | None => alter add_tie player_b_id (alter add_tie player_a_id stats)
      | Some w =>
          let loser_id :=
            if decide (w = player_a_id) then player_b_id else player_a_id in
          alter add_loss loser_id (alter add_win w stats)
      end in
    (mkTracker matches h2h stats, Returned ()).

(** [self.head_to_head.get((player_id, opponent_id))] *)
Definition get_head_to_head (player_id opponent_id : string)
    (t : MatchTracker) : option string :=
  head_to_head t !! (player_id, opponent_id).

End MatchTracker.

(** ** league_manager/standings/standings_calculator.py *)

Module Standings.

Record PlayerStanding : Type := mkStanding {
  player_id : string;
  display_name : string;
  wins : Z;
  losses : Z;
  ties : Z;
  points : Z;
  matches_played : Z;
  rank : Z
}.

(** [players] is the dict of the standings objects, in insertion order;
    the key under which an object is stored is its identity. *)
Record StandingsCalculator : Type := mkCalc {
  players : list (string * PlayerStanding);
  match_tracker : MatchTracker.MatchTracker
}.

(** [StandingsCalculator.__init__] with the default tracker. *)
Definition init : StandingsCalculator := mkCalc [] MatchTracker.init.

(** The attribute updates of [record_match_result], one per statement. *)
Definition incr_matches_played (p : PlayerStanding) : PlayerStanding :=
  mkStanding (player_id p) (display_name p) (wins p) (losses p) (ties p)
    (points p) (matches_played p + 1) (rank p).
Definition incr_wins (p : PlayerStanding) : PlayerStanding :=
  mkStanding (player_id p) (display_name p) (wins p + 1) (losses p) (ties p)
    (points p) (matches_played p) (rank p).
Definition incr_losses (p : PlayerStanding) : PlayerStanding :=
  mkStanding (player_id p) (display_name p) (wins p) (losses p + 1) (ties p)
    (points p) (matches_played p) (rank p).
Definition incr_ties (p : PlayerStanding) : PlayerStanding :=
  mkStanding (player_id p) (display_name p) (wins p) (losses p) (ties p + 1)
    (points p) (matches_played p) (rank p).
Definition add_points (n : Z) (p : PlayerStanding) : PlayerStanding :=
  mkStanding (player_id p) (display_name p) (wins p) (losses p) (ties p)
    (points p + n) (matches_played p) (rank p).
Definition set_rank (r : Z) (p : PlayerStanding) : PlayerStanding :=
  mkStanding (player_id p) (display_name p) (wins p) (losses p) (ties p)
    (points p) (matches_played p) r.

Definition add_player (player_id display_name : string)
    (c : StandingsCalculator) : StandingsCalculator * PlayerStanding :=
  let standing := mkStanding player_id display_name 0 0 0 0 0 0 in
  (mkCalc (dict_set player_id standing (players c)) (match_tracker c),
   standing).

(** [record_match_result]; [player_a] and [player_b] are references to the
    objects stored under the two ids, so every update goes to the object
    under that key, also when both ids are the same. *)
Definition record_match_result (match_id player_a_id player_b_id : string)
    (winner_id : option string) (now : string) (c : StandingsCalculator)
  : StandingsCalculator * outcome exn () :=
  if negb (dict_mem player_a_id (players c)) then
    (c, Raised (KeyError ("Player " +:+ player_a_id +:+ " not in standings")))
  else if negb (dict_mem player_b_id (players c)) then
    (c, Raised (KeyError ("Player " +:+ player_b_id +:+ " not in standings")))
  else
    match MatchTracker.record_match match_id player_a_id player_b_id
            winner_id "WIN" now (match_tracker c) with
    | (t, Raised e) => (mkCalc (players c) t, Raised e)
    | (t, Returned _) =>
        let ps := dict_alter incr_matches_played player_a_id (players c) in
        let ps := dict_alter incr_matches_played player_b_id ps in
        let ps :=
          match winner_id with
          | None =>
              let ps := dict_alter incr_ties player_a_id ps in
              let ps := dict_alter (add_points 1) player_a_id ps in
              let ps := dict_alter incr_ties player_b_id ps in
              dict_alter (add_points 1) player_b_id ps
          | Some w =>
              if decide (w = player_a_id) then
                let ps := dict_alter incr_wins player_a_id ps in
                let ps := dict_alter (add_points 3) player_a_id ps in
                dict_alter incr_losses player_b_id ps
              else
                let ps := dict_alter incr_wins player_b_id ps in
                let ps := dict_alter (add_points 3) player_b_id ps in
                dict_alter incr_losses player_a_id ps
          end in
        (mkCalc ps t, Returned ())
    end.

(** [_get_tiebreaker_value] *)
Definition _get_tiebreaker_value (t : MatchTracker.MatchTracker)
    (player : PlayerStanding) (all_players : list PlayerStanding) : Z :=
  let tied_players :=
    filter (λ p, points p = points player ∧ player_id p ≠ player_id player)
           all_players in
  if decide (length tied_players ≠ 1%nat) then 0
  else
    match tied_players with
    | opponent :: _ =>
        let h2h :=
          MatchTracker.get_head_to_head (player_id player)
            (player_id opponent) t in
        if decide (h2h = Some "W") then 0
        else if decide (h2h = Some "L") then 1 else 0
    | [] => 0
    end.

(** Python's order on the key tuples [(int, int, str)]: the first
    component that differs decides. *)
Definition key_lt (a b : Z * Z * string) : bool :=
  let '(a1, a2, a3) := a in
  let '(b1, b2, b3) := b in
  if negb (a1 =? b1) then a1 <? b1
  else if negb (a2 =? b2) then a2 <? b2
  else String.ltb a3 b3.

Section sort.
Context {A : Type} (key : A → Z * Z * string).

(** [x] goes before the first element whose key is greater. *)
Fixpoint insert_by_key (x : A) (l : list A) : list A :=
  match l with
  | [] => [x]
  | y :: l' =>
      if key_lt (key x) (key y) then x :: y :: l'
      else y :: insert_by_key x l'
  end.

(** [list.sort(key=...)]: a stable sort by ascending key. *)
Definition sort_by_key (l : list A) : list A :=
  foldl (λ sorted x, insert_by_key x sorted) [] l.

End sort.

(** The dict comprehension [tiebreaker_values]. *)
Definition tiebreaker_values (t : MatchTracker.MatchTracker)
    (standings : list PlayerStanding) : gmap string Z :=
  foldl (λ m p, <[player_id p := _get_tiebreaker_value t p standings]> m)
        ∅ standings.

(** The key of the [sort] call in [get_standings]. *)
Definition sort_key (tb : gmap string Z) (p : PlayerStanding)
  : Z * Z * string :=
  (- points p, default 0 (tb !! player_id p), player_id p).

(** [for i, player in enumerate(standings): player.rank = i + 1], on the
    objects, which are given with the key they are stored under. *)
Definition assign_ranks (items : list (string * PlayerStanding))
  : list (string * PlayerStanding) :=
  imap (λ i kp, (kp.1, set_rank (Z.of_nat i + 1) kp.2)) items.

(** [get_standings]: the returned list, and the calculator whose objects
    now carry the new ranks. *)
Definition get_standings (c : StandingsCalculator)
  : StandingsCalculator * list PlayerStanding :=
  let standings := dict_values (players c) in
  let tb := tiebreaker_values (match_tracker c) standings in
  let sorted := sort_by_key (λ kp, sort_key tb kp.2) (players c) in
  let ranked := assign_ranks sorted in
  (mkCalc ((λ kp, (kp.1, default kp.2 (dict_get kp.1 ranked))) <$> players c)
     (match_tracker c),
   dict_values ranked).

(** A call of one of the methods that write to the calculator. *)
Inductive call : Type :=
  | AddPlayer (player_id display_name : string)
  | RecordMatchResult (match_id player_a_id player_b_id : string)
      (winner_id : option string) (now : string)
  | GetStandings.

(** The calculator after the call, whether it returned or raised. *)
Definition after (k : call) (c : StandingsCalculator) : StandingsCalculator :=
  match k with
  | AddPlayer id name => (add_player id name c).1
  | RecordMatchResult m a b w now => (record_match_result m a b w now c).1
  | GetStandings => (get_standings c).1
  end.

Definition run (calls : list call) : StandingsCalculator :=
  foldl (λ c k, after k c) init calls.

Definition reachable (c : StandingsCalculator) : Prop := ∃ calls, c = run calls.

(** [matches_played] of the player stored under [id], 0 when absent. *)
Definition played (id : string) (c : StandingsCalculator) : Z :=
  default 0 (matches_played <$> dict_get id (players c)).

(** *** The tiebreak rule in the words of the specification *)

(** The other players that share [p]'s point total. *)
Definition sharing_points (p : PlayerStanding) (all : list PlayerStanding)
  : list PlayerStanding :=
  filter (λ q, player_id q ≠ player_id p ∧ points q = points p) all.

(** 0 unless exactly one other player shares the point total; then 0 if
    [p] won the recorded head-to-head, 1 if [p] lost it, 0 if they never
    played or tied. *)
Definition tiebreak_value_spec (t : MatchTracker.MatchTracker)
    (p : PlayerStanding) (all : list PlayerStanding) : Z :=
  match sharing_points p all with
  | [q] =>
      match MatchTracker.head_to_head t !! (player_id p, player_id q) with
      | Some "W" => 0
      | Some "L" => 1
      | _ => 0
      end
  | _ => 0
  end.

(** The order of the keys [(-points, tiebreak_value, player_id)]. *)
Definition key_le_spec (t : MatchTracker.MatchTracker)
    (all : list PlayerStanding) (p q : PlayerStanding) : Prop :=
  points q < points p
  ∨ (points p = points q
     ∧ (tiebreak_value_spec t p all < tiebreak_value_spec t q all
        ∨ (tiebreak_value_spec t p all = tiebreak_value_spec t q all
           ∧ String.leb (player_id p) (player_id q) = true))).

End Standings.

(** ** league_manager/broadcast/ *)

Module Broadcast.

(** The metadata dict of a recipient, with the keys the code reads;
    [None] is a key that is absent. *)
Record Agent : Type := mkAgent {
  player_id : option string;
  referee_id : option string;
  endpoint : option string
}.

(** delivery_report.py *)
Record DeliveryReport : Type := mkReport {
  total : Z;
  successful : Z;
  failed : Z;
  failed_agents : list string;
  errors : gmap string string
}.

(** [DeliveryReport.__init__] *)
Definition empty_report : DeliveryReport := mkReport 0 0 0 [] ∅.

(** The truth value of [agent.get(key)]: a string that is not empty. *)
Definition nonempty (o : option string) : option string :=
  match o with
  | Some s => if decide (s = "") then None else Some s
  | None => None
  end.

(** [agent.get("player_id") or agent.get("referee_id") or "unknown"] *)
Definition _get_agent_id (agent : Agent) : string :=
  match nonempty (player_id agent) with
  | Some id => id
  | None =>
      match nonempty (referee_id agent) with
      | Some id => id
      | None => "unknown"
      end
  end.

(** What the gathered task of a recipient ends in: [True], [False] or the
    exception it raised. *)
Definition task_result : Type := outcome exn bool.

Section sender.
(** message_sender.py: [max_retries] of the [MessageSender]. *)
Variable max_retries : Z.

(** The loop [for attempt in range(self.max_retries + 1)] from [attempt]
    on, with [remaining] rounds to go; [post attempt] is how the request
    of that attempt ends (a timeout, an HTTP error status and any other
    exception are handled alike). *)
Fixpoint attempts (post : Z → outcome exn ()) (remaining : nat)
    (attempt : Z) : task_result :=
  match remaining with
  | O => Returned false
  | S remaining' =>
      match post attempt with
      | Returned _ => Returned true
      | Raised e =>
          if attempt =? max_retries then Raised e
          else attempts post remaining' (attempt + 1)
      end
  end.

Definition send_to_agent (post : Z → outcome exn ()) (agent : Agent)
  : task_result :=
  let agent_id := _get_agent_id agent in
  match nonempty (endpoint agent) with
  | None => Raised (ValueError ("Agent " +:+ agent_id +:+ " has no endpoint"))
  | Some _ => attempts post (Z.to_nat (max_retries + 1)) 0
  end.

End sender.

(** result_processor.py: one round of the loop of [process_results]. *)
Definition process_result (report : DeliveryReport)
    (ar : Agent * task_result) : DeliveryReport :=
  let '(agent, result) := ar in
  let agent_id := _get_agent_id agent in
  match result with
  | Raised e =>
      mkReport (total report) (successful report) (failed report + 1)
        (failed_agents report ++ [agent_id])
        (<[agent_id := exn_str e]> (errors report))
  | Returned true =>
      mkReport (total report) (successful report + 1) (failed report)
        (failed_agents report) (errors report)
  | Returned false =>
      mkReport (total report) (successful report) (failed report + 1)
        (failed_agents report ++ [agent_id])
        (<[agent_id := "Unknown error"]> (errors report))
  end.

(** [for agent, result in zip(agents, results): ...] *)
Definition process_results (agents : list Agent) (results : list task_result)
    (report : DeliveryReport) : DeliveryReport :=
  foldl process_result report (zip agents results).

(** broadcaster.py: [network i attempt] is how attempt [attempt] of the
    delivery to the recipient at position [i] ends. *)
Definition _broadcast_to_agents (max_retries : Z)
    (network : nat → Z → outcome exn ()) (agents : list Agent)
  : DeliveryReport :=
  let report :=
    mkReport (Z.of_nat (length agents)) 0 0 [] ∅ in
  match agents with
  | [] => report
  | _ =>
      let results :=
        imap (λ i agent, send_to_agent max_retries (network i) agent) agents in
      process_results agents results report
  end.

End Broadcast.

(** ** league_manager/scheduler/referee_assigner.py *)

Module RefereeAssigner.

(** A referee dict with the two keys the schedulers read. *)
Record Referee : Type := mkReferee {
  referee_id : string;
  endpoint : string
}.

(** One entry of [round_data]; [assigned_referee_id] is the value under
    the key ["referee_id"]. *)
Record Assignment : Type := mkAssignment {
  player_A_id : string;
  player_B_id : string;
  assigned_referee_id : string;
  referee_endpoint : string
}.

(** The inner loop over one round; [referee_idx] runs on across rounds.
    [first] is [referees[0]]: the index [referee_idx % len(referees)] is
    always in range. *)
Fixpoint assign_round (first : Referee) (referees : list Referee)
    (referee_idx : nat) (round_matches : list Scheduler.pairing)
  : list Assignment * nat :=
  match round_matches with
  | [] => ([], referee_idx)
  | m :: rest =>
      let referee :=
        default first (referees !! (referee_idx mod length referees)%nat) in
      let '(round_data, idx) :=
        assign_round first referees (referee_idx + 1) rest in
      (mkAssignment m.1 m.2 (referee_id referee) (endpoint referee)
         :: round_data, idx)
  end.

(** The outer loop over the rounds. *)
Fixpoint assign_rounds (first : Referee) (referees : list Referee)
    (referee_idx : nat) (schedule : list (list Scheduler.pairing))
  : list (list Assignment) :=
  match schedule with
  | [] => []
  | round_matches :: rest =>
      let '(round_data, idx) :=
        assign_round first referees referee_idx round_matches in
      round_data :: assign_rounds first referees idx rest
  end.

Definition assign_referees_to_matches
    (schedule : list (list Scheduler.pairing)) (referees : list Referee)
  : outcome exn (list (list Assignment)) :=
  match referees with
  | [] => Raised (ValueError "No referees available")
  | first :: _ => Returned (assign_rounds first referees 0 schedule)
  end.

(** The two players of an assignment. *)
Definition players_of (a : Assignment) : Scheduler.pairing :=
  (player_A_id a, player_B_id a).

End RefereeAssigner.

(** ** league_manager/scheduler/match_scheduler.py *)

Module MatchScheduler.

Record MatchScheduler : Type := mkScheduler {
  league_id : string;
  referee_workload : gmap string Z
}.

(** [MatchScheduler.__init__] *)
Definition init (league_id : string) : MatchScheduler :=
  mkScheduler league_id ∅.

Fixpoint zeros (n : nat) : string :=
  match n with O => "" | S n' => "0" +:+ zeros n' end.

(** [f"{n:03d}"] for a number that is not negative. *)
Definition format_03d (n : nat) : string :=
  let digits := pretty n in
  zeros (3 - String.length digits) +:+ digits.

(** [f"{self.league_id}_R{round_number}_M{match_number:03d}"] *)
Definition _generate_match_id (round_number match_number : nat)
    (s : MatchScheduler) : string :=
  league_id s +:+ "_R" +:+ pretty round_number
    +:+ "_M" +:+ format_03d match_number.

(** [self.referee_workload.get(referee_id, 0)] *)
Definition workload_of (referee_id : string) (s : MatchScheduler) : Z :=
  default 0 (referee_workload s !! referee_id).

(** [min(rest, key=key)] continued from the best element so far: a later
    element replaces it only when its key is smaller. *)
Fixpoint min_by {A} (key : A → Z) (best : A) (rest : list A) : A :=
  match rest with
  | [] => best
  | x :: rest' => min_by key (if key x <? key best then x else best) rest'
  end.

Definition _assign_referee (referees : list RefereeAssigner.Referee)
    (s : MatchScheduler) : MatchScheduler * outcome exn string :=
  match referees with
  | [] => (s, Raised (ValueError "No referees available for assignment"))
  | first :: rest =>
      let selected :=
        min_by (λ r, workload_of (RefereeAssigner.referee_id r) s)
               first rest in
      let referee_id := RefereeAssigner.referee_id selected in
      (mkScheduler (league_id s)
         (<[referee_id := workload_of referee_id s + 1]>
            (referee_workload s)),
       Returned referee_id)
  end.

(** The list comprehension that builds the matches of one round, from
    position [idx] on. *)
Fixpoint build_round (referees : list RefereeAssigner.Referee)
    (round_number idx : nat) (round_matches : list Scheduler.pairing)
    (s : MatchScheduler)
  : MatchScheduler * outcome exn (list RoundManager.Match) :=
  match round_matches with
  | [] => (s, Returned [])
  | (player_a, player_b) :: rest =>
      let match_id := _generate_match_id round_number (idx + 1) s in
      match _assign_referee referees s with
      | (s', Raised e) => (s', Raised e)
      | (s', Returned referee_id) =>
          match build_round referees round_number (idx + 1) rest s' with
          | (s'', Raised e) => (s'', Raised e)
          | (s'', Returned matches) =>
              (s'', Returned
                      (RoundManager.mkMatch match_id player_a player_b
                         referee_id (Z.of_nat round_number) :: matches))
          end
      end
  end.

(** The loop over the rounds, from index [round_idx] on. *)
Fixpoint build_rounds (referees : list RefereeAssigner.Referee)
    (round_idx : nat) (rr_schedule : list (list Scheduler.pairing))
    (s : MatchScheduler)
  : MatchScheduler * outcome exn (list (list RoundManager.Match)) :=
  match rr_schedule with
  | [] => (s, Returned [])
  | round_matches :: rest =>
      match build_round referees (round_idx + 1) 0 round_matches s with
      | (s', Raised e) => (s', Raised e)
      | (s', Returned matches_in_round) =>
          match build_rounds referees (round_idx + 1) rest s' with
          | (s'', Raised e) => (s'', Raised e)
          | (s'', Returned schedule) =>
              (s'', Returned (matches_in_round :: schedule))
          end
      end
  end.

Definition create_tournament_schedule (player_ids : list string)
    (referees : list RefereeAssigner.Referee) (s : MatchScheduler)
  : MatchScheduler * outcome exn (list (list RoundManager.Match)) :=
  if (length player_ids <? 2)%nat then
    (s, Raised (ValueError "Need at least 2 players for tournament"))
  else if bool_decide (referees = []) then
    (s, Raised (ValueError "Need at least 1 referee for tournament"))
  else
    build_rounds referees 0
      (Scheduler.create_round_robin_schedule player_ids) s.

(** The workloads of the listed referees differ by at most one. *)
Definition balanced (referees : list RefereeAssigner.Referee)
    (s : MatchScheduler) : Prop :=
  ∀ r1 r2, r1 ∈ referees → r2 ∈ referees →
    workload_of (RefereeAssigner.referee_id r1) s
    ≤ workload_of (RefereeAssigner.referee_id r2) s + 1.

(** The two players of a match. *)
Definition players_of (m : RoundManager.Match) : Scheduler.pairing :=
  (RoundManager.player_a_id m, RoundManager.player_b_id m).

End MatchScheduler.

(** ** Sequences of calls on a state machine and on a match tracker *)

Module GameRuns.
Import StateMachine.

(** The machine after a call of [transition], whether it returned or
    raised. *)
Definition attempt (g : GameStateMachine) (call : GameState * timestamp)
  : GameStateMachine :=
  (transition call.1 call.2 g).1.

Definition run (g : GameStateMachine) (calls : list (GameState * timestamp))
  : GameStateMachine :=
  foldl attempt g calls.

(** Consecutive entries of a history are edges of the table. *)
Fixpoint is_path (states : list GameState) : Prop :=
  match states with
  | s :: ((s' :: _) as rest) => edge s s' ∧ is_path rest
  | _ => True
  end.

End GameRuns.

Module TrackerRuns.
Import MatchTracker.

(** [self.player_stats.get(player_id, {all zero})] *)
Definition get_player_stats (player_id : string) (t : MatchTracker)
  : PlayerStats :=
  default (mkStats 0 0 0 0) (player_stats t !! player_id).

(** [self.matches.copy()] *)
Definition get_all_matches (t : MatchTracker) : list MatchResult :=
  matches t.

(** The arguments of a call of [record_match]. *)
Record call : Type := mkCall {
  c_match_id : string;
  c_player_a : string;
  c_player_b : string;
  c_winner : option string;
  c_result_type : string;
  c_now : string
}.

Definition record (c : call) (t : MatchTracker)
  : MatchTracker * outcome exn () :=
  record_match (c_match_id c) (c_player_a c) (c_player_b c) (c_winner c)
    (c_result_type c) (c_now c) t.

(** The tracker after the calls, whether they returned or raised. *)
Definition run (calls : list call) : MatchTracker :=
  foldl (λ t c, (record c t).1) init calls.

Definition reachable (t : MatchTracker) : Prop := ∃ calls, t = run calls.

End TrackerRuns.

(** ** league_manager/handlers/report_match_result.py *)

Module ResultHandler.
Import Orchestration.

(** The request is the dict [params] of the decoded JSON-RPC call; its
    values are whatever the sender put there. *)

(** Why a report was refused; the response carries the reason as text,
    for the last one ["Standings update failed: "] followed by the
    exception. *)
Inductive refusal : Type :=
  | MissingFields
  | InvalidScore
  | StandingsUpdateFailed (e : exn).

(** The [MATCH_RESULT_ACK] response; [conversation_id] and [match_id] are
    values of the request. *)
Inductive Response : Type :=
  | Acknowledged (conversation_id match_id : Json) (round_complete : bool)
  | Refused (conversation_id : Json) (error : refusal).

(** [params.get(key, dflt)]; [params.get(key)] has [None] as default. *)
Definition get (key : string) (dflt : Json) (params : list (string * Json))
  : Json :=
  default dflt (dict_get key params).

(** [list(score.keys())]; a value that is no dict has no [keys]. *)
Definition py_keys (obj : Json) : outcome exn (list string) :=
  match obj with
  | JObj fields => Returned (dict_keys fields)
  | _ => Raised (no_attribute obj "keys")
  end.

(** The key of [self.completed_matches] that [round_number] is equal to,
    as [in] and the subscript find it.  The keys are ints: [True] and
    [False] are equal to 1 and 0 and hash alike, no string and no [None]
    is equal to an int, and a list or a dict cannot be hashed
    ([TypeError]). *)
Definition round_key (round_number : Json) : outcome exn (option Z) :=
  match round_number with
  | JNum z => Returned (Some z)
  | JBool b => Returned (Some (if b then 1 else 0))
  | JNull | JStr _ => Returned None
  | JArr _ => Raised (OtherError "unhashable type: 'list'")
  | JObj _ => Raised (OtherError "unhashable type: 'dict'")
  end.

(** [round_manager.mark_match_complete(match_id, round_id)] with the
    [round_id] of the request. *)
Definition mark_match_complete (match_id : string) (round_id : Json)
    (round_manager : RoundManager.RoundManager)
  : RoundManager.RoundManager * outcome exn bool :=
  match round_key round_id with
  | Raised e => (round_manager, Raised e)
  | Returned None => (round_manager, Returned false)
  | Returned (Some n) =>
      RoundManager.mark_match_complete match_id n round_manager
  end.

(** The arguments [match_id: str] and [winner_id: Optional[str]] of
    [record_match_result], when the values of the request have these
    types. *)
Definition as_match_id (v : Json) : option string :=
  match v with JStr s => Some s | _ => None end.

Definition as_winner_id (v : Json) : option (option string) :=
  match v with
  | JNull => Some None
  | JStr s => Some (Some s)
  | _ => None
  end.

(** [_create_error_response] *)
Definition error_response (params : list (string * Json)) (reason : refusal)
  : Response :=
  Refused (get "conversation_id" (JStr "conv_unknown") params) reason.

(** [handle_match_result_report]; [now] is the timestamp the tracker gives
    the recorded match.  The statements are followed in the order of the
    source, with the exceptions they raise.  The result is [None] where
    the source calls [record_match_result] with a [match_id] that is no
    string or a winner that is neither null nor a string: the standings
    are embedded for the types of its signature. *)
Definition handle_match_result_report (params : list (string * Json))
    (now : string) (standings_calculator : Standings.StandingsCalculator)
    (round_manager : RoundManager.RoundManager)
  : option (Standings.StandingsCalculator * RoundManager.RoundManager
            * outcome exn Response) :=
  let match_id := get "match_id" JNull params in
  let round_id := get "round_id" JNull params in
  let result := get "result" (JObj []) params in
  match py_get result "winner" JNull with
  | Raised e => Some (standings_calculator, round_manager, Raised e)
  | Returned winner_id =>
      match py_get result "score" (JObj []) with
      | Raised e => Some (standings_calculator, round_manager, Raised e)
      | Returned score =>
          if negb (truthy match_id) || negb (truthy round_id) then
            Some (standings_calculator, round_manager,
                  Returned (error_response params MissingFields))
          else
            match py_keys score with
            | Raised e => Some (standings_calculator, round_manager, Raised e)
            | Returned [player_a_id; player_b_id] =>
                match as_match_id match_id, as_winner_id winner_id with
                | Some id, Some winner =>
                    match Standings.record_match_result id player_a_id
                            player_b_id winner now standings_calculator with
                    | (sc, Raised e) =>
                        Some (sc, round_manager,
                              Returned (error_response params
                                          (StandingsUpdateFailed e)))
                    | (sc, Returned _) =>
                        match mark_match_complete id round_id
                                round_manager with
                        | (rm, Raised e) => Some (sc, rm, Raised e)
                        | (rm, Returned round_complete) =>
                            Some (sc, rm,
                                  Returned
                                    (Acknowledged
                                       (get "conversation_id"
                                          (JStr "conv_unknown") params)
                                       match_id round_complete))
                        end
                    end
                | _, _ => None
                end
            | Returned _ =>
                Some (standings_calculator, round_manager,
                      Returned (error_response params InvalidScore))
            end
      end
  end.

End ResultHandler.

(** ** Example inputs *)

Module Demo.
Import Orchestration.

Definition config : Config :=
  mkConfig "REF01" (Some "token") (Some "league_2025_even_odd")
    "http://localhost:8000/mcp".

(** The parameters of the docstring of [orchestrate_game]. *)
Definition params : MatchParams :=
  mkParams "R1M1" "1" "P01" "P02"
    "http://localhost:8101/mcp" "http://localhost:8102/mcp".

Definition accepts : reply :=
  Returned (JObj [("result", JObj [("accept", JBool true)])]).
Definition rejects : reply :=
  Returned (JObj [("result", JObj [("accept", JBool false)])]).
Definition chooses (c : string) : reply :=
  Returned (JObj [("result", JObj [("parity_choice", JStr c)])]).
Definition times_out : reply := Raised (TimeoutError "").
Definition fails : reply := Raised (OtherError "connection refused").

(** A world in which the league manager answers and 7 is drawn. *)
Definition world (invitation_A invitation_B choice_A choice_B : reply)
  : World :=
  mkWorld invitation_A invitation_B choice_A choice_B 7
    (Returned (JObj [("result", JObj [("acknowledged", JBool true)])]))
    Z.of_nat "2025-01-15T10:30:00Z" "20250115T103030Z".

(** How a run ended: the state of the machine, the tools called in order,
    whether an [ABORTED] report went out, and whether the coroutine
    returned. *)
Definition summary (w : World)
  : StateMachine.GameState * list string * bool * bool :=
  let r := orchestrate_game config w params in
  (StateMachine.state (game r.1),
   trace r.1 ≫= (λ e, match e with Call _ tool _ => [tool] | Close => [] end),
   reports_abort config (trace r.1),
   match r.2 with Returned _ => true | Raised _ => false end).

End Demo.

Module DemoRounds.
Import RoundManager.

Definition match_1 : Match := mkMatch "L1_R1_M001" "P01" "P02" "REF01" 1.
Definition match_2 : Match := mkMatch "L1_R2_M001" "P01" "P03" "REF01" 2.

(** Two rounds of one match each, played second round first. *)
Definition second_round_first : list call :=
  [InitializeTournament [[match_1]; [match_2]];
   StartRound 2; MarkMatchComplete "L1_R2_M001" 2; CompleteRound 2;
   StartRound 1; MarkMatchComplete "L1_R1_M001" 1; CompleteRound 1].

End DemoRounds.

Module DemoStandings.
Import Standings.

Definition two_players : list call :=
  [AddPlayer "P01" "Alice"; AddPlayer "P02" "Bob"].

End DemoStandings.

(** * Properties *)

(** ** Round-robin scheduler *)

Section scheduler_facts.
Import Scheduler.

(** The set of a round's players is the set of the list of its players. *)
Lemma players_in_round_spec (r : list pairing) (x : string) :
  x ∈ players_in_round r ↔ x ∈ round_players r.
Proof.
  unfold players_in_round, round_players.
  assert (G : ∀ s : gset string,
             x ∈ foldl (λ s m, s ∪ {[m.1]} ∪ {[m.2]}) s r
             ↔ x ∈ s ∨ x ∈ r ≫= λ m, [m.1; m.2]).
  { induction r as [|m r IH]; intros s; simpl.
    - rewrite elem_of_nil. tauto.
    - rewrite IH. rewrite !elem_of_cons. set_solver. }
  rewrite G. set_solver.
Qed.

Lemma round_players_app (r1 r2 : list pairing) :
  round_players (r1 ++ r2) = round_players r1 ++ round_players r2.
Proof. unfold round_players. by rewrite bind_app. Qed.

(** Placing a match of two different players keeps every round free of
    repeated players. *)
Lemma assign_match_NoDup (m : pairing) (rounds : list (list pairing)) :
  m.1 ≠ m.2 →
  Forall (λ r, NoDup (round_players r)) rounds →
  Forall (λ r, NoDup (round_players r)) (assign_match m rounds).
Proof.
  intros Hm. induction 1 as [|r rs Hr Hrs IH]; simpl; [constructor|].
  destruct (both_free m r) eqn:Hfree; constructor; auto.
  unfold both_free in Hfree.
  apply andb_prop in Hfree as [H1 H2].
  apply bool_decide_eq_true in H1, H2.
  rewrite players_in_round_spec in H1, H2.
  rewrite round_players_app. apply NoDup_app. split; [done|]. split.
  - intros x Hx. unfold round_players; simpl.
    rewrite !elem_of_cons, elem_of_nil. intros [->| [->|[]]]; done.
  - unfold round_players; simpl. apply NoDup_cons. split.
    + rewrite elem_of_cons, elem_of_nil. tauto.
    + apply NoDup_singleton.
Qed.

Lemma combinations2_distinct (ids : list string) :
  NoDup ids → Forall (λ m : pairing, m.1 ≠ m.2) (combinations2 ids).
Proof.
  induction 1 as [|p rest Hp Hrest IH]; simpl; [constructor|].
  apply Forall_app. split; [|done].
  apply Forall_fmap, Forall_forall. intros q Hq; simpl. by intros ->.
Qed.

(** The part of the schedule property that the greedy placement does
    keep: with distinct player ids no round holds a player twice. *)
Lemma schedule_rounds_NoDup (ids : list string) :
  NoDup ids →
  Forall (λ r, NoDup (round_players r)) (create_round_robin_schedule ids).
Proof.
  intros Hids. unfold create_round_robin_schedule.
  destruct (length ids <? 2)%nat; [constructor|].
  pose proof (combinations2_distinct ids Hids) as Hd.
  assert (H0 : Forall (λ r, NoDup (round_players r))
                 (replicate (num_rounds (length ids)) ([] : list pairing))).
  { apply Forall_replicate. constructor. }
  revert H0. generalize (replicate (num_rounds (length ids)) ([] : list pairing)).
  induction Hd as [|m ms Hm Hms IH]; intros rounds H0; simpl; [done|].
  apply IH. by apply assign_match_NoDup.
Qed.

End scheduler_facts.

(** C1: for five players the schedule should hold C(5,2) = 10 matches with
    every pair in exactly one round; the greedy placement finds no free
    round for (P03, P05) and (P04, P05) and drops them, so the schedule
    holds 8 matches and these two pairs are in no round. *)
Theorem C1_five_players_schedule_drops_pairs :
  let schedule :=
    Scheduler.create_round_robin_schedule
      ["P01"; "P02"; "P03"; "P04"; "P05"] in
  schedule = [ [("P01", "P02"); ("P03", "P04")];
               [("P01", "P03"); ("P02", "P04")];
               [("P01", "P04"); ("P02", "P03")];
               [("P01", "P05")];
               [("P02", "P05")] ]
  ∧ Scheduler.total_matches schedule = 8%nat
  ∧ Scheduler.choose2 5 = 10%nat
  ∧ Scheduler.rounds_with_pair "P03" "P05" schedule = 0%nat
  ∧ Scheduler.rounds_with_pair "P04" "P05" schedule = 0%nat.
Proof. vm_compute. repeat split; reflexivity. Qed.

(** ** Match state machine *)

Section state_machine_facts.
Import StateMachine.

Lemma edge_TRANSITIONS (s t : GameState) : edge s t ↔ t ∈ TRANSITIONS s.
Proof.
  split.
  - destruct 1; simpl; rewrite !elem_of_cons; auto.
  - destruct s, t; simpl; intros H; try constructor; exfalso;
      repeat (apply elem_of_cons in H as [H|H]; [discriminate|]);
      by apply elem_of_nil in H.
Qed.

End state_machine_facts.

(** C5: [transition t] succeeds exactly on the edges of the table; it then
    sets the state to [t] and appends the one entry [(t, now)] to the
    history.  On any other pair it raises a [ValueError] and the machine,
    state and history, is as before. *)
Theorem C5_transition_follows_table
    (g : StateMachine.GameStateMachine) (t : StateMachine.GameState)
    (now : StateMachine.timestamp) :
  (StateMachine.edge (StateMachine.state g) t
   ∧ StateMachine.transition t now g =
       (StateMachine.mkGame (StateMachine.match_id g) t
          (StateMachine.history g ++ [(t, now)]),
        Returned ()))
  ∨ (¬ StateMachine.edge (StateMachine.state g) t
     ∧ ∃ msg, StateMachine.transition t now g = (g, Raised (ValueError msg))).
Proof.
  unfold StateMachine.transition.
  destruct (decide (t ∈ StateMachine.TRANSITIONS (StateMachine.state g)))
    as [Hin|Hnin].
  - left. split; [by apply edge_TRANSITIONS|].
    rewrite bool_decide_eq_false_2; [done|]. by intros ?.
  - right. split; [by rewrite edge_TRANSITIONS|].
    rewrite bool_decide_eq_true_2 by done. eauto.
Qed.

(** ** Scoring *)

Section scorer_facts.
Import Scorer.

(** What [determine_winner] does for two different players: the first of
    them whose choice is the parity wins with 3 points to 0; when neither
    choice is the parity there is no winner and both score 0. *)
Lemma determine_winner_two_players (drawn : Z) (a b ca cb : string) :
  a ≠ b →
  let r := determine_winner drawn [(a, ca); (b, cb)] in
  (ca = parity_of drawn
   ∧ winner_player_id r = Some a ∧ score_of a r = 3 ∧ score_of b r = 0)
  ∨ (ca ≠ parity_of drawn ∧ cb = parity_of drawn
     ∧ winner_player_id r = Some b ∧ score_of a r = 0 ∧ score_of b r = 3)
  ∨ (ca ≠ parity_of drawn ∧ cb ≠ parity_of drawn
     ∧ winner_player_id r = None ∧ score_of a r = 0 ∧ score_of b r = 0).
Proof.
  intros Hab. unfold determine_winner, score_of; simpl.
  destruct (decide (ca = parity_of drawn)) as [Ha|Ha];
    [|destruct (decide (cb = parity_of drawn)) as [Hb|Hb]];
    [left|right; left|right; right]; simpl;
    repeat (case_decide; simplify_eq; simpl); done.
Qed.

End scorer_facts.

(** C3: drawn number 3 is odd; when both players chose "even" the claim
    names the first key, P01, as winner with 3 points to 0.  The code finds
    no choice equal to the parity: the result has status "WIN", no winner,
    and both scores are 0, which sum to 0. *)
Theorem C3_both_wrong_has_no_winner :
  let r := Scorer.determine_winner 3 [("P01", "even"); ("P02", "even")] in
  Scorer.status r = "WIN"
  ∧ Scorer.number_parity r = "odd"
  ∧ Scorer.winner_player_id r = None
  ∧ Scorer.scores r = [("P01", 0); ("P02", 0)]
  ∧ Scorer.score_of "P01" r + Scorer.score_of "P02" r = 0.
Proof. vm_compute. repeat split; reflexivity. Qed.

(** ** Match orchestration *)

Section orchestration_facts.
Import StateMachine Orchestration.
Variable config : Config.
Variable w : World.
Variable mp : MatchParams.

(** When the first invitation ends in an exception or a timeout, the run
    aborts the match and returns after the two invitations: nothing is sent
    to the league manager. *)
Lemma invitation_failure_is_silent (e : exn) :
  invitation_reply_A w = Raised e →
  let r := orchestrate_game config w mp in
  state (game r.1) = ABORTED
  ∧ calls_to "report_match_result" (trace r.1) = []
  ∧ r.2 = Returned ().
Proof.
  intros He. unfold orchestrate_game, orchestrate_game_body, send_invitations.
  destruct (invitations config w mp) as [ia ib].
  unfold try_finally, try_except, bind, emit; simpl.
  rewrite He; simpl. unfold bind, game_transition; simpl. done.
Qed.

(** The same when the first player answers that it does not accept. *)
Lemma rejection_is_silent :
  invitation_reply_A w = Demo.rejects →
  let r := orchestrate_game config w mp in
  state (game r.1) = ABORTED
  ∧ calls_to "report_match_result" (trace r.1) = []
  ∧ r.2 = Returned ().
Proof.
  intros He. unfold orchestrate_game, orchestrate_game_body, send_invitations.
  destruct (invitations config w mp) as [ia ib].
  unfold try_finally, try_except, bind, emit; simpl.
  rewrite He; simpl. unfold bind, game_transition; simpl. done.
Qed.

(** After two acceptances, a choice call of the first player that ends in
    an exception or a timeout, or that answers with a value other than
    "even" and "odd", aborts the match, and again nothing is sent to the
    league manager. *)
Lemma choice_failure_is_silent (r1 : reply) :
  invitation_reply_A w = Demo.accepts →
  invitation_reply_B w = Demo.accepts →
  choice_reply_A w = r1 →
  ((∃ e, r1 = Raised e)
   ∨ (∃ c, r1 = Demo.chooses c ∧ c ≠ "even" ∧ c ≠ "odd")) →
  let r := orchestrate_game config w mp in
  state (game r.1) = ABORTED
  ∧ calls_to "report_match_result" (trace r.1) = []
  ∧ r.2 = Returned ().
Proof.
  intros HA HB Hc Hr1.
  unfold orchestrate_game, orchestrate_game_body, send_invitations,
    collect_choices.
  destruct (invitations config w mp) as [ia ib].
  destruct (choice_requests config w mp) as [ca cb].
  unfold try_finally, try_except, bind, emit; simpl.
  rewrite HA, HB; simpl. unfold bind, game_transition; simpl.
  rewrite Hc. destruct Hr1 as [[e ->]|(c & -> & Heven & Hodd)]; simpl.
  - done.
  - rewrite bool_decide_eq_false_2 by (intros [|]; done). simpl. done.
Qed.

End orchestration_facts.

(** C2: a match that is aborted should still be reported as [ABORTED] to
    the league manager.  In each of four runs (player A rejects the
    invitation; A's invitation times out; B's choice call fails; B answers
    "maybe") the machine ends in [ABORTED], the coroutine returns, and the
    only calls made are the invitations and choice requests:
    [report_match_result] is never called. *)
Theorem C2_aborted_match_is_not_reported :
  Demo.summary (Demo.world Demo.rejects Demo.accepts
                  (Demo.chooses "even") (Demo.chooses "odd"))
  = (StateMachine.ABORTED,
     ["handle_game_invitation"; "handle_game_invitation"], false, true)
  ∧ Demo.summary (Demo.world Demo.times_out Demo.accepts
                    (Demo.chooses "even") (Demo.chooses "odd"))
    = (StateMachine.ABORTED,
       ["handle_game_invitation"; "handle_game_invitation"], false, true)
  ∧ Demo.summary (Demo.world Demo.accepts Demo.accepts
                    (Demo.chooses "even") Demo.fails)
    = (StateMachine.ABORTED,
       ["handle_game_invitation"; "handle_game_invitation";
        "choose_parity"; "choose_parity"], false, true)
  ∧ Demo.summary (Demo.world Demo.accepts Demo.accepts
                    (Demo.chooses "even") (Demo.chooses "maybe"))
    = (StateMachine.ABORTED,
       ["handle_game_invitation"; "handle_game_invitation";
        "choose_parity"; "choose_parity"], false, true).
Proof. vm_compute. repeat split; reflexivity. Qed.

(** C8: player A's request should carry [context.opponent_id] = B's id.
    Both request dicts refer to one [context] dict, so the assignment made
    for B's request shows in A's as well: for every match both requests
    carry player A's id as opponent.  In the run of the match P01 against
    P02 the request posted to P01's endpoint names P01 as its opponent. *)
Theorem C8_player_A_is_told_itself_as_opponent :
  (∀ config w mp,
     let requests := Orchestration.choice_requests config w mp in
     Orchestration.context_opponent_id requests.1
       = Some (Orchestration.JStr (Orchestration.player_A_id mp))
     ∧ Orchestration.context_opponent_id requests.2
       = Some (Orchestration.JStr (Orchestration.player_A_id mp)))
  ∧ (let r :=
       Orchestration.orchestrate_game Demo.config
         (Demo.world Demo.accepts Demo.accepts
            (Demo.chooses "even") (Demo.chooses "odd"))
         Demo.params in
     (λ c : string * Orchestration.Json,
        (c.1, Orchestration.json_field "player_id" c.2,
         Orchestration.context_opponent_id c.2))
       <$> Orchestration.calls_to "choose_parity" (Orchestration.trace r.1)
     = [("http://localhost:8101/mcp",
         Some (Orchestration.JStr "P01"), Some (Orchestration.JStr "P01"));
        ("http://localhost:8102/mcp",
         Some (Orchestration.JStr "P02"), Some (Orchestration.JStr "P01"))]).
Proof.
  split.
  - intros config w mp. split; reflexivity.
  - vm_compute. reflexivity.
Qed.

(** ** Round manager *)

Section round_manager_facts.
Import RoundManager.

Lemma is_tournament_complete_spec (m : RoundManager) :
  is_tournament_complete m = true ↔ all_rounds_completed m.
Proof.
  unfold is_tournament_complete, all_rounds_completed.
  rewrite forallb_forall. split.
  - intros H n st Hn. eapply bool_decide_eq_true_1, H, list_elem_of_In.
    apply list_elem_of_fmap. exists (n, st). split; [done|].
    by apply elem_of_map_to_list.
  - intros H st Hin. apply bool_decide_eq_true_2.
    apply list_elem_of_In, list_elem_of_fmap in Hin as [[n st'] [-> Hin]].
    apply elem_of_map_to_list in Hin. eauto.
Qed.

End round_manager_facts.

(** C4, as stated, fails: after a two-round tournament whose second round
    is started and completed before the first, every call having returned
    normally, [is_tournament_complete] is true while [current_round] is 1
    and [total_rounds] is 2. *)
Lemma C4_complete_while_current_round_differs :
  let m := RoundManager.run DemoRounds.second_round_first in
  RoundManager.all_succeed DemoRounds.second_round_first RoundManager.init
    = true
  ∧ RoundManager.is_tournament_complete m = true
  ∧ RoundManager.current_round m = Some 1
  ∧ RoundManager.total_rounds m = 2
  ∧ ¬ (RoundManager.is_tournament_complete m = true
       ↔ RoundManager.current_round m = Some (RoundManager.total_rounds m)
         ∧ RoundManager.all_rounds_completed m).
Proof.
  repeat split; try (vm_compute; reflexivity).
  intros [H _]. destruct H as [H _]; [vm_compute; reflexivity|].
  vm_compute in H. discriminate.
Qed.

(** C4, amended: in every reachable state [is_tournament_complete] is true
    if and only if every round's status is [COMPLETED]; [current_round] is
    not consulted.  In particular it is true when [current_round] equals
    [total_rounds] and every round is [COMPLETED]. *)
Theorem C4_complete_iff_all_rounds_completed (m : RoundManager.RoundManager) :
  RoundManager.reachable m →
  (RoundManager.is_tournament_complete m = true
   ↔ RoundManager.all_rounds_completed m)
  ∧ (RoundManager.current_round m = Some (RoundManager.total_rounds m)
     ∧ RoundManager.all_rounds_completed m
     → RoundManager.is_tournament_complete m = true).
Proof.
  intros _. split; [apply is_tournament_complete_spec|].
  intros [_ H]. by apply is_tournament_complete_spec.
Qed.

Lemma C4_complete_iff_all_rounds_completed_witness :
  RoundManager.reachable (RoundManager.run DemoRounds.second_round_first)
  ∧ ((RoundManager.is_tournament_complete
        (RoundManager.run DemoRounds.second_round_first) = true
      ↔ RoundManager.all_rounds_completed
          (RoundManager.run DemoRounds.second_round_first))
     ∧ (RoundManager.current_round
          (RoundManager.run DemoRounds.second_round_first)
        = Some (RoundManager.total_rounds
                  (RoundManager.run DemoRounds.second_round_first))
        ∧ RoundManager.all_rounds_completed
            (RoundManager.run DemoRounds.second_round_first)
        → RoundManager.is_tournament_complete
            (RoundManager.run DemoRounds.second_round_first) = true)).
Proof.
  assert (R : RoundManager.reachable
                (RoundManager.run DemoRounds.second_round_first)).
  { exists DemoRounds.second_round_first. reflexivity. }
  split; [exact R|].
  exact (C4_complete_iff_all_rounds_completed _ R).
Defined.

(** ** Ordered dicts *)

Section dict_facts.
Context {V : Type}.
Implicit Types (d : list (string * V)) (k : string) (f : V → V).

Lemma dict_get_alter_eq f k d :
  dict_get k (dict_alter f k d) = f <$> dict_get k d.
Proof.
  induction d as [|[k' v'] d IH]; simpl; [done|].
  destruct (decide (k = k')) as [->|Hne]; simpl.
  - by rewrite decide_True.
  - by rewrite decide_False.
Qed.

Lemma dict_get_alter_ne f k k' d :
  k ≠ k' → dict_get k (dict_alter f k' d) = dict_get k d.
Proof.
  intros Hne. induction d as [|[k0 v0] d IH]; simpl; [done|].
  destruct (decide (k' = k0)) as [->|Hne']; simpl.
  - by rewrite !decide_False.
  - destruct (decide (k = k0)); done.
Qed.

Lemma dict_alter_compose f g k d :
  dict_alter f k (dict_alter g k d) = dict_alter (f ∘ g) k d.
Proof.
  induction d as [|[k' v'] d IH]; simpl; [done|].
  destruct (decide (k = k')) as [->|Hne]; simpl.
  - by rewrite decide_True.
  - rewrite decide_False by done. by rewrite IH.
Qed.

Lemma dict_keys_alter f k d : dict_keys (dict_alter f k d) = dict_keys d.
Proof.
  unfold dict_keys. induction d as [|[k' v'] d IH]; simpl; [done|].
  destruct (decide (k = k')); simpl; [done|]. f_equal. apply IH.
Qed.

Lemma dict_alter_Forall (P : string * V → Prop) f k d :
  (∀ k' v, P (k', v) → P (k', f v)) →
  Forall P d → Forall P (dict_alter f k d).
Proof.
  intros Hf. induction 1 as [|[k' v'] d Hv Hd IH]; simpl; [constructor|].
  destruct (decide (k = k')); constructor; auto.
Qed.

Lemma dict_set_Forall (P : string * V → Prop) k v d :
  P (k, v) → Forall P d → Forall P (dict_set k v d).
Proof.
  intros Hv. induction 1 as [|[k' v'] d Hv' Hd IH]; simpl.
  - by repeat constructor.
  - destruct (decide (k = k')); constructor; auto.
Qed.

Lemma dict_keys_set_elem k k0 v d :
  k0 ∈ dict_keys (dict_set k v d) ↔ k0 = k ∨ k0 ∈ dict_keys d.
Proof.
  unfold dict_keys. induction d as [|[k' v'] d IH]; simpl.
  - rewrite list_elem_of_singleton, elem_of_nil. tauto.
  - destruct (decide (k = k')) as [->|Hne]; simpl.
    + rewrite !elem_of_cons. tauto.
    + rewrite !elem_of_cons, IH. tauto.
Qed.

Lemma dict_set_NoDup k v d :
  NoDup (dict_keys d) → NoDup (dict_keys (dict_set k v d)).
Proof.
  unfold dict_keys. induction d as [|[k' v'] d IH]; simpl; intros Hd.
  - apply NoDup_singleton.
  - apply NoDup_cons in Hd as [Hk' Hd].
    destruct (decide (k = k')) as [->|Hne]; simpl.
    + by apply NoDup_cons.
    + apply NoDup_cons. split; [|by apply IH].
      intros Hin. apply (dict_keys_set_elem k k' v d) in Hin as [->|Hin]; done.
Qed.

Lemma dict_get_elem k v d : dict_get k d = Some v → (k, v) ∈ d.
Proof.
  induction d as [|[k' v'] d IH]; simpl; [done|].
  destruct (decide (k = k')) as [->|Hne].
  - intros [= ->]. apply list_elem_of_here.
  - intros H. apply list_elem_of_further. auto.
Qed.

Lemma dict_mem_true k d : dict_mem k d = true ↔ is_Some (dict_get k d).
Proof. unfold dict_mem. apply bool_decide_eq_true. Qed.

End dict_facts.

(** ** Standings order *)

Section string_order.

Lemma ascii_compare_refl (a : Ascii.ascii) : Ascii.compare a a = Eq.
Proof. apply N.compare_refl. Qed.

Lemma ascii_compare_lt_trans (a b c : Ascii.ascii) :
  Ascii.compare a b = Lt → Ascii.compare b c = Lt → Ascii.compare a c = Lt.
Proof.
  unfold Ascii.compare. rewrite !N.compare_lt_iff. apply N.lt_trans.
Qed.

Lemma string_compare_lt_trans (s1 s2 s3 : string) :
  String.compare s1 s2 = Lt → String.compare s2 s3 = Lt →
  String.compare s1 s3 = Lt.
Proof.
  revert s2 s3.
  induction s1 as [|a s1 IH]; intros [|b s2] [|c s3]; simpl; try done.
  destruct (Ascii.compare a b) eqn:Hab; try done;
    destruct (Ascii.compare b c) eqn:Hbc; try done; intros H1 H2.
  - apply Ascii.compare_eq_iff in Hab, Hbc. subst.
    rewrite ascii_compare_refl. by eapply IH.
  - apply Ascii.compare_eq_iff in Hab. subst. by rewrite Hbc.
  - apply Ascii.compare_eq_iff in Hbc. subst. by rewrite Hab.
  - by rewrite (ascii_compare_lt_trans a b c).
Qed.

Lemma string_ltb_leb (s1 s2 : string) :
  String.ltb s2 s1 = false ↔ String.leb s1 s2 = true.
Proof.
  unfold String.ltb, String.leb. rewrite (String.compare_antisym s1 s2).
  destruct (String.compare s2 s1); simpl; split; done.
Qed.

Lemma string_ltb_asym (s1 s2 : string) :
  String.ltb s1 s2 = true → String.ltb s2 s1 = false.
Proof.
  unfold String.ltb. rewrite (String.compare_antisym s1 s2).
  destruct (String.compare s2 s1); simpl; done.
Qed.

(** "Not greater" is transitive. *)
Lemma string_not_gt_trans (s1 s2 s3 : string) :
  String.ltb s2 s1 = false → String.ltb s3 s2 = false →
  String.ltb s3 s1 = false.
Proof.
  unfold String.ltb. intros H12 H23.
  destruct (String.compare s3 s1) eqn:H31; try done.
  destruct (String.compare s2 s1) eqn:H21; try done.
  - apply String.compare_eq_iff in H21. subst. by rewrite H31 in H23.
  - rewrite String.compare_antisym in H21.
    destruct (String.compare s1 s2) eqn:H12'; try done.
    by rewrite (string_compare_lt_trans s3 s1 s2) in H23.
Qed.

End string_order.

Section key_order.
Import Standings.

(** [key_lt] is the lexicographic order of the triples. *)
Lemma key_lt_spec (a b : Z * Z * string) :
  key_lt a b = true ↔
  a.1.1 < b.1.1
  ∨ (a.1.1 = b.1.1
     ∧ (a.1.2 < b.1.2 ∨ (a.1.2 = b.1.2 ∧ String.ltb a.2 b.2 = true))).
Proof.
  destruct a as [[a1 a2] a3], b as [[b1 b2] b3]; simpl.
  destruct (Z.eqb_spec a1 b1); simpl; [|rewrite Z.ltb_lt; lia].
  destruct (Z.eqb_spec a2 b2); simpl; [|rewrite Z.ltb_lt; lia].
  split; [auto|]. intros [|[_ [|[_ ?]]]]; [lia..|done].
Qed.

(** The same for "not greater". *)
Lemma key_not_gt_spec (a b : Z * Z * string) :
  key_lt b a = false ↔
  a.1.1 < b.1.1
  ∨ (a.1.1 = b.1.1
     ∧ (a.1.2 < b.1.2 ∨ (a.1.2 = b.1.2 ∧ String.leb a.2 b.2 = true))).
Proof.
  rewrite <- string_ltb_leb.
  destruct a as [[a1 a2] a3], b as [[b1 b2] b3]; simpl.
  destruct (Z.eqb_spec b1 a1); simpl; [|rewrite Z.ltb_ge; lia].
  destruct (Z.eqb_spec b2 a2); simpl; [|rewrite Z.ltb_ge; lia].
  split; [auto|]. intros [|[_ [|[_ ?]]]]; [lia..|done].
Qed.

Lemma key_lt_asym (a b : Z * Z * string) :
  key_lt a b = true → key_lt b a = false.
Proof.
  rewrite key_lt_spec, key_not_gt_spec, <- string_ltb_leb.
  intros [|[? [|[? ?]]]]; auto 6 using string_ltb_asym with lia.
Qed.

Lemma key_not_gt_trans (a b c : Z * Z * string) :
  key_lt b a = false → key_lt c b = false → key_lt c a = false.
Proof.
  rewrite !key_not_gt_spec, <- !string_ltb_leb.
  intros [|[? [|[? H1]]]] [|[? [|[? H2]]]]; try lia;
    try (right; split; [lia|]; left; lia).
  right. split; [lia|]. right. split; [lia|].
  by eapply string_not_gt_trans.
Qed.

Context {A : Type} (key : A → Z * Z * string).

(** [x] is not after [y] in the order of the keys. *)
Definition not_after (x y : A) : Prop := key_lt (key y) (key x) = false.

Lemma insert_by_key_Permutation (x : A) (l : list A) :
  insert_by_key key x l ≡ₚ x :: l.
Proof.
  induction l as [|y l IH]; simpl; [done|].
  destruct (key_lt (key x) (key y)); [done|].
  rewrite IH. apply Permutation_swap.
Qed.

Lemma sort_by_key_Permutation (l : list A) : sort_by_key key l ≡ₚ l.
Proof.
  unfold sort_by_key.
  assert (G : ∀ acc, foldl (λ sorted x, insert_by_key key x sorted) acc l
                     ≡ₚ l ++ acc).
  { induction l as [|x l IH]; intros acc; simpl; [done|].
    rewrite IH, insert_by_key_Permutation. by rewrite Permutation_middle. }
  rewrite G. by rewrite app_nil_r.
Qed.

Lemma insert_by_key_sorted (x : A) (l : list A) :
  StronglySorted not_after l → StronglySorted not_after (insert_by_key key x l).
Proof.
  induction 1 as [|y l Hl IH Hy]; simpl.
  - repeat constructor.
  - destruct (key_lt (key x) (key y)) eqn:Hxy.
    + constructor; [by constructor|]. constructor.
      * by apply key_lt_asym.
      * eapply Forall_impl; [exact Hy|]. intros z Hz. unfold not_after in *.
        eapply key_not_gt_trans; [|exact Hz]. by apply key_lt_asym.
    + constructor; [done|].
      rewrite insert_by_key_Permutation. by constructor.
Qed.

Lemma sort_by_key_sorted (l : list A) :
  StronglySorted not_after (sort_by_key key l).
Proof.
  unfold sort_by_key.
  assert (G : ∀ acc, StronglySorted not_after acc →
                     StronglySorted not_after
                       (foldl (λ sorted x, insert_by_key key x sorted) acc l)).
  { induction l as [|x l IH]; intros acc Hacc; simpl; [done|].
    by apply IH, insert_by_key_sorted. }
  apply G. constructor.
Qed.

End key_order.

(** ** Standings *)

Section standings_facts.
Import Standings.

(** The tracker refuses a winner that is none of the two players before
    it writes anything. *)
Lemma record_match_foreign_winner m a b w rt now (t : MatchTracker.MatchTracker) :
  w ≠ a → w ≠ b →
  ∃ msg, MatchTracker.record_match m a b (Some w) rt now t
         = (t, Raised (ValueError msg)).
Proof.
  intros Ha Hb. unfold MatchTracker.record_match.
  rewrite bool_decide_eq_true_2; [eauto|].
  repeat split; congruence.
Qed.

(** A winner that is absent or one of the two players is accepted. *)
Lemma record_match_returns m a b w rt now (t : MatchTracker.MatchTracker) :
  (w = None ∨ w = Some a ∨ w = Some b) →
  (MatchTracker.record_match m a b w rt now t).2 = Returned ().
Proof.
  intros Hw. unfold MatchTracker.record_match.
  rewrite bool_decide_eq_false_2; [done|].
  intros (? & ? & ?). destruct Hw as [|[|]]; done.
Qed.

(** [get_standings] leaves every object under its key and only writes
    its rank. *)
Lemma get_standings_stored (c : StandingsCalculator) k p' :
  (k, p') ∈ players (get_standings c).1 →
  ∃ p r, (k, p) ∈ players c ∧ p' = set_rank r p.
Proof.
  unfold get_standings; simpl. intros Hin.
  apply list_elem_of_fmap in Hin as [[k0 p0] [Heq Hin]]; simpl in Heq.
  injection Heq as -> ->.
  destruct (dict_get k0 _) as [v|] eqn:Hget; simpl.
  - apply dict_get_elem in Hget. unfold assign_ranks in Hget.
    apply list_elem_of_lookup in Hget as [i Hi].
    rewrite list_lookup_imap in Hi.
    destruct (sort_by_key _ _ !! i) as [[k1 p1]|] eqn:Hs; simpl in Hi; [|done].
    simplify_eq. exists p1, (Z.of_nat i + 1). split; [|done].
    apply list_elem_of_lookup_2 in Hs.
    by rewrite sort_by_key_Permutation in Hs.
  - exists p0, (rank p0). split; [done|]. by destruct p0.
Qed.

Lemma get_standings_keys (c : StandingsCalculator) :
  dict_keys (players (get_standings c).1) = dict_keys (players c).
Proof.
  unfold get_standings, dict_keys; simpl.
  rewrite <- list_fmap_compose. by apply list_fmap_ext.
Qed.

End standings_facts.

(** C10: [record_match_result] with a player id that was not added raises
    a [KeyError]; with both players known and a winner that is neither of
    them nor [None] it raises a [ValueError]; in both cases the calculator
    it leaves behind (standings, head-to-head records, tracker entries) is
    the one it was called on. *)
Theorem C10_record_match_result_atomic_on_error
    (c : Standings.StandingsCalculator) (match_id a b : string)
    (winner : option string) (now : string) :
  (dict_get a (Standings.players c) = None
   ∨ dict_get b (Standings.players c) = None
   ∨ ∃ w, winner = Some w ∧ w ≠ a ∧ w ≠ b) →
  ∃ msg,
    Standings.record_match_result match_id a b winner now c
    = (c, Raised (if decide (dict_get a (Standings.players c) = None
                             ∨ dict_get b (Standings.players c) = None)
                  then KeyError msg else ValueError msg)).
Proof.
  intros H. unfold Standings.record_match_result, dict_mem.
  destruct (dict_get a (Standings.players c)) as [pa|] eqn:Ha.
  2:{ rewrite bool_decide_eq_false_2 by (by intros [? ?]); simpl.
      eexists. try rewrite decide_True by auto. reflexivity. }
  rewrite bool_decide_eq_true_2 by eauto; simpl.
  destruct (dict_get b (Standings.players c)) as [pb|] eqn:Hb.
  2:{ rewrite bool_decide_eq_false_2 by (by intros [? ?]); simpl.
      eexists. try rewrite decide_True by auto. reflexivity. }
  rewrite bool_decide_eq_true_2 by eauto; simpl.
  destruct H as [H|[H|(w & -> & Hwa & Hwb)]]; [done..|].
  destruct (record_match_foreign_winner match_id a b w "WIN" now
              (Standings.match_tracker c) Hwa Hwb) as [msg ->].
  exists msg. try rewrite decide_False by (intros [|]; done). by destruct c.
Qed.

Lemma C10_record_match_result_atomic_on_error_witness :
  ∃ msg,
    Standings.record_match_result "M1" "P01" "P02" (Some "P03") ""
      (Standings.run DemoStandings.two_players)
    = (Standings.run DemoStandings.two_players,
       Raised (if decide (dict_get "P01"
                            (Standings.players
                               (Standings.run DemoStandings.two_players))
                          = None
                          ∨ dict_get "P02"
                              (Standings.players
                                 (Standings.run DemoStandings.two_players))
                            = None)
               then KeyError msg else ValueError msg)).
Proof.
  apply (C10_record_match_result_atomic_on_error
           (Standings.run DemoStandings.two_players) "M1" "P01" "P02"
           (Some "P03") "").
  right; right. exists "P03". repeat split; discriminate.
Defined.

Section standings_invariant.
Import Standings.

(** The standing stored under a key has [points = 3 * wins + ties]. *)
Definition consistent (kp : string * PlayerStanding) : Prop :=
  points kp.2 = 3 * wins kp.2 + ties kp.2.

Ltac preserve_consistent :=
  repeat (apply dict_alter_Forall;
          [intros ? ?; unfold consistent; simpl; lia|]).

Lemma after_consistent (k : call) (c : StandingsCalculator) :
  Forall consistent (players c) → Forall consistent (players (after k c)).
Proof.
  intros Hc. destruct k as [id name|m a b w now|]; [simpl..|].
  - apply dict_set_Forall; [reflexivity|done].
  - unfold record_match_result.
    destruct (dict_mem a (players c)); simpl; [|done].
    destruct (dict_mem b (players c)); simpl; [|done].
    destruct (MatchTracker.record_match m a b w "WIN" now (match_tracker c))
      as [t [[]|e]]; simpl; [|done].
    destruct w as [w|]; [destruct (decide (w = a))|];
      rewrite !dict_alter_compose; by preserve_consistent.
  - unfold after. apply Forall_forall. intros [id p'] Hin.
    apply get_standings_stored in Hin as (p & r & Hin & ->).
    rewrite Forall_forall in Hc. apply (Hc _ Hin).
Qed.

Lemma run_consistent (calls : list call) :
  Forall consistent (players (run calls)).
Proof.
  unfold run. induction calls as [|k calls IH] using rev_ind; simpl.
  - constructor.
  - rewrite foldl_app; simpl. by apply after_consistent.
Qed.

Ltac through_alters :=
  repeat first [ rewrite dict_get_alter_eq
               | rewrite dict_get_alter_ne by congruence ].

(** A call that returns adds one to [matches_played] of either player
    when they are two, and two when both ids are the same. *)
Lemma record_match_result_played m a b w now (c : StandingsCalculator) :
  (record_match_result m a b w now c).2 = Returned () →
  let c' := (record_match_result m a b w now c).1 in
  (a ≠ b → played a c' = played a c + 1 ∧ played b c' = played b c + 1)
  ∧ (a = b → played a c' = played a c + 2).
Proof.
  unfold record_match_result, dict_mem, played.
  destruct (dict_get a (players c)) as [pa|] eqn:Ha; simpl.
  2:{ try rewrite bool_decide_eq_false_2 by (by intros [? ?]). done. }
  try rewrite bool_decide_eq_true_2 by eauto; simpl.
  destruct (dict_get b (players c)) as [pb|] eqn:Hb; simpl.
  2:{ try rewrite bool_decide_eq_false_2 by (by intros [? ?]). done. }
  try rewrite bool_decide_eq_true_2 by eauto; simpl.
  destruct (MatchTracker.record_match m a b w "WIN" now (match_tracker c))
    as [t [[]|e]]; simpl; [|done].
  intros _. split.
  - intros Hab.
    destruct w as [w|]; [destruct (decide (w = a))|]; simpl;
      through_alters; rewrite Ha, Hb; simpl; split; lia.
  - intros <-.
    destruct w as [w|]; [destruct (decide (w = a))|]; simpl;
      through_alters; rewrite Ha; simpl; lia.
Qed.

(** A call that returns leaves [matches_played] of every other player
    as it was. *)
Lemma record_match_result_others m a b w now (c : StandingsCalculator)
    (id : string) :
  (record_match_result m a b w now c).2 = Returned () →
  id ≠ a → id ≠ b →
  played id (record_match_result m a b w now c).1 = played id c.
Proof.
  unfold record_match_result, played.
  destruct (dict_mem a (players c)); simpl; [|done].
  destruct (dict_mem b (players c)); simpl; [|done].
  destruct (MatchTracker.record_match m a b w "WIN" now (match_tracker c))
    as [t [[]|e]]; simpl; [|done].
  intros _ Ha Hb.
  destruct w as [w|]; [destruct (decide (w = a))|]; simpl;
    through_alters; done.
Qed.

End standings_invariant.

(** C7: after every sequence of [add_player] and [record_match_result]
    calls every stored standing has [points = 3 * wins + ties]; a
    [record_match_result] between two players that returns keeps this
    for every stored standing and adds exactly 1 to [matches_played] of
    each of the two named players, leaving [matches_played] of every
    other player as it was. *)
Theorem C7_points_and_matches_played (c : Standings.StandingsCalculator) :
  Standings.reachable c →
  (∀ id p, dict_get id (Standings.players c) = Some p →
     Standings.points p = 3 * Standings.wins p + Standings.ties p)
  ∧ (∀ m a b w now,
       a ≠ b →
       (Standings.record_match_result m a b w now c).2 = Returned () →
       let c' := (Standings.record_match_result m a b w now c).1 in
       (∀ id p, dict_get id (Standings.players c') = Some p →
          Standings.points p = 3 * Standings.wins p + Standings.ties p)
       ∧ Standings.played a c' = Standings.played a c + 1
       ∧ Standings.played b c' = Standings.played b c + 1
       ∧ (∀ id, id ≠ a → id ≠ b →
            Standings.played id c' = Standings.played id c)).
Proof.
  intros [calls ->]. split.
  - intros id p Hp. apply dict_get_elem in Hp.
    pose proof (run_consistent calls) as Hall.
    rewrite Forall_forall in Hall. apply (Hall _ Hp).
  - intros m a b w now Hab Hret.
    pose proof (proj1 (record_match_result_played m a b w now _ Hret) Hab)
      as [Hpa Hpb].
    split; [|split; [exact Hpa|split; [exact Hpb|]]].
    + intros id p Hp. apply dict_get_elem in Hp.
      pose proof (after_consistent (Standings.RecordMatchResult m a b w now) _
                    (run_consistent calls)) as Hall.
      rewrite Forall_forall in Hall. apply (Hall _ Hp).
    + intros id Ha Hb. by apply record_match_result_others.
Qed.

Lemma C7_points_and_matches_played_witness :
  Standings.reachable (Standings.run DemoStandings.two_players)
  ∧ Standings.played "P01"
      (Standings.record_match_result "M1" "P01" "P02" (Some "P01") ""
         (Standings.run DemoStandings.two_players)).1
    = Standings.played "P01" (Standings.run DemoStandings.two_players) + 1.
Proof.
  assert (R : Standings.reachable (Standings.run DemoStandings.two_players)).
  { exists DemoStandings.two_players. reflexivity. }
  split; [exact R|].
  refine (proj1 (proj2 (proj2
            (C7_points_and_matches_played _ R) "M1" "P01" "P02"
            (Some "P01") "" _ _))).
  - discriminate.
  - reflexivity.
Defined.

Section standings_refinement.
Import Standings.

(** Every object is stored under its own id, and no id twice. *)
Definition well_keyed (c : StandingsCalculator) : Prop :=
  NoDup (dict_keys (players c))
  ∧ Forall (λ kp, player_id kp.2 = kp.1) (players c).

Lemma after_well_keyed (k : call) (c : StandingsCalculator) :
  well_keyed c → well_keyed (after k c).
Proof.
  intros [Hnd Hid]. destruct k as [id name|m a b w now|]; [simpl..|].
  - split; [by apply dict_set_NoDup|]. by apply dict_set_Forall.
  - unfold record_match_result.
    destruct (dict_mem a (players c)); simpl; [|done].
    destruct (dict_mem b (players c)); simpl; [|done].
    destruct (MatchTracker.record_match m a b w "WIN" now (match_tracker c))
      as [t [[]|e]]; simpl; [|done].
    destruct w as [w|]; [destruct (decide (w = a))|]; split; simpl;
      rewrite ?dict_keys_alter; try done;
      repeat (apply dict_alter_Forall; [intros ? ? ?; simpl in *; done|]);
      done.
  - unfold well_keyed, after. split; [by rewrite get_standings_keys|].
    apply Forall_forall. intros [id p'] Hin.
    apply get_standings_stored in Hin as (p & r & Hin & ->).
    rewrite Forall_forall in Hid. apply (Hid _ Hin).
Qed.

Lemma reachable_well_keyed (c : StandingsCalculator) :
  reachable c → well_keyed c.
Proof.
  intros [calls ->]. unfold run.
  induction calls as [|k calls IH] using rev_ind; simpl.
  - split; constructor.
  - rewrite foldl_app; simpl. by apply after_well_keyed.
Qed.

Lemma well_keyed_ids (c : StandingsCalculator) :
  well_keyed c → NoDup (player_id <$> dict_values (players c)).
Proof.
  intros [Hnd Hid].
  replace (player_id <$> dict_values (players c)) with (dict_keys (players c));
    [done|].
  unfold dict_keys, dict_values. clear Hnd.
  induction Hid as [|[k p] d Hk Hd IH]; [done|].
  rewrite !fmap_cons. simpl in *. by f_equal.
Qed.

(** The dict comprehension holds, under a player's id, the value computed
    for that player. *)
Lemma foldl_insert_other (f : PlayerStanding → Z) (l : list PlayerStanding)
    (m : gmap string Z) (id : string) :
  id ∉ player_id <$> l →
  foldl (λ m p, <[player_id p := f p]> m) m l !! id = m !! id.
Proof.
  revert m. induction l as [|x l IH]; intros m Hid; simpl; [done|].
  rewrite fmap_cons, not_elem_of_cons in Hid. destruct Hid as [Hx Hl].
  rewrite IH by done. by rewrite lookup_insert_ne.
Qed.

Lemma foldl_insert_lookup (f : PlayerStanding → Z) (l : list PlayerStanding)
    (m : gmap string Z) (p : PlayerStanding) :
  NoDup (player_id <$> l) → p ∈ l →
  foldl (λ m p, <[player_id p := f p]> m) m l !! player_id p = Some (f p).
Proof.
  revert m. induction l as [|x l IH]; intros m Hnd Hp; simpl.
  - by apply elem_of_nil in Hp.
  - rewrite fmap_cons in Hnd. apply NoDup_cons in Hnd as [Hx Hnd].
    apply elem_of_cons in Hp as [->|Hin]; [|by apply IH].
    rewrite foldl_insert_other by done. by rewrite lookup_insert_eq.
Qed.

Lemma tiebreaker_values_lookup t (l : list PlayerStanding) p :
  NoDup (player_id <$> l) → p ∈ l →
  tiebreaker_values t l !! player_id p = Some (_get_tiebreaker_value t p l).
Proof. intros. unfold tiebreaker_values. by apply foldl_insert_lookup. Qed.

(** On the recorded outcomes the code's two tests and the rule's three
    cases agree. *)
Lemma head_to_head_value (r : option string) :
  (if decide (r = Some "W") then 0
   else if decide (r = Some "L") then 1 else 0)
  = match r with Some "W" => 0 | Some "L" => 1 | _ => 0 end.
Proof.
  destruct r as [s|]; [|done].
  destruct (decide (s = "W")) as [->|HW]; [done|].
  destruct (decide (s = "L")) as [->|HL]; [done|].
  rewrite decide_False by congruence. rewrite decide_False by congruence.
  destruct s as [|[[] [] [] [] [] [] [] []] [|? ?]]; done.
Qed.

(** The code's tiebreak value is the one the rule describes. *)
Lemma _get_tiebreaker_value_spec t p (all : list PlayerStanding) :
  _get_tiebreaker_value t p all = tiebreak_value_spec t p all.
Proof.
  unfold _get_tiebreaker_value, tiebreak_value_spec, sharing_points,
    MatchTracker.get_head_to_head.
  rewrite (list_filter_iff _
             (λ q, player_id q ≠ player_id p ∧ points q = points p))
    by (intros q; tauto).
  destruct (filter _ all) as [|q [|q' rest]]; simpl; try done.
  apply head_to_head_value.
Qed.

Lemma filter_ext_Forall {A} (P1 P2 : A → Prop)
    `{∀ x, Decision (P1 x)} `{∀ x, Decision (P2 x)} (l : list A) :
  Forall (λ x, P1 x ↔ P2 x) l → filter P1 l = filter P2 l.
Proof.
  induction 1 as [|x l Hx Hl IH]; [done|].
  rewrite !filter_cons, IH.
  destruct (decide (P1 x)), (decide (P2 x)); tauto.
Qed.

(** The players on [p]'s point total are [p] and those sharing it. *)
Lemma on_total_count (l : list PlayerStanding) (p : PlayerStanding) :
  NoDup (player_id <$> l) → p ∈ l →
  length (filter (λ q, points q = points p) l)
  = S (length (sharing_points p l)).
Proof.
  unfold sharing_points. induction l as [|x l IH]; intros Hnd Hp.
  - by apply elem_of_nil in Hp.
  - rewrite fmap_cons in Hnd. apply NoDup_cons in Hnd as [Hx Hnd].
    rewrite !filter_cons.
    apply elem_of_cons in Hp as [->|Hin]; [clear IH|].
    2:{ assert (player_id x ≠ player_id p).
      { intros Heq. apply Hx. rewrite Heq.
        apply list_elem_of_fmap. eauto. }
      specialize (IH Hnd Hin).
      destruct (decide (points x = points p)).
      - rewrite decide_True by done. simpl. by rewrite IH.
      - rewrite decide_False by tauto. done. }
    rewrite decide_True by done. rewrite decide_False by tauto. simpl.
    f_equal. f_equal. apply filter_ext_Forall.
    apply Forall_forall. intros q Hq. split; [|tauto].
    intros Hpts. split; [|done]. intros Heq. apply Hx. rewrite <- Heq.
    apply list_elem_of_fmap. eauto.
Qed.

(** Players on the same total have equally many players sharing it. *)
Lemma sharing_points_same_total (l : list PlayerStanding) p q :
  NoDup (player_id <$> l) → p ∈ l → q ∈ l → points p = points q →
  length (sharing_points q l) = length (sharing_points p l).
Proof.
  intros Hnd Hp Hq Hpq.
  pose proof (on_total_count l p Hnd Hp) as H1.
  pose proof (on_total_count l q Hnd Hq) as H2.
  rewrite <- Hpq in H2. lia.
Qed.

(** With two or more others on the same total the value is 0. *)
Lemma tiebreak_value_spec_many t p (all : list PlayerStanding) :
  (2 ≤ length (sharing_points p all))%nat → tiebreak_value_spec t p all = 0.
Proof.
  unfold tiebreak_value_spec.
  destruct (sharing_points p all) as [|q [|q' rest]]; simpl; [lia..|done].
Qed.

End standings_refinement.

Section get_standings_facts.
Import Standings.

Lemma StronglySorted_impl_elem {A} (R R' : relation A) (l : list A) :
  (∀ x y, x ∈ l → y ∈ l → R x y → R' x y) →
  StronglySorted R l → StronglySorted R' l.
Proof.
  intros Himpl Hl. induction Hl as [|x l Hl IH Hx]; constructor.
  - apply IH. intros y z Hy Hz. apply Himpl; by apply list_elem_of_further.
  - rewrite Forall_forall in Hx. apply Forall_forall. intros y Hy.
    apply Himpl; [apply list_elem_of_here|by apply list_elem_of_further|].
    by apply Hx.
Qed.

Lemma StronglySorted_lookup {A} (R : relation A) (l : list A) i j x y :
  StronglySorted R l → (i < j)%nat →
  l !! i = Some x → l !! j = Some y → R x y.
Proof.
  intros Hl. revert i j. induction Hl as [|z l Hl IH Hz]; intros i j Hij.
  - done.
  - destruct j as [|j]; [lia|]. destruct i as [|i]; simpl.
    + intros [= ->] Hy. rewrite Forall_forall in Hz.
      apply Hz. by eapply list_elem_of_lookup_2.
    + apply IH. lia.
Qed.

(** The list [get_standings] returns: the stored objects in the order of
    the sort, each with its position plus one as rank. *)
Lemma get_standings_result (c : StandingsCalculator) :
  (get_standings c).2
  = imap (λ i p, set_rank (Z.of_nat i + 1) p)
      (sort_by_key
         (λ kp, sort_key
                  (tiebreaker_values (match_tracker c)
                     (dict_values (players c))) kp.2)
         (players c)).*2.
Proof.
  unfold get_standings, assign_ranks, dict_values; simpl.
  rewrite fmap_imap, imap_fmap. by apply imap_ext.
Qed.

(** On the stored players the order of the sort keys is the order of
    [(-points, tiebreak_value, player_id)]. *)
Lemma sort_key_order t (all : list PlayerStanding) (p q : PlayerStanding) :
  NoDup (player_id <$> all) → p ∈ all → q ∈ all →
  not_after (sort_key (tiebreaker_values t all)) p q →
  key_le_spec t all p q.
Proof.
  intros Hnd Hp Hq. unfold not_after, sort_key, key_le_spec.
  rewrite key_not_gt_spec; simpl.
  rewrite !tiebreaker_values_lookup by done; simpl.
  rewrite !_get_tiebreaker_value_spec.
  intros [|[? [|[? ?]]]];
    [left; lia | right; split; [lia|]; left; lia
    | right; split; [lia|]; right; split; [lia|done]].
Qed.

End get_standings_facts.

(** C6: in a calculator built by [add_player] and [record_match_result]
    calls, [get_standings] returns the stored players sorted ascending by
    [(-points, tiebreak_value, player_id)], the player at index [i] with
    rank [i + 1].  The tiebreak value the code computes is the one the
    rule gives: 0 unless exactly one other player shares the point total,
    then 0 after a won, 1 after a lost head-to-head and 0 when they tied or
    never played.  With two or more others on the same total it is 0, and
    players on that total are listed in the order of their ids.  The
    entry at index [i] of the returned list has [rank = i + 1] and every
    other field as the stored player at index [i] of the sorted order;
    the returned list is as long as there are stored players. *)
Theorem C6_get_standings_sorted_and_ranked
    (c : Standings.StandingsCalculator) :
  Standings.reachable c →
  let all := dict_values (Standings.players c) in
  let t := Standings.match_tracker c in
  ∃ sorted : list Standings.PlayerStanding,
    sorted ≡ₚ all
    ∧ StronglySorted (Standings.key_le_spec t all) sorted
    ∧ (Standings.get_standings c).2
      = imap (λ i p, Standings.set_rank (Z.of_nat i + 1) p) sorted
    ∧ (∀ p, Standings._get_tiebreaker_value t p all
            = Standings.tiebreak_value_spec t p all)
    ∧ (∀ p, (2 ≤ length (Standings.sharing_points p all))%nat →
            Standings.tiebreak_value_spec t p all = 0)
    ∧ (∀ i j p q,
         (i < j)%nat → sorted !! i = Some p → sorted !! j = Some q →
         Standings.points p = Standings.points q →
         (2 ≤ length (Standings.sharing_points p all))%nat →
         String.leb (Standings.player_id p) (Standings.player_id q) = true)
    ∧ length (Standings.get_standings c).2 = length all
    ∧ (∀ i q,
         sorted !! i = Some q →
         ∃ p, (Standings.get_standings c).2 !! i = Some p
              ∧ Standings.rank p = Z.of_nat i + 1
              ∧ Standings.player_id p = Standings.player_id q
              ∧ Standings.display_name p = Standings.display_name q
              ∧ Standings.wins p = Standings.wins q
              ∧ Standings.losses p = Standings.losses q
              ∧ Standings.ties p = Standings.ties q
              ∧ Standings.points p = Standings.points q
              ∧ Standings.matches_played p = Standings.matches_played q).
Proof.
  intros Hreach all t.
  pose proof (well_keyed_ids c (reachable_well_keyed c Hreach)) as Hnd.
  fold all in Hnd.
  set (key := λ kp : string * Standings.PlayerStanding,
         Standings.sort_key (Standings.tiebreaker_values t all) kp.2).
  set (items := Standings.sort_by_key key (Standings.players c)).
  assert (Hperm : items.*2 ≡ₚ all).
  { unfold items, all, dict_values.
    by rewrite (sort_by_key_Permutation key (Standings.players c)). }
  assert (Hsorted : StronglySorted (Standings.key_le_spec t all) items.*2).
  { apply (StronglySorted_impl_elem
             (not_after (Standings.sort_key (Standings.tiebreaker_values t all)))).
    - intros p q Hp Hq. rewrite Hperm in Hp, Hq. by apply sort_key_order.
    - apply (StronglySorted_fmap snd (not_after key)); [done|].
      apply sort_by_key_sorted. }
  exists items.*2. split; [done|]. split; [done|].
  split; [apply get_standings_result|].
  split; [intros p; apply _get_tiebreaker_value_spec|].
  split; [intros p; apply tiebreak_value_spec_many|].
  assert (Hres : (Standings.get_standings c).2
                 = imap (λ i p, Standings.set_rank (Z.of_nat i + 1) p)
                     items.*2) by apply get_standings_result.
  split; [|split].
  - intros i j p q Hij Hi Hj Hpts Hmany.
    assert (Hp : p ∈ all)
      by (rewrite <- Hperm; by eapply list_elem_of_lookup_2).
    assert (Hq : q ∈ all)
      by (rewrite <- Hperm; by eapply list_elem_of_lookup_2).
    pose proof (StronglySorted_lookup _ _ i j p q Hsorted Hij Hi Hj) as Hle.
    pose proof (sharing_points_same_total all p q Hnd Hp Hq Hpts) as Hlen.
    unfold Standings.key_le_spec in Hle.
    rewrite !tiebreak_value_spec_many in Hle by lia.
    destruct Hle as [|[_ [|[_ ?]]]]; [lia..|done].
  - rewrite Hres, length_imap. by rewrite Hperm.
  - intros i q Hq. rewrite Hres, list_lookup_imap, Hq.
    eexists. split; [reflexivity|]. by destruct q.
Qed.

Lemma C6_get_standings_sorted_and_ranked_witness :
  Standings.reachable (Standings.run DemoStandings.two_players)
  ∧ ∃ sorted : list Standings.PlayerStanding,
      sorted ≡ₚ dict_values
                  (Standings.players
                     (Standings.run DemoStandings.two_players))
      ∧ (Standings.get_standings
           (Standings.run DemoStandings.two_players)).2
        = imap (λ i p, Standings.set_rank (Z.of_nat i + 1) p) sorted.
Proof.
  assert (R : Standings.reachable (Standings.run DemoStandings.two_players)).
  { exists DemoStandings.two_players. reflexivity. }
  split; [exact R|].
  destruct (C6_get_standings_sorted_and_ranked _ R)
    as (sorted & Hperm & _ & Hres & _).
  exists sorted. split; [exact Hperm|exact Hres].
Defined.

(** ** Broadcast *)

Section broadcast_facts.
Import Broadcast.

(** Once an id is on the failed list with an error, it stays there. *)
Lemma process_result_keeps (report : DeliveryReport)
    (ar : Agent * task_result) (id : string) :
  id ∈ failed_agents report ∧ is_Some (errors report !! id) →
  id ∈ failed_agents (process_result report ar)
  ∧ is_Some (errors (process_result report ar) !! id).
Proof.
  intros [Hin Herr]. destruct ar as [agent [[]|e]]; simpl; try done.
  all: split; [apply elem_of_app; by left|].
  all: rewrite lookup_insert; case_decide; eauto.
Qed.

Lemma process_results_keeps (pairs : list (Agent * task_result))
    (report : DeliveryReport) (id : string) :
  id ∈ failed_agents report ∧ is_Some (errors report !! id) →
  id ∈ failed_agents (foldl process_result report pairs)
  ∧ is_Some (errors (foldl process_result report pairs) !! id).
Proof.
  revert report. induction pairs as [|ar pairs IH]; intros report H; simpl.
  - done.
  - by apply IH, process_result_keeps.
Qed.

(** A result that is not [True] puts the id on the failed list. *)
Lemma process_result_records (report : DeliveryReport) (agent : Agent)
    (result : task_result) :
  result ≠ Returned true →
  _get_agent_id agent ∈ failed_agents (process_result report (agent, result))
  ∧ is_Some (errors (process_result report (agent, result))
               !! _get_agent_id agent).
Proof.
  intros Hres. destruct result as [[]|e]; simpl; try done.
  all: split; [apply elem_of_app; right; apply list_elem_of_here|].
  all: rewrite lookup_insert_eq; eauto.
Qed.

(** The counts after the loop over the zipped pairs. *)
Lemma process_results_counts (pairs : list (Agent * task_result))
    (report : DeliveryReport) :
  let r := foldl process_result report pairs in
  total r = total report
  ∧ successful r + failed r
    = successful report + failed report + Z.of_nat (length pairs).
Proof.
  revert report. induction pairs as [|ar pairs IH]; intros report; simpl.
  - split; [done|lia].
  - destruct (IH (process_result report ar)) as [Ht Hs].
    rewrite Ht, Hs. destruct ar as [agent [[]|e]]; simpl; split; lia.
Qed.

Lemma process_results_failed (pairs : list (Agent * task_result))
    (report : DeliveryReport) (i : nat) (agent : Agent)
    (result : task_result) :
  pairs !! i = Some (agent, result) →
  result ≠ Returned true →
  let r := foldl process_result report pairs in
  _get_agent_id agent ∈ failed_agents r
  ∧ is_Some (errors r !! _get_agent_id agent).
Proof.
  revert report i. induction pairs as [|ar pairs IH]; intros report i; [done|].
  destruct i as [|i]; simpl.
  - intros [= ->] Hres.
    by apply process_results_keeps, process_result_records.
  - intros Hi Hres. by eapply IH.
Qed.

(** The counts only grow. *)
Lemma process_results_nonneg (pairs : list (Agent * task_result))
    (report : DeliveryReport) :
  let r := foldl process_result report pairs in
  (0 ≤ successful report → 0 ≤ successful r)
  ∧ (0 ≤ failed report → 0 ≤ failed r).
Proof.
  revert report. induction pairs as [|ar pairs IH]; intros report; simpl.
  - done.
  - destruct (IH (process_result report ar)) as [Hs Hf].
    destruct ar as [agent [[]|e]]; simpl in *; split; intros ?;
      (apply Hs || apply Hf); lia.
Qed.

(** When every attempt that is made raises, the loop does not end in
    [True]. *)
Lemma attempts_all_raise (max_retries : Z) (post : Z → outcome exn ())
    (remaining : nat) :
  ∀ attempt,
    0 ≤ attempt → attempt + Z.of_nat remaining ≤ max_retries + 1 →
    (∀ k, 0 ≤ k ≤ max_retries → ∃ e, post k = Raised e) →
    attempts max_retries post remaining attempt ≠ Returned true.
Proof.
  induction remaining as [|remaining IH]; intros attempt Hge Hle Hall;
    cbn [attempts]; [done|].
  destruct (Hall attempt ltac:(lia)) as [e ->].
  destruct (attempt =? max_retries); [done|].
  apply IH; [lia|lia|done].
Qed.

(** A recipient without endpoint, and one to whom every attempt raises
    (an error status, a timeout or any other exception), is not
    delivered to; neither is anyone when no attempt is made. *)
Lemma send_to_agent_fails (max_retries : Z) (post : Z → outcome exn ())
    (agent : Agent) :
  endpoint agent = None ∨ endpoint agent = Some ""
  ∨ (∀ k, 0 ≤ k ≤ max_retries → ∃ e, post k = Raised e) →
  send_to_agent max_retries post agent ≠ Returned true.
Proof.
  unfold send_to_agent, nonempty.
  intros [->|[->|Hall]]; [done|done|].
  destruct (endpoint agent) as [ep|]; [|done].
  case_decide; [done|].
  destruct (Z.to_nat (max_retries + 1)) as [|n] eqn:Hn; [done|].
  apply attempts_all_raise; [lia|lia|done].
Qed.

(** The id of a recipient: its [player_id] when that is a non-empty
    string, else its [referee_id] when that is one, else ["unknown"]. *)
Lemma _get_agent_id_cases (agent : Agent) (id : string) :
  (player_id agent = Some id ∧ id ≠ "")
  ∨ ((player_id agent = None ∨ player_id agent = Some "")
     ∧ referee_id agent = Some id ∧ id ≠ "")
  ∨ ((player_id agent = None ∨ player_id agent = Some "")
     ∧ (referee_id agent = None ∨ referee_id agent = Some "")
     ∧ id = "unknown") →
  _get_agent_id agent = id.
Proof.
  unfold _get_agent_id, nonempty.
  intros [[-> Hid]|[[Hp [-> Hid]]|[Hp [Hr ->]]]].
  - by rewrite decide_False.
  - rewrite decide_False by done. by destruct Hp as [-> | ->].
  - by destruct Hp as [-> | ->], Hr as [-> | ->].
Qed.

End broadcast_facts.

(** C9: for every recipient list, every retry bound and every way the
    attempts end, the report of a broadcast has [total] = the number of
    recipients and [successful + failed = total].  A recipient fails
    when it has no endpoint (none, or an empty one), or when every
    attempt [0 .. max_retries] to post to it raises (an error status, a
    timeout or any other exception; with a negative bound no attempt is
    made).  The id of every such recipient, which is its [player_id]
    when that is a non-empty string, else its [referee_id] when that is
    one, else ["unknown"], is in [failed_agents] and has an entry in
    [errors]. *)
Theorem C9_delivery_report_accounts_for_all
    (max_retries : Z) (network : nat → Z → outcome exn ())
    (agents : list Broadcast.Agent) :
  let report := Broadcast._broadcast_to_agents max_retries network agents in
  Broadcast.total report = Z.of_nat (length agents)
  ∧ Broadcast.successful report + Broadcast.failed report
    = Broadcast.total report
  ∧ 0 ≤ Broadcast.successful report
  ∧ 0 ≤ Broadcast.failed report
  ∧ ∀ i agent id,
      agents !! i = Some agent →
      ((Broadcast.player_id agent = Some id ∧ id ≠ "")
       ∨ ((Broadcast.player_id agent = None
           ∨ Broadcast.player_id agent = Some "")
          ∧ Broadcast.referee_id agent = Some id ∧ id ≠ "")
       ∨ ((Broadcast.player_id agent = None
           ∨ Broadcast.player_id agent = Some "")
          ∧ (Broadcast.referee_id agent = None
             ∨ Broadcast.referee_id agent = Some "")
          ∧ id = "unknown")) →
      (Broadcast.endpoint agent = None
       ∨ Broadcast.endpoint agent = Some ""
       ∨ (∀ k, 0 ≤ k ≤ max_retries → ∃ e, network i k = Raised e)) →
      id ∈ Broadcast.failed_agents report
      ∧ is_Some (Broadcast.errors report !! id).
Proof.
  unfold Broadcast._broadcast_to_agents, Broadcast.process_results.
  destruct agents as [|a0 agents0] eqn:Hagents.
  { simpl. repeat split; try done. }
  rewrite <- Hagents. clear Hagents.
  set (results := imap _ agents).
  set (report0 := Broadcast.mkReport _ 0 0 [] ∅).
  pose proof (process_results_counts (zip agents results) report0)
    as [Ht Hs].
  pose proof (process_results_nonneg (zip agents results) report0)
    as [Hs0 Hf0].
  assert (Hlen : length (zip agents results) = length agents).
  { rewrite length_zip_with. unfold results. rewrite length_imap. lia. }
  split; [by rewrite Ht|]. split; [|split; [|split]].
  - rewrite Hs, Ht, Hlen. simpl. lia.
  - by apply Hs0.
  - by apply Hf0.
  - intros i agent id Hi Hid Hfail.
    rewrite <- (_get_agent_id_cases agent id Hid).
    eapply (process_results_failed _ report0 i agent).
    + apply lookup_zip_with_Some. do 2 eexists. split; [done|].
      split; [done|]. unfold results. rewrite list_lookup_imap, Hi. done.
    + by apply send_to_agent_fails.
Qed.

(** * Further properties of the modelled code *)

(** ** Round-robin scheduler: what the greedy placement does keep *)

Section scheduler_more.
Import Scheduler.

Lemma assign_match_length (m : pairing) (rounds : list (list pairing)) :
  length (assign_match m rounds) = length rounds.
Proof.
  induction rounds as [|r rs IH]; simpl; [done|].
  destruct (both_free m r); simpl; by rewrite ?IH.
Qed.

Lemma foldl_assign_match_length (ms : list pairing)
    (rounds : list (list pairing)) :
  length (foldl (λ rounds m, assign_match m rounds) rounds ms)
  = length rounds.
Proof.
  revert rounds. induction ms as [|m ms IH]; intros rounds; simpl; [done|].
  by rewrite IH, assign_match_length.
Qed.

(** A placed match is added once, an unplaced one not at all. *)
Lemma assign_match_concat (m : pairing) (rounds : list (list pairing)) :
  concat (assign_match m rounds) ⊆+ m :: concat rounds.
Proof.
  induction rounds as [|r rs IH]; simpl.
  - apply submseteq_nil_l.
  - destruct (both_free m r); simpl.
    + rewrite <- (assoc_L (++)). simpl.
      by rewrite <- Permutation_middle.
    + rewrite (Permutation_middle r (concat rs) m).
      by apply submseteq_skips_l.
Qed.

Lemma foldl_assign_match_concat (ms : list pairing)
    (rounds : list (list pairing)) :
  concat (foldl (λ rounds m, assign_match m rounds) rounds ms)
  ⊆+ ms ++ concat rounds.
Proof.
  revert rounds. induction ms as [|m ms IH]; intros rounds; simpl; [done|].
  etrans; [apply IH|].
  rewrite (Permutation_middle ms (concat rounds) m).
  apply submseteq_skips_l, assign_match_concat.
Qed.

Lemma concat_replicate_nil {A} (n : nat) :
  concat (replicate n ([] : list A)) = [].
Proof. induction n; simpl; done. Qed.

(** Every scheduled match is one of the combinations, as often at most. *)
Lemma schedule_submseteq (ids : list string) :
  concat (create_round_robin_schedule ids) ⊆+ combinations2 ids.
Proof.
  unfold create_round_robin_schedule.
  destruct (length ids <? 2)%nat; [apply submseteq_nil_l|].
  etrans; [apply foldl_assign_match_concat|].
  by rewrite concat_replicate_nil, app_nil_r.
Qed.

Lemma combinations2_elem (ids : list string) (a b : string) :
  (a, b) ∈ combinations2 ids → a ∈ ids ∧ b ∈ ids.
Proof.
  induction ids as [|p rest IH]; simpl; [by intros ?%elem_of_nil|].
  rewrite elem_of_app, list_elem_of_fmap.
  intros [(q & [= -> ->] & Hq)|Hin].
  - split; [apply list_elem_of_here|by apply list_elem_of_further].
  - destruct (IH Hin). split; by apply list_elem_of_further.
Qed.

Lemma combinations2_NoDup (ids : list string) :
  NoDup ids → NoDup (combinations2 ids).
Proof.
  induction 1 as [|p rest Hp Hrest IH]; simpl; [constructor|].
  apply NoDup_app. split; [|split; [|done]].
  - apply NoDup_fmap_2; [|done]. by intros ?? [= ->].
  - intros [a b] (q & [= -> ->] & Hq)%list_elem_of_fmap Hin.
    by apply combinations2_elem in Hin as [? _].
Qed.

(** A pair is listed in one orientation only. *)
Lemma combinations2_oriented (ids : list string) (a b : string) :
  NoDup ids → (a, b) ∈ combinations2 ids → (b, a) ∉ combinations2 ids.
Proof.
  induction 1 as [|p rest Hp Hrest IH]; simpl; [by intros ?%elem_of_nil|].
  rewrite !elem_of_app, !list_elem_of_fmap.
  intros [(q & [= -> ->] & Hq)|Hin] [(q' & [= -> ->] & Hq')|Hin']; try done.
  - by apply combinations2_elem in Hin' as [_ ?].
  - by apply combinations2_elem in Hin as [_ ?].
  - by apply (IH Hin).
Qed.

Lemma submseteq_NoDup {A} (l k : list A) : l ⊆+ k → NoDup k → NoDup l.
Proof.
  intros [k' Hk]%submseteq_Permutation Hnd. rewrite Hk in Hnd.
  by apply NoDup_app in Hnd as [? _].
Qed.

Lemma combinations2_length (ids : list string) :
  length (combinations2 ids) = choose2 (length ids).
Proof.
  unfold choose2. induction ids as [|p rest IH]; [done|].
  cbn [combinations2 length]. rewrite length_app, length_fmap, IH.
  generalize (length rest) as n. intros n.
  replace (S n * (S n - 1))%nat with (n * 2 + n * (n - 1))%nat by nia.
  by rewrite Nat.div_add_l.
Qed.

End scheduler_more.

(** X1: the schedule of fewer than two players is empty; for [n >= 2]
    players it has [n - 1] rounds when [n] is even and [n] rounds when [n]
    is odd, whatever the ids are. *)
Theorem schedule_round_count (player_ids : list string) :
  let n := length player_ids in
  let schedule := Scheduler.create_round_robin_schedule player_ids in
  ((n < 2)%nat ∧ schedule = [])
  ∨ ((2 ≤ n)%nat ∧ Nat.Even n ∧ length schedule = (n - 1)%nat)
  ∨ ((2 ≤ n)%nat ∧ Nat.Odd n ∧ length schedule = n).
Proof.
  intros n schedule. unfold schedule, Scheduler.create_round_robin_schedule.
  fold n. destruct (n <? 2)%nat eqn:Hn.
  - left. apply Nat.ltb_lt in Hn. done.
  - right. apply Nat.ltb_ge in Hn.
    rewrite foldl_assign_match_length, length_replicate.
    unfold Scheduler.num_rounds.
    destruct (n mod 2 =? 0)%nat eqn:Hmod.
    + left. apply Nat.eqb_eq in Hmod. split; [done|]. split; [|done].
      exists (n / 2)%nat. pose proof (Nat.div_mod_eq n 2). lia.
    + right. apply Nat.eqb_neq in Hmod. split; [done|]. split; [|done].
      exists (n / 2)%nat. pose proof (Nat.div_mod_eq n 2).
      pose proof (Nat.mod_upper_bound n 2). lia.
Qed.

(** X2: with distinct player ids no round of the schedule holds a player
    twice, neither in two matches nor on both sides of one. *)
Theorem schedule_no_player_twice_in_a_round (player_ids : list string) :
  NoDup player_ids →
  ∀ round, round ∈ Scheduler.create_round_robin_schedule player_ids →
    NoDup (Scheduler.round_players round).
Proof.
  intros Hids round Hin.
  pose proof (schedule_rounds_NoDup player_ids Hids) as Hall.
  rewrite Forall_forall in Hall. by apply Hall.
Qed.

Lemma schedule_no_player_twice_in_a_round_witness :
  NoDup ["P01"; "P02"; "P03"; "P04"; "P05"; "P06"]
  ∧ ∀ round,
      round ∈ Scheduler.create_round_robin_schedule
                ["P01"; "P02"; "P03"; "P04"; "P05"; "P06"] →
      NoDup (Scheduler.round_players round).
Proof.
  assert (H : NoDup ["P01"; "P02"; "P03"; "P04"; "P05"; "P06"]).
  { refine (bool_decide_unpack (NoDup _) _). vm_compute. exact I. }
  split; [exact H|].
  exact (schedule_no_player_twice_in_a_round _ H).
Defined.

(** X3: the schedule never holds more than [C(n,2)] matches; with distinct
    player ids no match is scheduled twice, in either orientation, and
    every match is between two different players of the list. *)
Theorem schedule_never_repeats_a_pair (player_ids : list string) :
  NoDup player_ids →
  let matches := concat (Scheduler.create_round_robin_schedule player_ids) in
  (length matches ≤ Scheduler.choose2 (length player_ids))%nat
  ∧ NoDup matches
  ∧ ∀ a b, (a, b) ∈ matches →
      a ≠ b ∧ a ∈ player_ids ∧ b ∈ player_ids ∧ (b, a) ∉ matches.
Proof.
  intros Hids matches.
  pose proof (schedule_submseteq player_ids) as Hsub. fold matches in Hsub.
  split; [|split].
  - rewrite <- combinations2_length. by apply submseteq_length.
  - eapply submseteq_NoDup; [exact Hsub|]. by apply combinations2_NoDup.
  - intros a b Hab.
    assert (Hc : (a, b) ∈ Scheduler.combinations2 player_ids).
    { eapply elem_of_submseteq; [exact Hab|exact Hsub]. }
    pose proof (combinations2_elem _ _ _ Hc) as [Ha Hb].
    pose proof (combinations2_distinct _ Hids) as Hd.
    rewrite Forall_forall in Hd. specialize (Hd _ Hc). simpl in Hd.
    repeat split; try done.
    intros Hba. apply (combinations2_oriented _ _ _ Hids Hc).
    eapply elem_of_submseteq; [exact Hba|exact Hsub].
Qed.

Lemma schedule_never_repeats_a_pair_witness :
  NoDup ["P01"; "P02"; "P03"; "P04"; "P05"]
  ∧ NoDup (concat (Scheduler.create_round_robin_schedule
                     ["P01"; "P02"; "P03"; "P04"; "P05"])).
Proof.
  assert (H : NoDup ["P01"; "P02"; "P03"; "P04"; "P05"]).
  { refine (bool_decide_unpack (NoDup _) _). vm_compute. exact I. }
  split; [exact H|].
  exact (proj1 (proj2 (schedule_never_repeats_a_pair _ H))).
Defined.

(** ** Referee assignment *)

Section referee_assigner_facts.
Import RefereeAssigner.

Lemma assign_round_spec (first : Referee) (referees : list Referee)
    (idx : nat) (round_matches : list Scheduler.pairing) :
  (assign_round first referees idx round_matches).2
    = (idx + length round_matches)%nat
  ∧ players_of <$> (assign_round first referees idx round_matches).1
    = round_matches
  ∧ ∀ k a,
      (assign_round first referees idx round_matches).1 !! k = Some a →
      assigned_referee_id a
        = referee_id (default first
                        (referees !! ((idx + k) mod length referees)%nat))
      ∧ referee_endpoint a
        = endpoint (default first
                      (referees !! ((idx + k) mod length referees)%nat)).
Proof.
  revert idx. induction round_matches as [|[pa pb] rest IH]; intros idx.
  - simpl. split; [lia|]. split; [done|]. intros k a Hk. done.
  - simpl. specialize (IH (idx + 1)%nat).
    destruct (assign_round first referees (idx + 1) rest) as [data idx'].
    cbn [fst snd] in *. destruct IH as (Hidx & Hplayers & Hrefs).
    split; [lia|]. split; [by rewrite fmap_cons, Hplayers|].
    intros [|k] a Hk; cbn in Hk.
    + injection Hk as <-. cbn. by rewrite Nat.add_0_r.
    + replace (idx + S k)%nat with (idx + 1 + k)%nat by lia. by apply Hrefs.
Qed.

Lemma assign_rounds_players (first : Referee) (referees : list Referee)
    (idx : nat) (schedule : list (list Scheduler.pairing)) :
  (λ round : list Assignment, players_of <$> round)
    <$> assign_rounds first referees idx schedule
  = schedule.
Proof.
  revert idx. induction schedule as [|round rest IH]; intros idx; [done|].
  simpl. pose proof (assign_round_spec first referees idx round) as (_ & Hp & _).
  destruct (assign_round first referees idx round) as [data idx'].
  cbn [fst snd] in *. by rewrite fmap_cons, Hp, IH.
Qed.

Lemma assign_rounds_referee (first : Referee) (referees : list Referee)
    (idx : nat) (schedule : list (list Scheduler.pairing)) k a :
  concat (assign_rounds first referees idx schedule) !! k = Some a →
  assigned_referee_id a
    = referee_id (default first
                    (referees !! ((idx + k) mod length referees)%nat))
  ∧ referee_endpoint a
    = endpoint (default first
                  (referees !! ((idx + k) mod length referees)%nat)).
Proof.
  revert idx k. induction schedule as [|round rest IH]; intros idx k; [done|].
  simpl. pose proof (assign_round_spec first referees idx round)
    as (Hidx & Hp & Hrefs).
  destruct (assign_round first referees idx round) as [data idx'].
  cbn [fst snd concat] in *. intros Hk.
  assert (Hlen : length data = length round).
  { by rewrite <- Hp, length_fmap. }
  destruct (decide (k < length data)%nat) as [Hlt|Hge].
  - rewrite lookup_app_l in Hk by done. by apply Hrefs.
  - rewrite lookup_app_r in Hk by lia. apply IH in Hk.
    replace (idx + k)%nat with (idx' + (k - length data))%nat by lia. done.
Qed.

End referee_assigner_facts.

(** X4: [assign_referees_to_matches] raises [ValueError] exactly when the
    referee list is empty (also for an empty schedule); otherwise it
    returns the schedule round by round and match by match, with the two
    players of every match as they were given. *)
Theorem assign_referees_keeps_the_schedule
    (schedule : list (list Scheduler.pairing))
    (referees : list RefereeAssigner.Referee) :
  (referees = []
   ∧ RefereeAssigner.assign_referees_to_matches schedule referees
     = Raised (ValueError "No referees available"))
  ∨ (referees ≠ []
     ∧ ∃ assigned,
         RefereeAssigner.assign_referees_to_matches schedule referees
           = Returned assigned
         ∧ (λ round : list RefereeAssigner.Assignment,
              RefereeAssigner.players_of <$> round) <$> assigned
           = schedule).
Proof.
  destruct referees as [|first rest]; [by left|]. right. split; [done|].
  eexists. split; [reflexivity|]. apply assign_rounds_players.
Qed.

(** X5: the referees are handed out in turn over the whole schedule: the
    match at position [k], counting through the rounds from 0, gets the
    id and the endpoint of the referee at index [k mod len(referees)]. *)
Theorem assign_referees_takes_turns
    (schedule : list (list Scheduler.pairing))
    (referees : list RefereeAssigner.Referee)
    (assigned : list (list RefereeAssigner.Assignment)) :
  RefereeAssigner.assign_referees_to_matches schedule referees
    = Returned assigned →
  ∀ k a, concat assigned !! k = Some a →
    ∃ r, referees !! (k mod length referees)%nat = Some r
         ∧ RefereeAssigner.assigned_referee_id a
           = RefereeAssigner.referee_id r
         ∧ RefereeAssigner.referee_endpoint a = RefereeAssigner.endpoint r.
Proof.
  destruct referees as [|first rest]; [done|]. intros [= <-] k a Hk.
  apply assign_rounds_referee in Hk. rewrite Nat.add_0_l in Hk.
  assert (Hlt : (k mod length (first :: rest) < length (first :: rest))%nat).
  { apply Nat.mod_upper_bound. done. }
  apply lookup_lt_is_Some in Hlt as [r Hr].
  exists r. rewrite Hr in Hk. by split.
Qed.

Lemma assign_referees_takes_turns_witness :
  ∃ r, [RefereeAssigner.mkReferee "REF01" "e1";
        RefereeAssigner.mkReferee "REF02" "e2"]
         !! (2 mod 2)%nat = Some r
       ∧ RefereeAssigner.assigned_referee_id
           (RefereeAssigner.mkAssignment "P01" "P03" "REF01" "e1")
         = RefereeAssigner.referee_id r
       ∧ RefereeAssigner.referee_endpoint
           (RefereeAssigner.mkAssignment "P01" "P03" "REF01" "e1")
         = RefereeAssigner.endpoint r.
Proof.
  apply (assign_referees_takes_turns
           [[("P01", "P02"); ("P03", "P04")]; [("P01", "P03")]]
           [RefereeAssigner.mkReferee "REF01" "e1";
            RefereeAssigner.mkReferee "REF02" "e2"]
           _ eq_refl 2%nat).
  reflexivity.
Defined.

(** ** Match scheduler *)

Section match_scheduler_facts.
Import MatchScheduler.

(** [min] returns the first element whose key is least. *)
Lemma min_by_split {A} (key : A → Z) (pre mid rest : list A) (best : A) :
  Forall (λ x, key best < key x) pre →
  Forall (λ x, key best ≤ key x) mid →
  ∃ l1 l2,
    pre ++ best :: mid ++ rest = l1 ++ min_by key best rest :: l2
    ∧ Forall (λ x, key (min_by key best rest) < key x) l1
    ∧ Forall (λ x, key (min_by key best rest) ≤ key x) l2.
Proof.
  revert pre mid best.
  induction rest as [|x rest IH]; intros pre mid best Hpre Hmid; simpl.
  - exists pre, mid. by rewrite app_nil_r.
  - destruct (Z.ltb_spec (key x) (key best)) as [Hlt|Hge].
    + destruct (IH (pre ++ best :: mid) [] x) as (l1 & l2 & Heq & H1 & H2).
      * apply Forall_app. split; [|constructor].
        -- eapply Forall_impl; [exact Hpre|]. simpl. lia.
        -- done.
        -- eapply Forall_impl; [exact Hmid|]. simpl. lia.
      * constructor.
      * exists l1, l2. split; [|done]. rewrite <- Heq.
        by rewrite <- (assoc_L (++)).
    + destruct (IH pre (mid ++ [x]) best) as (l1 & l2 & Heq & H1 & H2).
      * done.
      * apply Forall_app. split; [done|]. by constructor.
      * exists l1, l2. split; [|done]. rewrite <- Heq.
        by rewrite <- (assoc_L (++)).
Qed.

Lemma _generate_match_id_league (s s' : MatchScheduler) rn mn :
  league_id s' = league_id s →
  _generate_match_id rn mn s' = _generate_match_id rn mn s.
Proof. unfold _generate_match_id. by intros ->. Qed.

(** What one call of [_assign_referee] does. *)
Lemma _assign_referee_spec (referees : list RefereeAssigner.Referee)
    (s : MatchScheduler) :
  referees ≠ [] →
  ∃ l1 sel l2 s',
    referees = l1 ++ sel :: l2
    ∧ _assign_referee referees s
      = (s', Returned (RefereeAssigner.referee_id sel))
    ∧ Forall (λ r, workload_of (RefereeAssigner.referee_id sel) s
                   < workload_of (RefereeAssigner.referee_id r) s) l1
    ∧ Forall (λ r, workload_of (RefereeAssigner.referee_id sel) s
                   ≤ workload_of (RefereeAssigner.referee_id r) s) l2
    ∧ league_id s' = league_id s
    ∧ ∀ id, workload_of id s'
            = workload_of id s
              + (if decide (id = RefereeAssigner.referee_id sel)
                 then 1 else 0).
Proof.
  destruct referees as [|first rest]; [done|]. intros _.
  destruct (min_by_split
              (λ r, workload_of (RefereeAssigner.referee_id r) s)
              [] [] rest first) as (l1 & l2 & Heq & H1 & H2);
    [constructor..|].
  simpl in Heq. eexists l1, _, l2, _.
  split; [exact Heq|]. split; [reflexivity|].
  split; [exact H1|]. split; [exact H2|]. split; [done|].
  intros id. unfold workload_of at 1. simpl.
  rewrite lookup_insert. repeat case_decide; simplify_eq; simpl; try lia.
  unfold workload_of. lia.
Qed.

(** Giving the next match to a least-loaded referee keeps the loads
    within one of each other. *)
Lemma _assign_referee_balanced (referees : list RefereeAssigner.Referee)
    (s : MatchScheduler) :
  balanced referees s → balanced referees (_assign_referee referees s).1.
Proof.
  intros Hbal. destruct (decide (referees = [])) as [->|Hne]; [done|].
  destruct (_assign_referee_spec referees s Hne)
    as (l1 & sel & l2 & s' & Heq & -> & H1 & H2 & _ & Hw).
  simpl. intros r1 r2 Hr1 Hr2. rewrite !Hw.
  assert (Hsel : sel ∈ referees).
  { rewrite Heq. apply elem_of_app. right. apply list_elem_of_here. }
  assert (Hmin : ∀ r, r ∈ referees →
            workload_of (RefereeAssigner.referee_id sel) s
            ≤ workload_of (RefereeAssigner.referee_id r) s).
  { intros r Hr. rewrite Heq in Hr.
    apply elem_of_app in Hr as [Hr|Hr].
    - rewrite Forall_forall in H1. specialize (H1 _ Hr). simpl in H1. lia.
    - apply elem_of_cons in Hr as [->|Hr]; [lia|].
      rewrite Forall_forall in H2. by apply H2. }
  pose proof (Hbal r1 r2 Hr1 Hr2). pose proof (Hbal r1 sel Hr1 Hsel).
  pose proof (Hmin r2 Hr2).
  repeat case_decide; try lia.
  match goal with H : _ = RefereeAssigner.referee_id sel |- _ =>
    rewrite H end. lia.
Qed.

(** The matches given to a referee id. *)
Definition assigned_to (id : string) (matches : list RoundManager.Match)
  : nat :=
  length (filter (λ m, RoundManager.referee_id m = id) matches).

Lemma build_round_spec (referees : list RefereeAssigner.Referee)
    (rn idx : nat) (round_matches : list Scheduler.pairing)
    (s : MatchScheduler) :
  referees ≠ [] →
  ∃ s' ms,
    build_round referees rn idx round_matches s = (s', Returned ms)
    ∧ league_id s' = league_id s
    ∧ players_of <$> ms = round_matches
    ∧ (balanced referees s → balanced referees s')
    ∧ (∀ j m, ms !! j = Some m →
         RoundManager.round_number m = Z.of_nat rn
         ∧ RoundManager.match_id m
           = _generate_match_id rn (idx + j + 1) s
         ∧ ∃ r, r ∈ referees
                ∧ RoundManager.referee_id m = RefereeAssigner.referee_id r)
    ∧ ∀ id, workload_of id s'
            = workload_of id s + Z.of_nat (assigned_to id ms).
Proof.
  intros Hne. revert idx s.
  induction round_matches as [|[pa pb] rest IH]; intros idx s.
  - exists s, []. simpl. repeat split; try done.
    intros id. unfold assigned_to. simpl. lia.
  - cbn [build_round].
    pose proof (_assign_referee_balanced referees s) as Hbal1.
    destruct (_assign_referee_spec referees s Hne)
      as (l1 & sel & l2 & s1 & Heq & Hres & _ & _ & Hl1 & Hw1).
    rewrite Hres in *. cbn [fst] in Hbal1.
    destruct (IH (idx + 1)%nat s1)
      as (s2 & ms & -> & Hl2 & Hp & Hbal2 & Hms & Hw2).
    eexists s2, _. split; [reflexivity|].
    split; [congruence|]. split; [by rewrite fmap_cons, Hp|].
    split; [auto|]. split.
    + intros [|j] m Hj; cbn in Hj.
      * injection Hj as <-. cbn. split; [done|].
        split; [by rewrite Nat.add_0_r|].
        exists sel. split; [|done]. rewrite Heq.
        apply elem_of_app. right. apply list_elem_of_here.
      * destruct (Hms j m Hj) as (Hrn & Hid & Hr). split; [done|].
        split; [|done]. rewrite Hid.
        rewrite (_generate_match_id_league s s1) by done.
        f_equal. lia.
    + intros id. rewrite Hw2, Hw1. unfold assigned_to.
      rewrite filter_cons. cbn [RoundManager.referee_id].
      destruct (decide (id = RefereeAssigner.referee_id sel)) as [->|Hid].
      * rewrite decide_True by done. cbn [length]. lia.
      * rewrite decide_False by done. lia.
Qed.

Lemma build_rounds_spec (referees : list RefereeAssigner.Referee)
    (round_idx : nat) (rr : list (list Scheduler.pairing))
    (s : MatchScheduler) :
  referees ≠ [] →
  ∃ s' schedule,
    build_rounds referees round_idx rr s = (s', Returned schedule)
    ∧ league_id s' = league_id s
    ∧ (λ round : list RoundManager.Match, players_of <$> round)
        <$> schedule = rr
    ∧ (balanced referees s → balanced referees s')
    ∧ (∀ i round j m,
         schedule !! i = Some round → round !! j = Some m →
         RoundManager.round_number m = Z.of_nat (round_idx + i + 1)
         ∧ RoundManager.match_id m
           = _generate_match_id (round_idx + i + 1) (j + 1) s
         ∧ ∃ r, r ∈ referees
                ∧ RoundManager.referee_id m = RefereeAssigner.referee_id r)
    ∧ ∀ id, workload_of id s'
            = workload_of id s
              + Z.of_nat (assigned_to id (concat schedule)).
Proof.
  intros Hne. revert round_idx s.
  induction rr as [|round rest IH]; intros round_idx s.
  - exists s, []. simpl. repeat split; try done.
    intros id. unfold assigned_to. simpl. lia.
  - cbn [build_rounds].
    destruct (build_round_spec referees (round_idx + 1) 0 round s Hne)
      as (s1 & ms & -> & Hl1 & Hp1 & Hbal1 & Hms & Hw1).
    destruct (IH (round_idx + 1)%nat s1)
      as (s2 & schedule & -> & Hl2 & Hp2 & Hbal2 & Hsched & Hw2).
    eexists s2, _. split; [reflexivity|].
    split; [congruence|]. split; [by rewrite fmap_cons, Hp1, Hp2|].
    split; [auto|]. split.
    + intros [|i] rnd j m Hi Hj; cbn in Hi.
      * injection Hi as <-. destruct (Hms j m Hj) as (Hrn & Hid & Hr).
        rewrite Nat.add_0_r. by rewrite Nat.add_0_l in Hid.
      * destruct (Hsched i rnd j m Hi Hj) as (Hrn & Hid & Hr).
        replace (round_idx + S i + 1)%nat
          with (round_idx + 1 + i + 1)%nat by lia.
        split; [done|]. split; [|done].
        by rewrite Hid, (_generate_match_id_league s s1).
    + intros id. rewrite Hw2, Hw1. unfold assigned_to. cbn [concat].
      rewrite filter_app, length_app. lia.
Qed.

End match_scheduler_facts.

Module DemoScheduler.

Definition referees : list RefereeAssigner.Referee :=
  [RefereeAssigner.mkReferee "REF01" "http://localhost:8001/mcp";
   RefereeAssigner.mkReferee "REF02" "http://localhost:8002/mcp"].

Definition players : list string := ["P01"; "P02"; "P03"; "P04"].

End DemoScheduler.

(** X6: with at least one referee [_assign_referee] returns the id of the
    first referee of the list whose workload is least (every referee
    before it has a strictly greater one, none after it a smaller one),
    adds one to the counter of that id and leaves every other counter as
    it was. *)
Theorem assign_referee_picks_first_least_loaded
    (referees : list RefereeAssigner.Referee)
    (s : MatchScheduler.MatchScheduler) :
  referees ≠ [] →
  ∃ l1 sel l2,
    referees = l1 ++ sel :: l2
    ∧ (MatchScheduler._assign_referee referees s).2
      = Returned (RefereeAssigner.referee_id sel)
    ∧ Forall (λ r,
        MatchScheduler.workload_of (RefereeAssigner.referee_id sel) s
        < MatchScheduler.workload_of (RefereeAssigner.referee_id r) s) l1
    ∧ Forall (λ r,
        MatchScheduler.workload_of (RefereeAssigner.referee_id sel) s
        ≤ MatchScheduler.workload_of (RefereeAssigner.referee_id r) s) l2
    ∧ ∀ id,
        MatchScheduler.workload_of id
          (MatchScheduler._assign_referee referees s).1
        = MatchScheduler.workload_of id s
          + (if decide (id = RefereeAssigner.referee_id sel) then 1 else 0).
Proof.
  intros Hne.
  destruct (_assign_referee_spec referees s Hne)
    as (l1 & sel & l2 & s' & Heq & Hres & H1 & H2 & _ & Hw).
  exists l1, sel, l2. rewrite Hres. done.
Qed.

Lemma assign_referee_picks_first_least_loaded_witness :
  ∃ l1 sel l2,
    DemoScheduler.referees = l1 ++ sel :: l2
    ∧ (MatchScheduler._assign_referee DemoScheduler.referees
         (MatchScheduler.init "L1")).2
      = Returned (RefereeAssigner.referee_id sel).
Proof.
  destruct (assign_referee_picks_first_least_loaded DemoScheduler.referees
              (MatchScheduler.init "L1"))
    as (l1 & sel & l2 & Heq & Hres & _); [discriminate|].
  exists l1, sel, l2. split; [exact Heq|exact Hres].
Defined.

(** X7: [create_tournament_schedule] keeps the referee workloads
    balanced: if before the call the counters of the listed referees
    differ by at most one, they do so after it, whether it returned or
    raised. *)
Theorem create_tournament_schedule_balanced
    (player_ids : list string) (referees : list RefereeAssigner.Referee)
    (s : MatchScheduler.MatchScheduler) :
  MatchScheduler.balanced referees s →
  MatchScheduler.balanced referees
    (MatchScheduler.create_tournament_schedule player_ids referees s).1.
Proof.
  intros Hbal. unfold MatchScheduler.create_tournament_schedule.
  destruct (length player_ids <? 2)%nat; [done|].
  case_bool_decide as Hne; [done|].
  destruct (build_rounds_spec referees 0
              (Scheduler.create_round_robin_schedule player_ids) s Hne)
    as (s' & schedule & -> & _ & _ & Hb & _). by apply Hb.
Qed.

Lemma create_tournament_schedule_balanced_witness :
  MatchScheduler.balanced DemoScheduler.referees (MatchScheduler.init "L1")
  ∧ MatchScheduler.balanced DemoScheduler.referees
      (MatchScheduler.create_tournament_schedule DemoScheduler.players
         DemoScheduler.referees (MatchScheduler.init "L1")).1.
Proof.
  assert (H : MatchScheduler.balanced DemoScheduler.referees
                (MatchScheduler.init "L1")).
  { intros r1 r2 _ _. unfold MatchScheduler.workload_of. simpl.
    rewrite !lookup_empty. simpl. lia. }
  split; [exact H|].
  exact (create_tournament_schedule_balanced _ _ _ H).
Defined.

(** X8: [create_tournament_schedule] raises [ValueError], leaving the
    scheduler as it was, when there are fewer than two players or no
    referee; for any other input it returns. *)
Theorem create_tournament_schedule_errors
    (player_ids : list string) (referees : list RefereeAssigner.Referee)
    (s : MatchScheduler.MatchScheduler) :
  (((length player_ids < 2)%nat ∨ referees = [])
   ∧ ∃ msg,
       MatchScheduler.create_tournament_schedule player_ids referees s
       = (s, Raised (ValueError msg)))
  ∨ ((2 ≤ length player_ids)%nat ∧ referees ≠ []
     ∧ ∃ s' schedule,
         MatchScheduler.create_tournament_schedule player_ids referees s
         = (s', Returned schedule)).
Proof.
  unfold MatchScheduler.create_tournament_schedule.
  destruct (length player_ids <? 2)%nat eqn:Hn.
  { left. apply Nat.ltb_lt in Hn. eauto. }
  apply Nat.ltb_ge in Hn. case_bool_decide as Hne.
  { left. eauto. }
  right. split; [done|]. split; [done|].
  destruct (build_rounds_spec referees 0
              (Scheduler.create_round_robin_schedule player_ids) s Hne)
    as (s' & schedule & -> & _). eauto.
Qed.

(** X9: a schedule returned by [create_tournament_schedule] holds the
    pairings of [create_round_robin_schedule], round by round and in
    order.  The match at position [j] of round [i] (both from 0) has
    round number [i + 1], the id built from the league id, [i + 1] and
    [j + 1], and a referee of the list; and the counter of every referee
    id went up by the number of matches given to that id. *)
Theorem create_tournament_schedule_structure
    (player_ids : list string) (referees : list RefereeAssigner.Referee)
    (s s' : MatchScheduler.MatchScheduler)
    (schedule : list (list RoundManager.Match)) :
  MatchScheduler.create_tournament_schedule player_ids referees s
    = (s', Returned schedule) →
  (λ round : list RoundManager.Match, MatchScheduler.players_of <$> round)
    <$> schedule
  = Scheduler.create_round_robin_schedule player_ids
  ∧ (∀ i round j m,
       schedule !! i = Some round → round !! j = Some m →
       RoundManager.round_number m = Z.of_nat (i + 1)
       ∧ RoundManager.match_id m
         = MatchScheduler._generate_match_id (i + 1) (j + 1) s
       ∧ ∃ r, r ∈ referees
              ∧ RoundManager.referee_id m = RefereeAssigner.referee_id r)
  ∧ ∀ id,
      MatchScheduler.workload_of id s'
      = MatchScheduler.workload_of id s
        + Z.of_nat (assigned_to id (concat schedule)).
Proof.
  unfold MatchScheduler.create_tournament_schedule.
  destruct (length player_ids <? 2)%nat; [done|].
  case_bool_decide as Hne; [done|].
  destruct (build_rounds_spec referees 0
              (Scheduler.create_round_robin_schedule player_ids) s Hne)
    as (s1 & sch & -> & _ & Hp & _ & Hm & Hw).
  intros [= <- <-]. split; [done|]. split; [|done].
  intros i round j m Hi Hj. by apply (Hm i round j m).
Qed.

Lemma create_tournament_schedule_structure_witness :
  MatchScheduler.workload_of "REF01"
    (MatchScheduler.create_tournament_schedule DemoScheduler.players
       DemoScheduler.referees (MatchScheduler.init "L1")).1
  = MatchScheduler.workload_of "REF01" (MatchScheduler.init "L1")
    + Z.of_nat
        (assigned_to "REF01"
           (concat
              (match (MatchScheduler.create_tournament_schedule
                        DemoScheduler.players DemoScheduler.referees
                        (MatchScheduler.init "L1")).2 with
               | Returned schedule => schedule
               | Raised _ => []
               end))).
Proof.
  destruct (MatchScheduler.create_tournament_schedule DemoScheduler.players
              DemoScheduler.referees (MatchScheduler.init "L1"))
    as [s' [schedule|e]] eqn:Hrun; [|vm_compute in Hrun; discriminate].
  exact (proj2 (proj2 (create_tournament_schedule_structure _ _ _ _ _ Hrun))
           "REF01").
Defined.

(** ** State machine: sequences of transitions *)

Section game_runs_facts.
Import StateMachine GameRuns.

(** How far a state is from the start; every edge goes further. *)
Definition depth (s : GameState) : nat :=
  match s with
  | WAITING_FOR_PLAYERS => 0
  | COLLECTING_CHOICES => 1
  | DRAWING_NUMBER => 2
  | ABORTED => 2
  | EVALUATING => 3
  | FINISHED => 4
  end.

Lemma edge_depth (s s' : GameState) : edge s s' → (depth s < depth s')%nat.
Proof. destruct 1; simpl; lia. Qed.

Lemma is_path_snoc (l : list GameState) (s s' : GameState) :
  is_path (l ++ [s]) → edge s s' → is_path ((l ++ [s]) ++ [s']).
Proof.
  intros Hl He. induction l as [|x l IH]; simpl in *; [done|].
  destruct (l ++ [s]) as [|y l'] eqn:Hl'; [by destruct l|].
  simpl in *. destruct Hl as [Hxy Hl]. split; [done|]. by apply IH.
Qed.

(** What holds of a machine however it was driven. *)
Definition well_formed (id : string) (g : GameStateMachine) : Prop :=
  match_id g = id
  ∧ (∃ h now, history g = h ++ [(state g, now)])
  ∧ head (history g).*1 = Some WAITING_FOR_PLAYERS
  ∧ is_path (history g).*1
  ∧ (length (history g) ≤ depth (state g) + 1)%nat.

Lemma attempt_well_formed (id : string) (g : GameStateMachine)
    (call : GameState * timestamp) :
  well_formed id g → well_formed id (attempt g call).
Proof.
  intros (Hid & (h & t0 & Hh) & Hhead & Hpath & Hlen).
  destruct call as [t now]. unfold attempt, transition. cbn [fst snd].
  case_bool_decide as Hin; cbn [fst].
  { repeat split; eauto. }
  assert (Hedge : edge (state g) t).
  { apply edge_TRANSITIONS. by destruct (decide (t ∈ TRANSITIONS (state g))). }
  unfold well_formed. cbn [match_id state history].
  split; [done|]. split; [by eexists _, _|].
  rewrite fmap_app. split; [|split].
  - rewrite Hh, fmap_app in Hhead |- *. cbn in *.
    destruct (h.*1); done.
  - rewrite Hh, fmap_app in Hpath |- *. cbn [fmap list_fmap fst] in *.
    by apply is_path_snoc.
  - rewrite length_app. cbn [length]. apply edge_depth in Hedge. lia.
Qed.

Lemma run_well_formed (id : string) (g : GameStateMachine)
    (calls : list (GameState * timestamp)) :
  well_formed id g → well_formed id (run g calls).
Proof.
  unfold run. revert g. induction calls as [|c calls IH]; intros g Hg; simpl.
  - done.
  - by apply IH, attempt_well_formed.
Qed.

End game_runs_facts.

(** X10: [can_transition] predicts [transition]: when it says true the
    transition returns, when it says false the transition raises
    [ValueError] and the machine stays as it was. *)
Theorem can_transition_predicts_transition
    (g : StateMachine.GameStateMachine) (t : StateMachine.GameState)
    (now : StateMachine.timestamp) :
  (StateMachine.can_transition t g = true
   ∧ ∃ g', StateMachine.transition t now g = (g', Returned ())
           ∧ StateMachine.state g' = t)
  ∨ (StateMachine.can_transition t g = false
     ∧ ∃ msg, StateMachine.transition t now g = (g, Raised (ValueError msg))).
Proof.
  unfold StateMachine.can_transition, StateMachine.transition.
  destruct (decide (t ∈ StateMachine.TRANSITIONS (StateMachine.state g)))
    as [Hin|Hnin].
  - left. rewrite bool_decide_eq_true_2 by done.
    rewrite bool_decide_eq_false_2 by (by intros ?). eauto.
  - right. rewrite bool_decide_eq_false_2 by done.
    rewrite bool_decide_eq_true_2 by done. eauto.
Qed.

(** X11: however [transition] is called on a machine since its creation,
    with whatever targets and whether the calls return or raise, the
    history starts with [WAITING_FOR_PLAYERS], ends with the current
    state, steps along edges of the table only, and has at most five
    entries. *)
Theorem history_is_a_path_from_the_start
    (id : string) (created : StateMachine.timestamp)
    (calls : list (StateMachine.GameState * StateMachine.timestamp)) :
  let g := GameRuns.run (StateMachine.init id created) calls in
  StateMachine.match_id g = id
  ∧ head (StateMachine.history g) = Some (StateMachine.WAITING_FOR_PLAYERS,
                                          created)
  ∧ last (StateMachine.history g).*1 = Some (StateMachine.state g)
  ∧ GameRuns.is_path (StateMachine.history g).*1
  ∧ (length (StateMachine.history g) ≤ 5)%nat.
Proof.
  intros g.
  assert (Hwf : well_formed id g).
  { apply run_well_formed. repeat split; simpl; try done; try lia.
    by exists [], created. }
  destruct Hwf as (Hid & (h & t0 & Hh) & Hhead & Hpath & Hlen).
  split; [done|]. split; [|split; [|split; [done|]]].
  - assert (Hprefix : ∀ calls g0,
              head (StateMachine.history g0)
                = Some (StateMachine.WAITING_FOR_PLAYERS, created) →
              head (StateMachine.history (GameRuns.run g0 calls))
                = Some (StateMachine.WAITING_FOR_PLAYERS, created)).
    { clear. induction calls as [|[t now] calls IH]; intros g0 H0; [done|].
      simpl. apply IH. unfold GameRuns.attempt, StateMachine.transition.
      simpl. case_bool_decide; simpl; [done|].
      destruct (StateMachine.history g0); done. }
    by apply Hprefix.
  - rewrite Hh, fmap_app. simpl. by rewrite last_snoc.
  - pose proof (StateMachine.state g) as st.
    assert (depth (StateMachine.state g) ≤ 4)%nat
      by (destruct (StateMachine.state g); simpl; lia).
    lia.
Qed.

(** X12: [FINISHED] and [ABORTED] are final: from either, no sequence of
    [transition] calls changes the machine, state or history. *)
Theorem terminal_states_are_final
    (g : StateMachine.GameStateMachine)
    (calls : list (StateMachine.GameState * StateMachine.timestamp)) :
  StateMachine.state g = StateMachine.FINISHED
  ∨ StateMachine.state g = StateMachine.ABORTED →
  GameRuns.run g calls = g.
Proof.
  intros Hterm. unfold GameRuns.run.
  induction calls as [|[t now] calls IH]; simpl; [done|].
  replace (GameRuns.attempt g (t, now)) with g; [done|].
  unfold GameRuns.attempt, StateMachine.transition. simpl.
  rewrite bool_decide_eq_true_2; [done|].
  destruct Hterm as [-> | ->]; simpl; apply not_elem_of_nil.
Qed.

Lemma terminal_states_are_final_witness :
  GameRuns.run
    (StateMachine.mkGame "R1M1" StateMachine.ABORTED
       [(StateMachine.WAITING_FOR_PLAYERS, 0); (StateMachine.ABORTED, 1)])
    [(StateMachine.COLLECTING_CHOICES, 2); (StateMachine.FINISHED, 3)]
  = StateMachine.mkGame "R1M1" StateMachine.ABORTED
      [(StateMachine.WAITING_FOR_PLAYERS, 0); (StateMachine.ABORTED, 1)].
Proof.
  apply (terminal_states_are_final
           (StateMachine.mkGame "R1M1" StateMachine.ABORTED
              [(StateMachine.WAITING_FOR_PLAYERS, 0);
               (StateMachine.ABORTED, 1)])).
  right. reflexivity.
Defined.

(** ** Scoring for any number of players *)

Section scorer_more.
Import Scorer.

Lemma find_winner_spec (parity : string) (choices : list (string * string)) :
  match find_winner parity choices with
  | None => Forall (λ kc, kc.2 ≠ parity) choices
  | Some w =>
      ∃ before after,
        choices = before ++ (w, parity) :: after
        ∧ Forall (λ kc, kc.2 ≠ parity) before
  end.
Proof.
  induction choices as [|[k c] rest IH]; simpl; [constructor|].
  destruct (decide (c = parity)) as [->|Hne].
  - by exists [], rest.
  - destruct (find_winner parity rest) as [w|].
    + destruct IH as (before & after & -> & Hb).
      exists ((k, c) :: before), after. split; [done|]. by constructor.
    + by constructor.
Qed.

Lemma dict_set_fresh {V} (k : string) (v : V) (d : list (string * V)) :
  k ∉ dict_keys d → dict_set k v d = d ++ [(k, v)].
Proof.
  unfold dict_keys. induction d as [|[k' v'] d IH]; simpl; [done|].
  rewrite not_elem_of_cons. intros [Hne Hd].
  rewrite decide_False by done. by rewrite IH.
Qed.

(** Filling a dict key by key, for keys that are all different. *)
Lemma foldl_dict_set_fresh {V} (f : string → V) (keys : list string)
    (acc : list (string * V)) :
  NoDup (dict_keys acc ++ keys) →
  foldl (λ d k, dict_set k (f k) d) acc keys
  = acc ++ ((λ k, (k, f k)) <$> keys).
Proof.
  revert acc. induction keys as [|k keys IH]; intros acc Hnd; simpl.
  - by rewrite app_nil_r.
  - assert (Hk : k ∉ dict_keys acc).
    { apply NoDup_app in Hnd as (_ & Hd & _). intros Hin.
      apply (Hd _ Hin). apply list_elem_of_here. }
    rewrite dict_set_fresh by done. rewrite IH.
    + by rewrite <- (assoc_L (++)).
    + unfold dict_keys in *. rewrite fmap_app. simpl.
      by rewrite <- (assoc_L (++)).
Qed.

End scorer_more.

(** X13: for any dict of choices (distinct keys) [determine_winner] names
    as winner the first key whose choice equals the parity of the drawn
    number, and none when no choice equals it; the scores hold exactly
    the keys of the choices, in their order, with 3 for the winner and 0
    for everyone else. *)
Theorem determine_winner_first_match_wins
    (drawn : Z) (choices : list (string * string)) :
  NoDup (dict_keys choices) →
  let r := Scorer.determine_winner drawn choices in
  (Scorer.number_parity r = "even" ∧ drawn mod 2 = 0
   ∨ Scorer.number_parity r = "odd" ∧ drawn mod 2 = 1)
  ∧ match Scorer.winner_player_id r with
    | None => Forall (λ kc, kc.2 ≠ Scorer.number_parity r) choices
    | Some w =>
        ∃ before after,
          choices = before ++ (w, Scorer.number_parity r) :: after
          ∧ Forall (λ kc, kc.2 ≠ Scorer.number_parity r) before
    end
  ∧ Scorer.scores r
    = (λ k, (k, if decide (Some k = Scorer.winner_player_id r)
                then 3 else 0)) <$> dict_keys choices.
Proof.
  intros Hnd r. split; [|split].
  - unfold r, Scorer.determine_winner, Scorer.parity_of; simpl.
    destruct (Z.eqb_spec (drawn mod 2) 0); [by left|right].
    split; [done|]. pose proof (Z.mod_pos_bound drawn 2). lia.
  - apply find_winner_spec.
  - unfold r, Scorer.determine_winner; simpl.
    by rewrite (foldl_dict_set_fresh
                  (λ k, if decide (Some k
                                   = Scorer.find_winner
                                       (Scorer.parity_of drawn) choices)
                        then 3 else 0)).
Qed.

Lemma determine_winner_first_match_wins_witness :
  NoDup (dict_keys [("P01", "odd"); ("P02", "even"); ("P03", "even")])
  ∧ Scorer.scores
      (Scorer.determine_winner 8
         [("P01", "odd"); ("P02", "even"); ("P03", "even")])
    = (λ k, (k, if decide
                     (Some k
                      = Scorer.winner_player_id
                          (Scorer.determine_winner 8
                             [("P01", "odd"); ("P02", "even");
                              ("P03", "even")]))
                then 3 else 0))
        <$> dict_keys [("P01", "odd"); ("P02", "even"); ("P03", "even")].
Proof.
  assert (H : NoDup (dict_keys [("P01", "odd"); ("P02", "even");
                                ("P03", "even")])).
  { refine (bool_decide_unpack (NoDup _) _). vm_compute. exact I. }
  split; [exact H|].
  exact (proj2 (proj2 (determine_winner_first_match_wins 8 _ H))).
Defined.

(** ** Match orchestration: what a run sends *)

Module Replies.
Import Orchestration.

(** The reply is a response whose [result.accept] is true. *)
Definition accepted (r : reply) : Prop :=
  ∃ j inner a,
    r = Returned j
    ∧ py_get j "result" (JObj []) = Returned inner
    ∧ py_get inner "accept" (JBool false) = Returned a
    ∧ truthy a = true.

(** The reply is a response whose [result.parity_choice] is the legal
    choice [c]. *)
Definition chose (c : string) (r : reply) : Prop :=
  ∃ j inner,
    r = Returned j
    ∧ py_get j "result" (JObj []) = Returned inner
    ∧ py_get inner "parity_choice" JNull = Returned (JStr c)
    ∧ (c = "even" ∨ c = "odd").

(** The reply is a response that is no object, or whose [result] is no
    object: reading it raises [e]. *)
Definition malformed (e : exn) (field : string) (dflt : Json) (r : reply)
  : Prop :=
  ∃ j,
    r = Returned j
    ∧ (py_get j "result" (JObj []) = Raised e
       ∨ ∃ inner, py_get j "result" (JObj []) = Returned inner
                  ∧ py_get inner field dflt = Raised e).

(** The tools called, in order; ["close"] stands for closing the client. *)
Definition tools (tr : list event) : list string :=
  (λ e, match e with Call _ tool _ => tool | Close => "close" end) <$> tr.

End Replies.

Section orchestration_more.
Import StateMachine Orchestration Replies.
Variable config : Config.
Variable w : World.
Variable mp : MatchParams.

(** The computation only appends events to the trace, all of them in
    [P]. *)
Definition appends (P : event → Prop) {A} (m : M A) : Prop :=
  ∀ s, ∃ events, trace (m s).1 = trace s ++ events ∧ Forall P events.

Section appends.
Variable P : event → Prop.

Lemma appends_ret {A} (a : A) : appends P (ret a).
Proof. intros s. exists []. by rewrite app_nil_r. Qed.

Lemma appends_raise {A} (e : exn) : appends P (raise (A:=A) e).
Proof. intros s. exists []. by rewrite app_nil_r. Qed.

Lemma appends_lift {A} (o : outcome exn A) : appends P (lift_outcome o).
Proof. destruct o; [apply appends_ret|apply appends_raise]. Qed.

Lemma appends_emit (e : event) : P e → appends P (emit e).
Proof. intros He s. exists [e]. by repeat constructor. Qed.

Lemma appends_transition (st : GameState) :
  appends P (game_transition w st).
Proof.
  intros s. exists []. unfold game_transition.
  destruct (transition _ _ _). by rewrite app_nil_r.
Qed.

Lemma appends_bind {A B} (m : M A) (k : A → M B) :
  appends P m → (∀ a, appends P (k a)) → appends P (bind m k).
Proof.
  intros Hm Hk s. unfold bind. destruct (Hm s) as (c1 & H1 & F1).
  destruct (m s) as [s1 [a|e]]; simpl in *.
  - destruct (Hk a s1) as (c2 & H2 & F2). exists (c1 ++ c2).
    rewrite H2, H1, <- (assoc_L (++)). split; [done|]. by apply Forall_app.
  - by exists c1.
Qed.

Lemma appends_try_except {A} (m : M A) caught (handler : exn → M A) :
  appends P m → (∀ e, appends P (handler e)) →
  appends P (try_except m caught handler).
Proof.
  intros Hm Hh s. unfold try_except. destruct (Hm s) as (c1 & H1 & F1).
  destruct (m s) as [s1 [a|e]]; simpl in *; [by exists c1|].
  destruct (caught e); [|by exists c1].
  destruct (Hh e s1) as (c2 & H2 & F2). exists (c1 ++ c2).
  rewrite H2, H1, <- (assoc_L (++)). split; [done|]. by apply Forall_app.
Qed.

End appends.

Ltac appends :=
  repeat first
    [ apply appends_ret | apply appends_raise | apply appends_lift
    | apply appends_emit; [done]
    | apply appends_transition
    | apply appends_bind; [|intros ?]
    | apply appends_try_except; [|intros ?] ].

Lemma appends_check_invitations P (results : list reply) :
  appends P (check_invitations w results).
Proof.
  induction results as [|[j|e] rest IH]; simpl; appends.
  destruct (negb _); [appends|done].
Qed.

Lemma appends_extract_choices P (results : list (string * reply)) choices :
  appends P (extract_choices w results choices).
Proof.
  revert choices.
  induction results as [|[id [j|e]] rest IH]; intros choices; simpl; appends.
  destruct (legal_choice _); [apply IH|appends].
Qed.

(** What comes after the invitations, for a given answer of
    [send_invitations]. *)
Definition after_invitations (success : bool) : M () :=
  if negb success then ret ()
  else
    choices <- collect_choices config w mp ;;
    match choices with
    | None | Some [] => ret ()
    | Some choices =>
        result <- draw_and_evaluate w mp choices ;;
        notify_players config w mp result ;;;
        report_result config w mp result
    end.

(** The [except Exception] handler of [orchestrate_game]. *)
Definition abort_handler (e : exn) : M () :=
  game_transition w ABORTED ;;;
  report_aborted_game config w mp (exn_str e).

Lemma orchestrate_game_body_eq :
  orchestrate_game_body config w mp
  = try_finally
      (try_except
         (success <- send_invitations config w mp ;;
          after_invitations success)
         (λ _, true) abort_handler)
      (emit Close).
Proof. reflexivity. Qed.

Lemma appends_send_invitations P :
  (∀ endpoint params, P (Call endpoint "handle_game_invitation" params)) →
  appends P (send_invitations config w mp).
Proof.
  intros HP. unfold send_invitations.
  destruct (invitations config w mp).
  appends. apply appends_check_invitations.
Qed.

Lemma appends_after_invitations P (success : bool) :
  (∀ e, e ≠ Close → P e) → appends P (after_invitations success).
Proof.
  intros HP. unfold after_invitations, collect_choices, draw_and_evaluate,
    notify_players, report_result.
  destruct (choice_requests config w mp).
  destruct (negb success); [appends|].
  assert (∀ a b c, P (Call a b c)) by (intros; by apply HP).
  appends; try apply appends_extract_choices.
  match goal with
  | |- appends _ (match ?c with _ => _ end) => destruct c as [[|? ?]|]
  end; appends.
Qed.

Lemma appends_abort_handler P (e : exn) :
  (∀ endpoint params, P (Call endpoint "report_match_result" params)) →
  appends P (abort_handler e).
Proof.
  intros HP. unfold abort_handler, report_aborted_game. appends.
Qed.

Lemma appends_body :
  appends (λ e, e ≠ Close)
    (try_except
       (success <- send_invitations config w mp ;;
        after_invitations success)
       (λ _, true) abort_handler).
Proof.
  apply appends_try_except.
  - apply appends_bind.
    + by apply appends_send_invitations.
    + intros success. by apply appends_after_invitations.
  - intros e. by apply appends_abort_handler.
Qed.

End orchestration_more.

Section invitation_facts.
Import Orchestration.

(** The fields shared by the two invitations. *)
Definition invitation_envelope (config : Config) (w : World)
    (mp : MatchParams) : list (string * Json) :=
  [("protocol", JStr "league.v2");
   ("message_type", JStr "GAME_INVITATION");
   ("sender", JStr ("referee:" +:+ referee_id config));
   ("timestamp", JStr (utc_timestamp w));
   ("conversation_id", JStr ("conv" +:+ p_match_id mp +:+ "001"));
   ("auth_token", JStr (or_empty (auth_token config)));
   ("league_id", JStr (or_empty (league_id config)));
   ("round_id", JStr (p_round_id mp));
   ("match_id", JStr (p_match_id mp));
   ("game_type", JStr "even_odd")].

Lemma invitations_value (config : Config) (w : World) (mp : MatchParams) :
  invitations config w mp
  = (JObj (invitation_envelope config w mp
           ++ [("role_in_match", JStr "PLAYER_A");
               ("opponent_id", JStr (player_B_id mp))]),
     JObj (invitation_envelope config w mp
           ++ [("role_in_match", JStr "PLAYER_B");
               ("opponent_id", JStr (player_A_id mp))])).
Proof. reflexivity. Qed.

End invitation_facts.

(** X14: each invitation names the real opponent: the one sent to player
    A has role [PLAYER_A] and player B as opponent, the one sent to B has
    role [PLAYER_B] and player A as opponent, and the two agree on every
    other field. *)
Theorem invitations_name_the_opponent
    (config : Orchestration.Config) (w : Orchestration.World)
    (mp : Orchestration.MatchParams) :
  let inv := Orchestration.invitations config w mp in
  Orchestration.json_field "role_in_match" inv.1
    = Some (Orchestration.JStr "PLAYER_A")
  ∧ Orchestration.json_field "opponent_id" inv.1
    = Some (Orchestration.JStr (Orchestration.player_B_id mp))
  ∧ Orchestration.json_field "role_in_match" inv.2
    = Some (Orchestration.JStr "PLAYER_B")
  ∧ Orchestration.json_field "opponent_id" inv.2
    = Some (Orchestration.JStr (Orchestration.player_A_id mp))
  ∧ Orchestration.json_field "match_id" inv.1
    = Some (Orchestration.JStr (Orchestration.p_match_id mp))
  ∧ ∀ k, k ≠ "role_in_match" → k ≠ "opponent_id" →
      Orchestration.json_field k inv.1 = Orchestration.json_field k inv.2.
Proof.
  rewrite invitations_value. cbn [fst snd].
  do 5 (split; [reflexivity|]).
  intros k Hrole Hopp.
  unfold invitation_envelope, Orchestration.json_field. cbn [app dict_get].
  repeat (case_decide; [first [reflexivity|contradiction]|]). reflexivity.
Qed.

(** X15: whatever the peers answer and however the run ends (returning or
    raising), the client is closed, as the last thing the run does and
    only then. *)
Theorem run_closes_the_client_last
    (config : Orchestration.Config) (w : Orchestration.World)
    (mp : Orchestration.MatchParams) :
  ∃ calls,
    Orchestration.trace (Orchestration.orchestrate_game config w mp).1
      = calls ++ [Orchestration.Close]
    ∧ Forall (λ e, e ≠ Orchestration.Close) calls.
Proof.
  unfold Orchestration.orchestrate_game.
  rewrite orchestrate_game_body_eq. unfold Orchestration.try_finally.
  match goal with
  | |- context [Orchestration.try_except ?m ?c ?h ?s] =>
      destruct (appends_body config w mp s) as (calls & Htr & Hcalls);
      destruct (Orchestration.try_except m c h s) as [s1 r]
  end.
  simpl in *. exists calls. by rewrite Htr.
Qed.

Section orchestration_paths.
Import StateMachine Orchestration Replies.
Variable config : Config.
Variable w : World.
Variable mp : MatchParams.

(** The dict [collect_choices] builds from two legal choices. *)
Definition both_choices (cA cB : string) : list (string * string) :=
  dict_set (player_B_id mp) cB [(player_A_id mp, cA)].

Lemma both_choices_cases (cA cB : string) :
  ∃ kc rest, both_choices cA cB = kc :: rest.
Proof.
  unfold both_choices. simpl. case_decide; eauto.
Qed.

(** The four requests of the first two phases. *)
Definition phase_calls : list event :=
  [Call (player_A_endpoint mp) "handle_game_invitation"
     (invitations config w mp).1;
   Call (player_B_endpoint mp) "handle_game_invitation"
     (invitations config w mp).2;
   Call (player_A_endpoint mp) "choose_parity"
     (choice_requests config w mp).1;
   Call (player_B_endpoint mp) "choose_parity"
     (choice_requests config w mp).2].

(** The run up to the end of the choice phase, when both players accept
    and both choose legally; [k] is what the run goes on with. *)
Lemma run_until_evaluation (k : option (list (string * string)) → M ())
    (cA cB : string) (s0 : run_state) :
  accepted (invitation_reply_A w) → accepted (invitation_reply_B w) →
  chose cA (choice_reply_A w) → chose cB (choice_reply_B w) →
  state (game s0) = WAITING_FOR_PLAYERS →
  ∃ s2,
    (success <- send_invitations config w mp ;;
     if negb success then ret ()
     else choices <- collect_choices config w mp ;; k choices) s0
    = k (Some (both_choices cA cB)) s2
    ∧ state (game s2) = DRAWING_NUMBER
    ∧ trace s2 = trace s0 ++ phase_calls
    ∧ (history (game s2)).*1
      = (history (game s0)).*1 ++ [COLLECTING_CHOICES; DRAWING_NUMBER].
Proof.
  intros (jA & iA & aA & HA & HA1 & HA2 & HA3)
         (jB & iB & aB & HB & HB1 & HB2 & HB3)
         (jcA & icA & HcA & HcA1 & HcA2 & HcAl)
         (jcB & icB & HcB & HcB1 & HcB2 & HcBl) Hstate.
  unfold phase_calls, send_invitations, collect_choices.
  destruct (invitations config w mp) as [ia ib].
  destruct (choice_requests config w mp) as [ca cb].
  unfold try_except, bind, emit. cbn [fst snd check_invitations].
  rewrite HA, HB. cbn [check_invitations]. unfold bind.
  rewrite HA1. cbn [lift_outcome ret]. rewrite HA2. cbn [lift_outcome ret].
  rewrite HA3. cbn [negb]. rewrite HB1. cbn [lift_outcome ret].
  rewrite HB2. cbn [lift_outcome ret]. rewrite HB3. cbn [negb].
  unfold game_transition, transition. cbn [game trace].
  rewrite Hstate. cbn -[legal_choice].
  rewrite HcA, HcB. cbn -[legal_choice]. unfold bind. rewrite HcA1.
  cbn -[legal_choice]. rewrite HcA2. cbn -[legal_choice].
  assert (LA : legal_choice (JStr cA) = Some cA).
  { unfold legal_choice. by rewrite bool_decide_eq_true_2. }
  assert (LB : legal_choice (JStr cB) = Some cB).
  { unfold legal_choice. by rewrite bool_decide_eq_true_2. }
  rewrite LA. cbn -[legal_choice]. rewrite HcB1. cbn -[legal_choice].
  rewrite HcB2. cbn -[legal_choice]. rewrite LB. cbn.
  eexists. split; [reflexivity|]. cbn.
  split; [done|]. split.
  - by rewrite <- !(assoc_L (++)).
  - rewrite !fmap_app. cbn. by rewrite <- !(assoc_L (++)).
Qed.

(** The result the referee computes from two legal choices. *)
Definition game_result (cA cB : string) : Scorer.GameResult :=
  Scorer.determine_winner (drawn w) (both_choices cA cB).

(** The [GAME_OVER] request and the report of a finished game. *)
Definition final_calls (cA cB : string) : list event :=
  let result := game_result cA cB in
  let game_over :=
    JObj [("protocol", JStr "league.v2");
          ("message_type", JStr "GAME_OVER");
          ("sender", JStr ("referee:" +:+ referee_id config));
          ("timestamp", JStr (utc_timestamp w));
          ("conversation_id", JStr ("conv" +:+ p_match_id mp +:+ "001"));
          ("auth_token", JStr (or_empty (auth_token config)));
          ("match_id", JStr (p_match_id mp));
          ("game_type", JStr "even_odd");
          ("game_result", json_result result)] in
  [Call (player_A_endpoint mp) "notify_match_result" game_over;
   Call (player_B_endpoint mp) "notify_match_result" game_over;
   Call (league_manager_endpoint config) "report_match_result"
     (report_params config w mp "report"
        (JObj [("winner", json_opt_str (Scorer.winner_player_id result));
               ("score", json_scores (Scorer.scores result));
               ("details",
                JObj [("drawn_number", JNum (Scorer.drawn_number result));
                      ("choices",
                       json_choices (Scorer.choices result))])]))].

Lemma bind_returned {A B} (m : M A) (k : A → M B) s s' a :
  m s = (s', Returned a) → bind m k s = k a s'.
Proof. unfold bind. by intros ->. Qed.

Lemma bind_raised {A B} (m : M A) (k : A → M B) s s' e :
  m s = (s', Raised e) → bind m k s = (s', Raised e).
Proof. unfold bind. by intros ->. Qed.

Lemma game_transition_edge (st : GameState) (s : run_state) :
  edge (state (game s)) st →
  game_transition w st s
  = (mkRun (mkGame (match_id (game s)) st
              (history (game s)
               ++ [(st, clock w (length (history (game s))))]))
       (trace s),
     Returned ()).
Proof.
  intros He. unfold game_transition, transition.
  rewrite bool_decide_eq_false_2; [done|].
  intros Hn. apply Hn. by apply edge_TRANSITIONS.
Qed.

Lemma game_transition_no_edge (st : GameState) (s : run_state) :
  ¬ edge (state (game s)) st →
  game_transition w st s
  = (s, Raised (ValueError ("Invalid transition: "
                            +:+ value (state (game s))
                            +:+ " -> " +:+ value st))).
Proof.
  intros He. unfold game_transition, transition.
  rewrite bool_decide_eq_true_2; [by destruct s|].
  intros Hin. by apply He, edge_TRANSITIONS.
Qed.

(** Drawing and evaluating after the choices were collected. *)
Lemma draw_and_evaluate_returns choices (s : run_state) :
  state (game s) = DRAWING_NUMBER →
  draw_and_evaluate w mp choices s
  = (mkRun
       (mkGame (match_id (game s)) FINISHED
          ((history (game s)
            ++ [(EVALUATING, clock w (length (history (game s))))])
           ++ [(FINISHED,
                clock w (length (history (game s)
                                 ++ [(EVALUATING,
                                      clock w (length (history (game s))))])))]))
       (trace s),
     Returned (Scorer.determine_winner (drawn w) choices)).
Proof.
  intros Hst. unfold draw_and_evaluate.
  erewrite bind_returned;
    [|apply game_transition_edge; rewrite Hst; constructor].
  erewrite bind_returned; [|apply game_transition_edge; constructor].
  reflexivity.
Qed.

(** A run in which both players accept and choose legally. *)
Lemma run_of_a_played_game (cA cB : string) :
  accepted (invitation_reply_A w) → accepted (invitation_reply_B w) →
  chose cA (choice_reply_A w) → chose cB (choice_reply_B w) →
  let r := orchestrate_game config w mp in
  state (game r.1) = FINISHED
  ∧ (history (game r.1)).*1
    = [WAITING_FOR_PLAYERS; COLLECTING_CHOICES; DRAWING_NUMBER;
       EVALUATING; FINISHED]
  ∧ trace r.1 = phase_calls ++ final_calls cA cB ++ [Close]
  ∧ match league_reply w with
    | Returned _ => r.2 = Returned ()
    | Raised _ =>
        r.2 = Raised (ValueError "Invalid transition: finished -> aborted")
    end.
Proof.
  intros HA HB HcA HcB.
  unfold orchestrate_game, orchestrate_game_body, try_finally, try_except.
  match goal with
  | |- context [bind (send_invitations _ _ _) ?f ?s] =>
      destruct (run_until_evaluation
                  (λ choices,
                     match choices with
                     | None | Some [] => ret ()
                     | Some choices =>
                         result <- draw_and_evaluate w mp choices ;;
                         notify_players config w mp result ;;;
                         report_result config w mp result
                     end) cA cB s HA HB HcA HcB eq_refl)
        as (s2 & Hrun & Hst & Htr & Hhist)
  end.
  rewrite Hrun. clear Hrun.
  unfold final_calls, game_result.
  destruct (both_choices_cases cA cB) as (kc & rest & Hkc). rewrite Hkc.
  erewrite bind_returned; [|by apply draw_and_evaluate_returns].
  unfold notify_players, report_result, bind, emit.
  cbn [game trace fst snd ret].
  destruct (league_reply w) as [j|e]; cbn [lift_outcome ret raise fst snd].
  - cbn [game trace history state fst snd].
    rewrite Htr, !fmap_app, Hhist. repeat split; reflexivity.
  - rewrite game_transition_no_edge by (cbn; inversion 1).
    cbn [game trace history state fst snd emit].
    rewrite Htr, !fmap_app, Hhist. repeat split; reflexivity.
Qed.

End orchestration_paths.

Module DemoReplies.
Import Orchestration Replies.

Lemma accepts_accepted : accepted Demo.accepts.
Proof. by eexists _, _, _. Defined.

Lemma chooses_chose (c : string) :
  c = "even" ∨ c = "odd" → chose c (Demo.chooses c).
Proof. intros Hc. by eexists _, _. Defined.

End DemoReplies.

Lemma result_report_is_no_abort config w mp conv winner score details :
  Orchestration.is_aborted_report
    (Orchestration.report_params config w mp conv
       (Orchestration.JObj
          [("winner", winner); ("score", score); ("details", details)]))
  = false.
Proof. reflexivity. Qed.

(** X16: when both players accept and both answer with a legal choice,
    the run goes through all five states, sends the two invitations, the
    two choice requests, the same [GAME_OVER] to both players and one
    report to the league manager, built from [determine_winner] on the
    drawn number and the two choices, then closes the client; it returns
    when the league manager answers. *)
Theorem played_game_is_notified_and_reported
    (config : Orchestration.Config) (w : Orchestration.World)
    (mp : Orchestration.MatchParams) (cA cB : string) :
  Replies.accepted (Orchestration.invitation_reply_A w) →
  Replies.accepted (Orchestration.invitation_reply_B w) →
  Replies.chose cA (Orchestration.choice_reply_A w) →
  Replies.chose cB (Orchestration.choice_reply_B w) →
  (∃ j, Orchestration.league_reply w = Returned j) →
  let r := Orchestration.orchestrate_game config w mp in
  r.2 = Returned ()
  ∧ StateMachine.state (Orchestration.game r.1) = StateMachine.FINISHED
  ∧ (StateMachine.history (Orchestration.game r.1)).*1
    = [StateMachine.WAITING_FOR_PLAYERS; StateMachine.COLLECTING_CHOICES;
       StateMachine.DRAWING_NUMBER; StateMachine.EVALUATING;
       StateMachine.FINISHED]
  ∧ Orchestration.trace r.1
    = phase_calls config w mp ++ final_calls config w mp cA cB
      ++ [Orchestration.Close].
Proof.
  intros HA HB HcA HcB [j Hj] r.
  destruct (run_of_a_played_game config w mp cA cB HA HB HcA HcB)
    as (Hst & Hh & Htr & Hout).
  rewrite Hj in Hout. done.
Qed.

Lemma played_game_is_notified_and_reported_witness :
  (Orchestration.orchestrate_game Demo.config
     (Demo.world Demo.accepts Demo.accepts
        (Demo.chooses "even") (Demo.chooses "odd"))
     Demo.params).2 = Returned ().
Proof.
  refine (proj1 (played_game_is_notified_and_reported Demo.config
                   (Demo.world Demo.accepts Demo.accepts
                      (Demo.chooses "even") (Demo.chooses "odd"))
                   Demo.params "even" "odd" _ _ _ _ _)).
  - exact DemoReplies.accepts_accepted.
  - exact DemoReplies.accepts_accepted.
  - apply DemoReplies.chooses_chose. by left.
  - apply DemoReplies.chooses_chose. by right.
  - eexists. reflexivity.
Defined.

(** X17: when the game was played but the call that reports the result
    to the league manager raises, the handler's transition to [ABORTED]
    is refused from [FINISHED]: [orchestrate_game] raises
    ["Invalid transition: finished -> aborted"] in place of the delivery
    error, the machine stays [FINISHED], and no [ABORTED] report is
    sent. *)
Theorem failed_report_raises_invalid_transition
    (config : Orchestration.Config) (w : Orchestration.World)
    (mp : Orchestration.MatchParams) (cA cB : string) (e : exn) :
  Replies.accepted (Orchestration.invitation_reply_A w) →
  Replies.accepted (Orchestration.invitation_reply_B w) →
  Replies.chose cA (Orchestration.choice_reply_A w) →
  Replies.chose cB (Orchestration.choice_reply_B w) →
  Orchestration.league_reply w = Raised e →
  let r := Orchestration.orchestrate_game config w mp in
  r.2 = Raised (ValueError "Invalid transition: finished -> aborted")
  ∧ StateMachine.state (Orchestration.game r.1) = StateMachine.FINISHED
  ∧ Orchestration.reports_abort config (Orchestration.trace r.1) = false
  ∧ Replies.tools (Orchestration.trace r.1)
    = ["handle_game_invitation"; "handle_game_invitation";
       "choose_parity"; "choose_parity";
       "notify_match_result"; "notify_match_result";
       "report_match_result"; "close"].
Proof.
  intros HA HB HcA HcB He r.
  destruct (run_of_a_played_game config w mp cA cB HA HB HcA HcB)
    as (Hst & Hh & Htr & Hout).
  rewrite He in Hout. fold r in Hst, Htr, Hout.
  split; [done|]. split; [done|]. rewrite Htr. split; [|reflexivity].
  unfold Orchestration.reports_abort, phase_calls, final_calls.
  cbn [app Orchestration.calls_to mbind list_bind].
  repeat (rewrite decide_False by discriminate; cbn [app]).
  rewrite decide_True by done. cbn [app existsb fst snd].
  by rewrite result_report_is_no_abort, andb_false_r.
Qed.

Lemma failed_report_raises_invalid_transition_witness :
  (Orchestration.orchestrate_game Demo.config
     (Orchestration.mkWorld Demo.accepts Demo.accepts
        (Demo.chooses "even") (Demo.chooses "odd") 7 Demo.fails
        Z.of_nat "2025-01-15T10:30:00Z" "20250115T103030Z")
     Demo.params).2
  = Raised (ValueError "Invalid transition: finished -> aborted").
Proof.
  refine (proj1 (failed_report_raises_invalid_transition Demo.config
                   (Orchestration.mkWorld Demo.accepts Demo.accepts
                      (Demo.chooses "even") (Demo.chooses "odd") 7
                      Demo.fails Z.of_nat "2025-01-15T10:30:00Z"
                      "20250115T103030Z")
                   Demo.params "even" "odd" _ _ _ _ _ eq_refl)).
  - exact DemoReplies.accepts_accepted.
  - exact DemoReplies.accepts_accepted.
  - apply DemoReplies.chooses_chose. by left.
  - apply DemoReplies.chooses_chose. by right.
Defined.

Section orchestration_aborts.
Import StateMachine Orchestration Replies.
Variable config : Config.
Variable w : World.
Variable mp : MatchParams.

(** [check_invitations] answers true only when every reply accepts. *)
Lemma check_invitations_true (results : list reply) (s : run_state) :
  (check_invitations w results s).2 = Returned true →
  Forall accepted results.
Proof.
  revert s. induction results as [|[j|e] rest IH]; intros s; simpl.
  - constructor.
  - unfold bind at 1.
    destruct (py_get j "result" (JObj [])) as [inner|e1] eqn:H1;
      simpl; [|done].
    unfold bind at 1.
    destruct (py_get inner "accept" (JBool false)) as [a|e2] eqn:H2;
      simpl; [|done].
    destruct (truthy a) eqn:Ha; simpl.
    + intros Hrest. constructor; [|by eapply IH]. by exists j, inner, a.
    + unfold bind. destruct (game_transition w ABORTED s) as [s' [[]|e']];
        simpl; done.
  - unfold bind. destruct (game_transition w ABORTED s) as [s' [[]|e']];
      simpl; done.
Qed.

Lemma send_invitations_true (s : run_state) :
  (send_invitations config w mp s).2 = Returned true →
  accepted (invitation_reply_A w) ∧ accepted (invitation_reply_B w).
Proof.
  unfold send_invitations. destruct (invitations config w mp) as [ia ib].
  unfold try_except, bind at 1, emit. cbn [fst snd].
  unfold bind at 1. cbn [fst snd].
  destruct (check_invitations w _ _) as [s1 [b|e]] eqn:Hc; simpl.
  - intros [= ->].
    assert (H : Forall accepted [invitation_reply_A w; invitation_reply_B w]).
    { eapply check_invitations_true. by rewrite Hc. }
    inversion H as [|?? HA H']; subst. inversion H' as [|?? HB _]; subst.
    done.
  - destruct (is_timeout e); [|done].
    unfold bind. destruct (game_transition w ABORTED s1) as [s' [[]|e']];
      simpl; done.
Qed.

(** Events other than a choice request. *)
Definition no_choice_request (e : event) : Prop :=
  match e with
  | Call _ tool _ => tool ≠ "choose_parity"
  | Close => True
  end.

Lemma calls_to_choose_parity_none (tr : list event) :
  Forall no_choice_request tr → calls_to "choose_parity" tr = [].
Proof.
  unfold calls_to. induction 1 as [|e tr He Htr IH]; [done|].
  cbn [mbind list_bind] in *. rewrite IH, app_nil_r.
  destruct e as [endpoint tool params|]; [|done].
  simpl in He. by rewrite decide_False.
Qed.

Lemma choice_requests_need_acceptance :
  calls_to "choose_parity" (trace (orchestrate_game config w mp).1) ≠ [] →
  accepted (invitation_reply_A w) ∧ accepted (invitation_reply_B w).
Proof.
  unfold orchestrate_game. rewrite orchestrate_game_body_eq.
  unfold try_finally, try_except, bind at 1, emit.
  match goal with
  | |- context [send_invitations _ _ _ ?s0] =>
      destruct (appends_send_invitations config w mp no_choice_request
                  ltac:(intros; simpl; discriminate) s0)
        as (ev1 & Htr1 & Hev1);
      pose proof (send_invitations_true s0) as Htrue;
      destruct (send_invitations config w mp s0) as [s1 [b|e]]
  end; cbn [fst snd] in *.
  - destruct b; [intros _; exact (Htrue eq_refl)|].
    cbn. rewrite Htr1. intros Hne. exfalso. apply Hne.
    apply calls_to_choose_parity_none.
    apply Forall_app. split; [done|]. by repeat constructor.
  - destruct (appends_abort_handler config w mp no_choice_request e
                ltac:(intros; simpl; discriminate) s1)
      as (ev2 & Htr2 & Hev2).
    destruct (abort_handler config w mp e s1) as [s2 o]; cbn [fst snd] in *.
    cbn [trace fst]. intros Hne. exfalso. apply Hne.
    apply calls_to_choose_parity_none.
    rewrite Htr2, Htr1. repeat (apply Forall_app; split); try done.
    by repeat constructor.
Qed.

Lemma py_get_raises (j : Json) (k : string) (dflt : Json) (e : exn) :
  py_get j k dflt = Raised e → is_timeout e = false.
Proof. destruct j; simpl; intros [= <-]; done. Qed.

(** A game whose first invitation is answered with a malformed response. *)
Lemma run_with_malformed_invitation (e : exn) :
  malformed e "accept" (JBool false) (invitation_reply_A w) →
  let r := orchestrate_game config w mp in
  r.2 = Returned ()
  ∧ state (game r.1) = ABORTED
  ∧ trace r.1
    = [Call (player_A_endpoint mp) "handle_game_invitation"
         (invitations config w mp).1;
       Call (player_B_endpoint mp) "handle_game_invitation"
         (invitations config w mp).2;
       Call (league_manager_endpoint config) "report_match_result"
         (report_params config w mp "abort"
            (JObj [("status", JStr "ABORTED");
                   ("reason", JStr (exn_str e))]));
       Close].
Proof.
  intros (j & Hj & Hbad).
  unfold orchestrate_game, orchestrate_game_body, send_invitations.
  destruct (invitations config w mp) as [ia ib].
  unfold try_finally, try_except, bind at 1 2 3, emit. cbn [fst snd].
  rewrite Hj. cbn [check_invitations]. unfold bind at 1.
  assert (Ht : is_timeout e = false).
  { destruct Hbad as [Hb|(inner & _ & Hb)]; by eapply py_get_raises. }
  assert (Hinit : edge (state (init (p_match_id mp) (clock w 0))) ABORTED)
    by constructor.
  destruct Hbad as [Hb|(inner & Hb1 & Hb2)].
  - rewrite Hb. cbn -[report_params game_transition init]. rewrite Ht.
    cbn -[report_params game_transition init].
    erewrite bind_returned; [|apply game_transition_edge; exact Hinit].
    unfold report_aborted_game, try_except, bind, emit.
    cbn -[report_params init].
    destruct (league_reply w); cbn -[report_params]; done.
  - rewrite Hb1. cbn -[report_params game_transition init]. rewrite Hb2.
    cbn -[report_params game_transition init]. rewrite Ht.
    cbn -[report_params game_transition init].
    erewrite bind_returned; [|apply game_transition_edge; exact Hinit].
    unfold report_aborted_game, try_except, bind, emit.
    cbn -[report_params init].
    destruct (league_reply w); cbn -[report_params]; done.
Qed.

End orchestration_aborts.

(** X18: a choice request is sent only after both players accepted the
    invitation: when the run calls [choose_parity] at all, both invitation
    replies were responses with a true [result.accept]. A rejection, a
    timeout, a failed call or a malformed reply of either player ends the
    run before any choice is asked for. *)
Theorem choices_are_requested_only_after_acceptance
    (config : Orchestration.Config) (w : Orchestration.World)
    (mp : Orchestration.MatchParams) :
  Orchestration.calls_to "choose_parity"
    (Orchestration.trace (Orchestration.orchestrate_game config w mp).1)
  ≠ [] →
  Replies.accepted (Orchestration.invitation_reply_A w)
  ∧ Replies.accepted (Orchestration.invitation_reply_B w).
Proof. apply choice_requests_need_acceptance. Qed.

Lemma choices_are_requested_only_after_acceptance_witness :
  Replies.accepted Demo.accepts ∧ Replies.accepted Demo.accepts.
Proof.
  refine (choices_are_requested_only_after_acceptance Demo.config
            (Demo.world Demo.accepts Demo.accepts
               (Demo.chooses "even") (Demo.chooses "odd"))
            Demo.params _).
  vm_compute. discriminate.
Defined.

(** The text of the error that [.get] raises on a value that is no
    dict. *)
Lemma py_get_raised_text (j : Orchestration.Json) (k : string)
    (dflt : Orchestration.Json) (e : exn) :
  Orchestration.py_get j k dflt = Raised e →
  (∀ fields, j ≠ Orchestration.JObj fields)
  ∧ exn_str e
    = "'" +:+ Orchestration.type_name j
      +:+ "' object has no attribute 'get'".
Proof. destruct j; simpl; intros [= <-]; split; done. Qed.

(** X19: when player A answers the invitation with a response that is no
    object, or whose [result] is no object, reading it raises inside
    [send_invitations]; the error is no timeout, so it reaches the handler
    of [orchestrate_game]: the machine goes to [ABORTED], one report with
    status [ABORTED] and the error text as reason is sent to the league
    manager after the two invitations, the client is closed, and the
    coroutine returns whether or not the report was delivered.  The
    reason is Python's text for the failed [.get]: the type name of the
    value that is no dict, as in
    ['str' object has no attribute 'get']. *)
Theorem malformed_invitation_reply_is_reported_as_aborted
    (config : Orchestration.Config) (w : Orchestration.World)
    (mp : Orchestration.MatchParams) (e : exn) :
  Replies.malformed e "accept" (Orchestration.JBool false)
    (Orchestration.invitation_reply_A w) →
  let r := Orchestration.orchestrate_game config w mp in
  r.2 = Returned ()
  ∧ StateMachine.state (Orchestration.game r.1) = StateMachine.ABORTED
  ∧ Orchestration.reports_abort config (Orchestration.trace r.1) = true
  ∧ Orchestration.trace r.1
    = [Orchestration.Call (Orchestration.player_A_endpoint mp)
         "handle_game_invitation" (Orchestration.invitations config w mp).1;
       Orchestration.Call (Orchestration.player_B_endpoint mp)
         "handle_game_invitation" (Orchestration.invitations config w mp).2;
       Orchestration.Call (Orchestration.league_manager_endpoint config)
         "report_match_result"
         (Orchestration.report_params config w mp "abort"
            (Orchestration.JObj
               [("status", Orchestration.JStr "ABORTED");
                ("reason", Orchestration.JStr (exn_str e))]));
       Orchestration.Close]
  ∧ ∃ response bad,
      Orchestration.invitation_reply_A w = Returned response
      ∧ (bad = response
         ∨ Orchestration.py_get response "result" (Orchestration.JObj [])
           = Returned bad)
      ∧ (∀ fields, bad ≠ Orchestration.JObj fields)
      ∧ exn_str e
        = "'" +:+ Orchestration.type_name bad
          +:+ "' object has no attribute 'get'".
Proof.
  intros Hbad r.
  destruct (run_with_malformed_invitation config w mp e Hbad)
    as (Hout & Hst & Htr).
  fold r in Hout, Hst, Htr.
  split; [done|]. split; [done|]. split; [|split; [done|]].
  - rewrite Htr. unfold Orchestration.reports_abort.
    cbn [Orchestration.calls_to mbind list_bind app].
    repeat (rewrite decide_False by discriminate; cbn [app]).
    rewrite decide_True by done. cbn [app existsb fst snd].
    rewrite bool_decide_true by done. reflexivity.
  - destruct Hbad as (j & Hj & [Hb|(inner & Hb1 & Hb2)]).
    + exists j, j. split; [done|]. split; [by left|].
      by eapply py_get_raised_text.
    + exists j, inner. split; [done|]. split; [by right|].
      by eapply py_get_raised_text.
Qed.

Lemma malformed_invitation_reply_is_reported_as_aborted_witness :
  Orchestration.trace
    (Orchestration.orchestrate_game Demo.config
       (Demo.world (Returned (Orchestration.JStr "busy")) Demo.accepts
          (Demo.chooses "even") (Demo.chooses "odd"))
       Demo.params).1
  = [Orchestration.Call "http://localhost:8101/mcp" "handle_game_invitation"
       (Orchestration.invitations Demo.config
          (Demo.world (Returned (Orchestration.JStr "busy")) Demo.accepts
             (Demo.chooses "even") (Demo.chooses "odd"))
          Demo.params).1;
     Orchestration.Call "http://localhost:8102/mcp" "handle_game_invitation"
       (Orchestration.invitations Demo.config
          (Demo.world (Returned (Orchestration.JStr "busy")) Demo.accepts
             (Demo.chooses "even") (Demo.chooses "odd"))
          Demo.params).2;
     Orchestration.Call "http://localhost:8000/mcp" "report_match_result"
       (Orchestration.report_params Demo.config
          (Demo.world (Returned (Orchestration.JStr "busy")) Demo.accepts
             (Demo.chooses "even") (Demo.chooses "odd"))
          Demo.params "abort"
          (Orchestration.JObj
             [("status", Orchestration.JStr "ABORTED");
              ("reason",
               Orchestration.JStr "'str' object has no attribute 'get'")]));
     Orchestration.Close].
Proof.
  refine (proj1 (proj2 (proj2 (proj2
            (malformed_invitation_reply_is_reported_as_aborted
               Demo.config
               (Demo.world (Returned (Orchestration.JStr "busy"))
                  Demo.accepts (Demo.chooses "even")
                  (Demo.chooses "odd"))
               Demo.params
               (OtherError "'str' object has no attribute 'get'") _))))).
  eexists. split; [reflexivity|]. left. reflexivity.
Defined.

(** ** More on the round manager *)

Module RoundPlay.
Import RoundManager.

(** The calls that play one round: it is started, every match of it is
    marked complete in schedule order, and it is completed. *)
Definition play_round (round_number : Z) (matches : list Match) : list call :=
  StartRound round_number
  :: ((λ mt, MarkMatchComplete (match_id mt) round_number) <$> matches)
  ++ [CompleteRound round_number].

(** The rounds of [schedule] played one after the other, the first of
    them being round [round_idx + 1]. *)
Fixpoint play_from (round_idx : Z) (schedule : list (list Match))
  : list call :=
  match schedule with
  | [] => []
  | matches :: rest =>
      play_round (round_idx + 1) matches ++ play_from (round_idx + 1) rest
  end.

(** A tournament on a new manager: the schedule is loaded and its rounds
    are played in order. *)
Definition play (schedule : list (list Match)) : list call :=
  InitializeTournament schedule :: play_from 0 schedule.

(** Every round with matches has an entry for its completed matches and
    a status. *)
Definition aligned (m : RoundManager) : Prop :=
  ∀ n, (is_Some (round_matches m !! n) ↔ is_Some (completed_matches m !! n))
       ∧ (is_Some (round_matches m !! n) → is_Some (round_status m !! n)).

End RoundPlay.

Section round_manager_more.
Import RoundManager RoundPlay.

Lemma initialize_rounds_spec (schedule : list (list Match)) :
  ∀ (round_idx : Z) (m : RoundManager),
    let m' := initialize_rounds round_idx schedule m in
    current_round m' = current_round m
    ∧ total_rounds m' = total_rounds m
    ∧ (∀ (i : nat) matches,
         schedule !! i = Some matches →
         round_status m' !! (round_idx + Z.of_nat i + 1) = Some PENDING
         ∧ round_matches m' !! (round_idx + Z.of_nat i + 1) = Some matches
         ∧ completed_matches m' !! (round_idx + Z.of_nat i + 1) = Some ∅)
    ∧ (∀ n, ¬ (round_idx < n ≤ round_idx + Z.of_nat (length schedule)) →
         round_status m' !! n = round_status m !! n
         ∧ round_matches m' !! n = round_matches m !! n
         ∧ completed_matches m' !! n = completed_matches m !! n).
Proof.
  induction schedule as [|matches rest IH]; intros round_idx m; simpl.
  - repeat split; done.
  - specialize (IH (round_idx + 1)
                  (mkManager (current_round m)
                     (<[round_idx + 1 := PENDING]> (round_status m))
                     (<[round_idx + 1 := matches]> (round_matches m))
                     (<[round_idx + 1 := ∅]> (completed_matches m))
                     (total_rounds m))).
    simpl in IH. destruct IH as (Hc & Ht & Hin & Hout).
    split; [done|]. split; [done|]. split.
    + intros [|i] ms Hi; simpl in Hi.
      * injection Hi as ->.
        destruct (Hout (round_idx + 1) ltac:(lia)) as (H1 & H2 & H3).
        replace (round_idx + Z.of_nat 0 + 1) with (round_idx + 1) by lia.
        rewrite H1, H2, H3. by rewrite !lookup_insert_eq.
      * replace (round_idx + Z.of_nat (S i) + 1)
          with (round_idx + 1 + Z.of_nat i + 1) by lia.
        by apply Hin.
    + intros n Hn. destruct (Hout n ltac:(lia)) as (-> & -> & ->).
      rewrite !lookup_insert_ne by lia. done.
Qed.

Lemma after_aligned (c : call) (m : RoundManager) :
  aligned m → aligned (after c m).
Proof.
  intros Hm. destruct c as [schedule|n|id n|n]; simpl.
  - unfold initialize_tournament.
    destruct (initialize_rounds_spec schedule 0
                (mkManager None (round_status m) (round_matches m)
                   (completed_matches m) (Z.of_nat (length schedule))))
      as (_ & _ & Hin & Hout).
    intros n.
    destruct (decide (0 < n ≤ 0 + Z.of_nat (length schedule))) as [Hn|Hn].
    + destruct (lookup_lt_is_Some_2 schedule (Z.to_nat (n - 1))
                  ltac:(lia)) as [ms Hms].
      destruct (Hin _ _ Hms) as (Hs & Hr & Hd).
      replace (0 + Z.of_nat (Z.to_nat (n - 1)) + 1) with n in * by lia.
      rewrite Hs, Hr, Hd. split; [split|]; eauto.
    + destruct (Hout n Hn) as (-> & -> & ->). apply Hm.
  - unfold start_round.
    destruct (round_matches m !! n) eqn:Hr; [|done].
    destruct (round_status m !! n) eqn:Hs; [|done].
    case_decide; [done|]. intros k. simpl. destruct (Hm k) as [H1 H2].
    split; [done|]. intros Hk. rewrite lookup_insert. case_decide; eauto.
  - unfold mark_match_complete.
    destruct (completed_matches m !! n) as [marked|] eqn:Hd; [|done].
    assert (Hal : aligned
              (mkManager (current_round m) (round_status m) (round_matches m)
                 (<[n := marked ∪ {[id]}]> (completed_matches m))
                 (total_rounds m))).
    { intros k. simpl. destruct (Hm k) as [H1 H2]. split; [|done].
      rewrite lookup_insert. case_decide; [subst|done].
      rewrite H1, Hd. split; eauto. }
    by destruct (round_matches m !! n).
  - unfold complete_round.
    assert (Hal : aligned
              (mkManager (current_round m)
                 (<[n := COMPLETED]> (round_status m)) (round_matches m)
                 (completed_matches m) (total_rounds m))).
    { intros k. simpl. destruct (Hm k) as [H1 H2]. split; [done|].
      intros Hk. rewrite lookup_insert. case_decide; eauto. }
    by destruct (round_matches m !! n).
Qed.

Lemma reachable_aligned (m : RoundManager) : reachable m → aligned m.
Proof.
  intros [calls ->]. unfold run.
  induction calls as [|c calls IH] using rev_ind.
  - intros n. simpl. rewrite !lookup_empty. split; [split|]; by intros [].
  - rewrite foldl_app. simpl. by apply after_aligned.
Qed.

Lemma all_succeed_app (l1 l2 : list call) (m : RoundManager) :
  all_succeed (l1 ++ l2) m
  = all_succeed l1 m && all_succeed l2 (foldl (λ m c, after c m) m l1).
Proof.
  revert m. induction l1 as [|c l1 IH]; intros m; simpl; [done|].
  by rewrite IH, andb_assoc.
Qed.

(** Marking matches of a round that exists returns, and changes nothing
    but the completed matches of that round. *)
Lemma marks_succeed (n : Z) (ids : list string) (m : RoundManager) :
  is_Some (round_matches m !! n) → is_Some (completed_matches m !! n) →
  let calls := (λ id, MarkMatchComplete id n) <$> ids in
  let m' := foldl (λ m c, after c m) m calls in
  all_succeed calls m = true
  ∧ current_round m' = current_round m
  ∧ round_status m' = round_status m
  ∧ round_matches m' = round_matches m
  ∧ total_rounds m' = total_rounds m
  ∧ (∀ k, is_Some (completed_matches m' !! k)
          ↔ is_Some (completed_matches m !! k)).
Proof.
  revert m. induction ids as [|id ids IH]; intros m Hr Hd.
  - simpl. repeat split; done.
  - destruct Hr as [ms Hr], Hd as [marked Hd].
    cbn [fmap list_fmap all_succeed foldl succeeds after].
    assert (Hmark : ∃ b, mark_match_complete id n m
              = (mkManager (current_round m) (round_status m)
                   (round_matches m)
                   (<[n := marked ∪ {[id]}]> (completed_matches m))
                   (total_rounds m), Returned b)).
    { unfold mark_match_complete. rewrite Hd, Hr. eauto. }
    destruct Hmark as [b ->]. cbn [fst snd andb].
    set (m1 := mkManager _ _ _ _ _).
    destruct (IH m1) as (Hs & Hc & Hst & Hrm & Ht & Hk).
    { simpl. eauto. }
    { simpl. rewrite lookup_insert_eq. eauto. }
    split; [done|]. split; [done|]. split; [done|]. split; [done|].
    split; [done|]. intros k. rewrite Hk. simpl.
    rewrite lookup_insert. case_decide; [subst|done].
    rewrite Hd. split; eauto.
Qed.

(** The state of a manager in which the first [k] rounds of the schedule
    are completed and the others pending. *)
Definition played_upto (k : Z) (schedule : list (list Match))
    (m : RoundManager) : Prop :=
  (∀ n, round_status m !! n
        = if decide (1 ≤ n ≤ k) then Some COMPLETED
          else if decide (k < n ≤ Z.of_nat (length schedule))
               then Some PENDING else None)
  ∧ (∀ n, round_matches m !! n
          = if decide (1 ≤ n ≤ Z.of_nat (length schedule))
            then schedule !! Z.to_nat (n - 1) else None)
  ∧ (∀ n, is_Some (completed_matches m !! n)
          ↔ 1 ≤ n ≤ Z.of_nat (length schedule)).

Lemma play_round_spec (k : Z) (schedule : list (list Match))
    (matches : list Match) (m : RoundManager) :
  0 ≤ k → schedule !! Z.to_nat k = Some matches →
  played_upto k schedule m →
  let m' := foldl (λ m c, after c m) m (play_round (k + 1) matches) in
  all_succeed (play_round (k + 1) matches) m = true
  ∧ played_upto (k + 1) schedule m'
  ∧ current_round m' = Some (k + 1)
  ∧ total_rounds m' = total_rounds m.
Proof.
  intros Hk Hms (Hst & Hrm & Hcm) m'. unfold m'. clear m'.
  assert (Hlen : k + 1 ≤ Z.of_nat (length schedule)).
  { apply lookup_lt_Some in Hms. lia. }
  assert (Hr : round_matches m !! (k + 1) = Some matches).
  { rewrite Hrm, decide_True by lia.
    by replace (k + 1 - 1) with k by lia. }
  assert (Hs : round_status m !! (k + 1) = Some PENDING).
  { rewrite Hst, decide_False, decide_True by lia. done. }
  assert (Hstart : start_round (k + 1) m
            = (mkManager (Some (k + 1))
                 (<[k + 1 := IN_PROGRESS]> (round_status m))
                 (round_matches m) (completed_matches m) (total_rounds m),
               Returned ())).
  { unfold start_round. rewrite Hr, Hs.
    by rewrite decide_False by (intros H; by apply H). }
  unfold play_round. cbn [all_succeed foldl succeeds after].
  rewrite Hstart. cbn [fst snd].
  set (m1 := mkManager _ _ _ _ _).
  assert (Hfm : (λ mt : Match, MarkMatchComplete (match_id mt) (k + 1))
                <$> matches
                = (λ id, MarkMatchComplete id (k + 1))
                  <$> (match_id <$> matches))
    by (by rewrite <- list_fmap_compose).
  rewrite all_succeed_app, foldl_app, Hfm.
  destruct (marks_succeed (k + 1) (match_id <$> matches) m1)
    as (Hok & Hc & Hst2 & Hrm2 & Ht & Hcm2).
  { simpl. eauto. }
  { simpl. apply Hcm. lia. }
  rewrite Hok. set (m2 := foldl _ m1 _) in *.
  cbn [all_succeed foldl succeeds after andb].
  assert (Hcr : complete_round (k + 1) m2
            = (mkManager (current_round m2)
                 (<[k + 1 := COMPLETED]> (round_status m2))
                 (round_matches m2) (completed_matches m2)
                 (total_rounds m2),
               Returned ())).
  { unfold complete_round. rewrite Hrm2. cbn [round_matches m1].
    by rewrite Hr. }
  rewrite Hcr. cbn [fst snd current_round total_rounds].
  split; [done|]. split; [|split; [by rewrite Hc|by rewrite Ht]].
  split; [|split]; cbn [round_status round_matches completed_matches].
  - intros n. rewrite Hst2. cbn [round_status m1].
    rewrite !lookup_insert, Hst. repeat case_decide; try done; lia.
  - intros n. by rewrite Hrm2.
  - intros n. rewrite Hcm2. apply Hcm.
Qed.

Lemma play_from_spec (rest : list (list Match)) :
  ∀ (k : Z) (schedule : list (list Match)) (m : RoundManager),
    0 ≤ k →
    (∀ (i : nat) ms, rest !! i = Some ms →
       schedule !! (Z.to_nat k + i)%nat = Some ms) →
    played_upto k schedule m →
    let m' := foldl (λ m c, after c m) m (play_from k rest) in
    all_succeed (play_from k rest) m = true
    ∧ played_upto (k + Z.of_nat (length rest)) schedule m'
    ∧ (rest ≠ [] → current_round m' = Some (k + Z.of_nat (length rest)))
    ∧ total_rounds m' = total_rounds m.
Proof.
  induction rest as [|ms rest IH]; intros k schedule m Hk Hsub Hm m';
    unfold m'; clear m'; cbn [play_from length].
  - cbn [foldl all_succeed]. change (Z.of_nat 0) with 0.
    rewrite Z.add_0_r. done.
  - destruct (play_round_spec k schedule ms m Hk) as (Hok & Hm1 & Hc1 & Ht1).
    { specialize (Hsub 0%nat ms eq_refl).
      by replace (Z.to_nat k + 0)%nat with (Z.to_nat k) in Hsub by lia. }
    { done. }
    rewrite all_succeed_app, foldl_app, Hok.
    set (m1 := foldl _ m (play_round _ _)) in *.
    destruct (IH (k + 1) schedule m1) as (Hok2 & Hm2 & Hc2 & Ht2).
    { lia. }
    { intros i ms' Hi. specialize (Hsub (S i) ms' Hi).
      by replace (Z.to_nat (k + 1) + i)%nat
        with (Z.to_nat k + S i)%nat by lia. }
    { done. }
    rewrite Hok2.
    replace (k + Z.of_nat (S (length rest)))
      with (k + 1 + Z.of_nat (length rest)) by lia.
    split; [done|]. split; [done|]. split; [|congruence].
    intros _. destruct rest as [|ms' rest'].
    + simpl. rewrite Hc1. f_equal. lia.
    + by apply Hc2.
Qed.

Lemma initialize_tournament_spec_fresh (schedule : list (list Match)) :
  played_upto 0 schedule (initialize_tournament schedule init)
  ∧ total_rounds (initialize_tournament schedule init)
    = Z.of_nat (length schedule).
Proof.
  unfold initialize_tournament.
  destruct (initialize_rounds_spec schedule 0
              (mkManager None (round_status init) (round_matches init)
                 (completed_matches init) (Z.of_nat (length schedule))))
    as (_ & Ht & Hin & Hout).
  split; [|done].
  assert (Hcase : ∀ n, 1 ≤ n ≤ Z.of_nat (length schedule) →
            ∃ ms, schedule !! Z.to_nat (n - 1) = Some ms
                  ∧ n = 0 + Z.of_nat (Z.to_nat (n - 1)) + 1).
  { intros n Hn.
    destruct (lookup_lt_is_Some_2 schedule (Z.to_nat (n - 1)) ltac:(lia))
      as [ms Hms].
    exists ms. split; [done|lia]. }
  split; [|split]; intros n.
  - rewrite decide_False by lia. case_decide as Hn.
    + destruct (Hcase n ltac:(lia)) as (ms & Hms & Heq).
      rewrite Heq at 1. by apply (Hin _ _ Hms).
    + destruct (Hout n ltac:(lia)) as (-> & _ & _). apply lookup_empty.
  - case_decide as Hn.
    + destruct (Hcase n Hn) as (ms & Hms & Heq). rewrite Hms.
      rewrite Heq at 1. by apply (Hin _ _ Hms).
    + destruct (Hout n ltac:(lia)) as (_ & -> & _). apply lookup_empty.
  - split.
    + intros Hs. destruct (decide (1 ≤ n ≤ Z.of_nat (length schedule)))
        as [|Hn]; [done|].
      destruct (Hout n ltac:(lia)) as (_ & _ & Hd). rewrite Hd in Hs.
      cbn [init completed_matches] in Hs. rewrite lookup_empty in Hs.
      by destruct Hs.
    + intros Hn. destruct (Hcase n Hn) as (ms & Hms & Heq).
      rewrite Heq. destruct (Hin _ _ Hms) as (_ & _ & ->). eauto.
Qed.

End round_manager_more.

(** X20: [initialize_tournament] sets [total_rounds] to the number of
    rounds of the schedule and clears [current_round]; round [i + 1] gets
    the matches at index [i], status [PENDING] and no completed match.
    Round numbers outside [1 .. len(schedule)] keep what they had: the
    rounds of an earlier, longer schedule are not removed. *)
Theorem initialize_tournament_loads_the_schedule
    (schedule : list (list RoundManager.Match))
    (m : RoundManager.RoundManager) :
  let m' := RoundManager.initialize_tournament schedule m in
  RoundManager.current_round m' = None
  ∧ RoundManager.total_rounds m' = Z.of_nat (length schedule)
  ∧ (∀ (i : nat) matches,
       schedule !! i = Some matches →
       RoundManager.round_status m' !! (Z.of_nat i + 1)
         = Some RoundManager.PENDING
       ∧ RoundManager.round_matches m' !! (Z.of_nat i + 1) = Some matches
       ∧ RoundManager.completed_matches m' !! (Z.of_nat i + 1) = Some ∅)
  ∧ (∀ n, ¬ (1 ≤ n ≤ Z.of_nat (length schedule)) →
       RoundManager.round_status m' !! n = RoundManager.round_status m !! n
       ∧ RoundManager.round_matches m' !! n
         = RoundManager.round_matches m !! n
       ∧ RoundManager.completed_matches m' !! n
         = RoundManager.completed_matches m !! n).
Proof.
  intros m'. unfold m', RoundManager.initialize_tournament.
  destruct (initialize_rounds_spec schedule 0
              (RoundManager.mkManager None (RoundManager.round_status m)
                 (RoundManager.round_matches m)
                 (RoundManager.completed_matches m)
                 (Z.of_nat (length schedule))))
    as (Hc & Ht & Hin & Hout).
  split; [done|]. split; [done|]. split.
  - intros i ms Hi. by apply (Hin i ms).
  - intros n Hn. apply (Hout n). lia.
Qed.

(** X21: on a manager that went through any sequence of calls,
    [mark_match_complete] never raises: it returns [False] and leaves the
    manager as it is for a round that has no matches, and otherwise adds
    the id to the round's completed matches; [start_round] raises nothing
    but [ValueError]. *)
Theorem mark_match_complete_never_raises (m : RoundManager.RoundManager) :
  RoundManager.reachable m →
  (∀ match_id n,
     ∃ b, (RoundManager.mark_match_complete match_id n m).2 = Returned b
          ∧ (RoundManager.round_matches m !! n = None →
             b = false
             ∧ (RoundManager.mark_match_complete match_id n m).1 = m)
          ∧ (is_Some (RoundManager.round_matches m !! n) →
             ∃ marked,
               RoundManager.completed_matches m !! n = Some marked
               ∧ RoundManager.completed_matches
                   (RoundManager.mark_match_complete match_id n m).1 !! n
                 = Some (marked ∪ {[match_id]})))
  ∧ (∀ n e, (RoundManager.start_round n m).2 = Raised e →
            ∃ msg, e = ValueError msg).
Proof.
  intros Hm. apply reachable_aligned in Hm. split.
  - intros id n. destruct (Hm n) as [H1 H2].
    unfold RoundManager.mark_match_complete.
    destruct (RoundManager.completed_matches m !! n) as [marked|] eqn:Hd.
    + destruct (RoundManager.round_matches m !! n) as [ms|] eqn:Hr.
      * eexists. split; [done|]. split; [done|]. intros _.
        exists marked. split; [done|]. simpl. by rewrite lookup_insert_eq.
      * destruct H1 as [_ H1]. destruct H1 as [? ?]; [eauto|done].
    + exists false. split; [done|]. split; [done|].
      intros Hr. apply H1 in Hr. by destruct Hr.
  - intros n e. destruct (Hm n) as [H1 H2].
    unfold RoundManager.start_round.
    destruct (RoundManager.round_matches m !! n) as [ms|] eqn:Hr.
    + destruct H2 as [st Hst]; [eauto|]. rewrite Hst.
      case_decide; simpl; intros [= <-]; eauto.
    + simpl. intros [= <-]. eauto.
Qed.

Lemma mark_match_complete_never_raises_witness :
  RoundManager.reachable (RoundManager.run DemoRounds.second_round_first)
  ∧ ∃ msg,
      (RoundManager.start_round 3
         (RoundManager.run DemoRounds.second_round_first)).2
      = Raised (ValueError msg).
Proof.
  assert (H : RoundManager.reachable
                (RoundManager.run DemoRounds.second_round_first))
    by (by exists DemoRounds.second_round_first).
  split; [exact H|].
  destruct (proj2 (mark_match_complete_never_raises _ H) 3
              (ValueError "Round does not exist") eq_refl) as [msg Hmsg].
  exists msg. by rewrite <- Hmsg.
Defined.

(** X22: on a new manager, loading a schedule and playing its rounds in
    order (each round started, its matches marked complete, the round
    completed) makes every call return; afterwards every round is
    [COMPLETED], [is_tournament_complete] is true, and when the schedule
    has a round [current_round] is the last round, equal to
    [total_rounds]. *)
Theorem rounds_played_in_order_complete_the_tournament
    (schedule : list (list RoundManager.Match)) :
  let m := RoundManager.run (RoundPlay.play schedule) in
  RoundManager.all_succeed (RoundPlay.play schedule) RoundManager.init = true
  ∧ RoundManager.is_tournament_complete m = true
  ∧ RoundManager.total_rounds m = Z.of_nat (length schedule)
  ∧ (schedule ≠ [] →
     RoundManager.current_round m = Some (RoundManager.total_rounds m))
  ∧ (∀ n, RoundManager.round_status m !! n
          = if decide (1 ≤ n ≤ Z.of_nat (length schedule))
            then Some RoundManager.COMPLETED else None).
Proof.
  intros m. unfold m, RoundManager.run, RoundPlay.play.
  cbn [foldl RoundManager.all_succeed RoundManager.succeeds
       RoundManager.after andb].
  set (m0 := RoundManager.initialize_tournament schedule RoundManager.init).
  destruct (initialize_tournament_spec_fresh schedule) as (Hup & Ht0).
  fold m0 in Hup, Ht0.
  destruct (play_from_spec schedule 0 schedule m0 ltac:(lia))
    as (Hok & Hm & Hc & Ht).
  { intros i ms Hi. done. }
  { done. }
  simpl in Hm, Hc. destruct Hm as (Hst & _ & _).
  split; [done|]. split; [|split; [rewrite Ht; exact Ht0|split]].
  - apply is_tournament_complete_spec. intros n st. rewrite Hst.
    repeat case_decide; intros ?; try congruence; lia.
  - intros Hne. rewrite Hc by done. f_equal. rewrite Ht, Ht0. lia.
  - intros n. rewrite Hst. repeat case_decide; try done; lia.
Qed.

(** ** More on the match tracker *)

Module TrackerViews.
Import MatchTracker.

(** The match was between the two players, in either order. *)
Definition between (a b : string) (m : MatchResult) : Prop :=
  (player_a_id m = a ∧ player_b_id m = b)
  ∨ (player_a_id m = b ∧ player_b_id m = a).

#[global] Instance between_dec a b m : Decision (between a b m).
Proof. unfold between. apply _. Defined.

(** The result of a recorded match as [player_id] sees it. *)
Definition result_for (player_id : string) (m : MatchResult) : string :=
  match winner_id m with
  | None => "T"
  | Some w => if decide (w = player_id) then "W" else "L"
  end.

(** How many recorded matches satisfy [P]. *)
Definition count (P : MatchResult → Prop) `{!∀ m, Decision (P m)}
    (ms : list MatchResult) : Z :=
  Z.of_nat (length (filter P ms)).

End TrackerViews.

Section tracker_facts.
Import MatchTracker TrackerRuns TrackerViews.

Lemma count_snoc (P : MatchResult → Prop) `{!∀ m, Decision (P m)}
    (ms : list MatchResult) (m : MatchResult) :
  count P (ms ++ [m]) = count P ms + (if decide (P m) then 1 else 0).
Proof.
  unfold count. rewrite filter_app, length_app, filter_cons, filter_nil.
  destruct (decide (P m)); simpl; lia.
Qed.

Lemma record_head_to_head (c : call) (t : MatchTracker) (a b : string) :
  a ≠ b →
  get_head_to_head a b t
    = result_for a <$> last (filter (between a b) (matches t)) →
  get_head_to_head a b (record c t).1
    = result_for a <$> last (filter (between a b) (matches (record c t).1)).
Proof.
  intros Hab IH. destruct c as [mid pa pb w rt now].
  unfold record, record_match. cbn [c_match_id c_player_a c_player_b
                                    c_winner c_result_type c_now].
  case_bool_decide as Hw; [done|]. cbn [fst matches].
  assert (Hvalid : w = None ∨ w = Some pa ∨ w = Some pb).
  { destruct w as [w|]; [|by left]. right.
    destruct (decide (w = pa)) as [->|Ha]; [by left|].
    destruct (decide (w = pb)) as [->|Hb]; [by right|].
    exfalso. apply Hw. repeat split; congruence. }
  rewrite filter_app, filter_cons, filter_nil.
  unfold get_head_to_head in *. cbn [head_to_head].
  set (new := mkMatchResult mid pa pb w rt now).
  destruct (decide (between a b new)) as [Hbt|Hbt].
  - rewrite last_snoc. cbn [fmap option_fmap option_map].
    unfold result_for. cbn [winner_id new].
    destruct Hbt as [[Ha Hb]|[Ha Hb]]; cbn [player_a_id player_b_id new]
      in Ha, Hb; subst pa pb.
    + destruct Hvalid as [->|[->| ->]];
        repeat (case_decide; simplify_eq);
        rewrite lookup_insert_ne by congruence;
        by rewrite lookup_insert_eq.
    + destruct Hvalid as [->|[->| ->]];
        repeat (case_decide; simplify_eq);
        by rewrite lookup_insert_eq.
  - rewrite app_nil_r, <- IH.
    assert (H1 : (pa, pb) ≠ (a, b)).
    { intros [= -> ->]. apply Hbt. by left. }
    assert (H2 : (pb, pa) ≠ (a, b)).
    { intros [= -> ->]. apply Hbt. by right. }
    repeat case_decide; by rewrite !lookup_insert_ne.
Qed.

(** The stats of a player, all zero when there are none. *)
Definition view (st : gmap string PlayerStats) (p : string) : PlayerStats :=
  default (mkStats 0 0 0 0) (st !! p).

Lemma view_ensure_stats (k p : string) (st : gmap string PlayerStats) :
  view (ensure_stats k st) p = view st p.
Proof.
  unfold view, ensure_stats. destruct (st !! k) eqn:Hk; [done|].
  rewrite lookup_insert. case_decide; [subst|done]. by rewrite Hk.
Qed.

Lemma ensure_stats_is_Some (k p : string) (st : gmap string PlayerStats) :
  p = k ∨ is_Some (st !! p) → is_Some (ensure_stats k st !! p).
Proof.
  unfold ensure_stats. intros [->|Hp].
  - destruct (st !! k) eqn:Hk; [eauto|]. rewrite lookup_insert_eq. eauto.
  - destruct (st !! k) eqn:Hk; [done|].
    rewrite lookup_insert. case_decide; eauto.
Qed.

Lemma view_alter (f : PlayerStats → PlayerStats) (k p : string)
    (st : gmap string PlayerStats) :
  is_Some (st !! k) →
  view (alter f k st) p = if decide (p = k) then f (view st p) else view st p.
Proof.
  unfold view. intros [s Hs]. case_decide as Hp.
  - subst. rewrite lookup_alter_eq, Hs. done.
  - by rewrite lookup_alter_ne.
Qed.

Lemma alter_is_Some (f : PlayerStats → PlayerStats) (k p : string)
    (st : gmap string PlayerStats) :
  is_Some (st !! p) → is_Some (alter f k st !! p).
Proof.
  intros [s Hs]. destruct (decide (p = k)) as [->|Hne].
  - rewrite lookup_alter_eq, Hs. simpl. eauto.
  - rewrite lookup_alter_ne by done. eauto.
Qed.

(** What the stats of a player say about the recorded matches. *)
Definition counted (t : MatchTracker) (p : string) : Prop :=
  let s := get_player_stats p t in
  let ms := matches t in
  matches_played s
  = count (λ m, player_a_id m = p) ms + count (λ m, player_b_id m = p) ms
  ∧ wins s = count (λ m, winner_id m = Some p) ms
  ∧ ties s
    = count (λ m, winner_id m = None ∧ player_a_id m = p) ms
      + count (λ m, winner_id m = None ∧ player_b_id m = p) ms
  ∧ matches_played s = wins s + losses s + ties s.

Lemma record_counted (c : call) (t : MatchTracker) (p : string) :
  counted t p → counted (record c t).1 p.
Proof.
  destruct c as [mid pa pb w rt now].
  unfold record, record_match. cbn [c_match_id c_player_a c_player_b
                                    c_winner c_result_type c_now].
  case_bool_decide as Hw; [done|].
  assert (Hvalid : w = None ∨ w = Some pa ∨ w = Some pb).
  { destruct w as [w|]; [|by left]. right.
    destruct (decide (w = pa)) as [->|Ha]; [by left|].
    destruct (decide (w = pb)) as [->|Hb]; [by right|].
    exfalso. apply Hw. repeat split; congruence. }
  unfold counted, get_player_stats. cbn [fst matches player_stats].
  fold (view (player_stats t) p).
  set (st := ensure_stats pb (ensure_stats pa (player_stats t))).
  assert (Hpa : is_Some (st !! pa)).
  { apply ensure_stats_is_Some. right. apply ensure_stats_is_Some. by left. }
  assert (Hpb : is_Some (st !! pb)).
  { apply ensure_stats_is_Some. by left. }
  assert (Hst : view st p = view (player_stats t) p).
  { unfold st. by rewrite !view_ensure_stats. }
  rewrite !count_snoc. cbn [player_a_id player_b_id winner_id].
  intros (Hm & Hwins & Ht & Hsum).
  destruct Hvalid as [->|[->| ->]].
  - fold (view (alter add_tie pb (alter add_tie pa st)) p).
    rewrite !view_alter by (try apply alter_is_Some; done). rewrite Hst.
    repeat case_decide; simplify_eq; simpl; try lia;
      try (destruct_and?; simplify_eq); try (exfalso; naive_solver).
  - rewrite decide_True by done.
    fold (view (alter add_loss pb (alter add_win pa st)) p).
    rewrite !view_alter by (try apply alter_is_Some; done). rewrite Hst.
    repeat case_decide; simplify_eq; simpl; try lia;
      try (destruct_and?; simplify_eq); try (exfalso; naive_solver).
  - destruct (decide (pb = pa)) as [->|Hne].
    + fold (view (alter add_loss pa (alter add_win pa st)) p).
      rewrite !view_alter by (try apply alter_is_Some; done). rewrite Hst.
      repeat case_decide; simplify_eq; simpl; try lia;
        try (destruct_and?; simplify_eq); try (exfalso; naive_solver).
    + fold (view (alter add_loss pa (alter add_win pb st)) p).
      rewrite !view_alter by (try apply alter_is_Some; done). rewrite Hst.
      repeat case_decide; simplify_eq; simpl; try lia;
        try (destruct_and?; simplify_eq); try (exfalso; naive_solver).
Qed.

End tracker_facts.

(** X23: in a tracker filled by [record_match] calls, the head-to-head
    entry of two different players is the result, as the first of them
    sees it, of the last recorded match between the two in either order
    (["W"], ["L"] or ["T"]), and [None] when no such match was recorded:
    a later match overwrites the earlier result, and the two directions
    always mirror each other. *)
Theorem head_to_head_is_the_last_match
    (t : MatchTracker.MatchTracker) (a b : string) :
  TrackerRuns.reachable t → a ≠ b →
  MatchTracker.get_head_to_head a b t
  = TrackerViews.result_for a
      <$> last (filter (TrackerViews.between a b)
                  (TrackerRuns.get_all_matches t)).
Proof.
  intros [calls ->] Hab. unfold TrackerRuns.run, TrackerRuns.get_all_matches.
  induction calls as [|c calls IH] using rev_ind; [done|].
  rewrite foldl_app. cbn [foldl]. by apply record_head_to_head.
Qed.

Lemma head_to_head_is_the_last_match_witness :
  MatchTracker.get_head_to_head "P01" "P02"
    (TrackerRuns.run
       [TrackerRuns.mkCall "M1" "P01" "P02" (Some "P01") "WIN" "t1";
        TrackerRuns.mkCall "M2" "P02" "P01" (Some "P02") "WIN" "t2"])
  = Some "L".
Proof.
  refine (head_to_head_is_the_last_match
            (TrackerRuns.run
               [TrackerRuns.mkCall "M1" "P01" "P02" (Some "P01") "WIN" "t1";
                TrackerRuns.mkCall "M2" "P02" "P01" (Some "P02") "WIN" "t2"])
            "P01" "P02" _ _).
  - by eexists.
  - discriminate.
Defined.

(** X24: in a tracker filled by [record_match] calls, the stats of every
    player count the recorded matches: [matches_played] is the number of
    matches with the player as first plus those with the player as second
    player, [wins] the number of matches won by the player, [ties] the
    number of sides the player had in tied matches, and
    [matches_played = wins + losses + ties]. *)
Theorem player_stats_count_the_matches
    (t : MatchTracker.MatchTracker) (p : string) :
  TrackerRuns.reachable t →
  let s := TrackerRuns.get_player_stats p t in
  let ms := TrackerRuns.get_all_matches t in
  MatchTracker.matches_played s
  = TrackerViews.count (λ m, MatchTracker.player_a_id m = p) ms
    + TrackerViews.count (λ m, MatchTracker.player_b_id m = p) ms
  ∧ MatchTracker.wins s
    = TrackerViews.count (λ m, MatchTracker.winner_id m = Some p) ms
  ∧ MatchTracker.ties s
    = TrackerViews.count
        (λ m, MatchTracker.winner_id m = None
              ∧ MatchTracker.player_a_id m = p) ms
      + TrackerViews.count
          (λ m, MatchTracker.winner_id m = None
                ∧ MatchTracker.player_b_id m = p) ms
  ∧ MatchTracker.matches_played s
    = MatchTracker.wins s + MatchTracker.losses s + MatchTracker.ties s.
Proof.
  intros [calls ->]. unfold TrackerRuns.run.
  induction calls as [|c calls IH] using rev_ind.
  - by vm_compute.
  - rewrite foldl_app. cbn [foldl]. by apply record_counted.
Qed.

Lemma player_stats_count_the_matches_witness :
  MatchTracker.matches_played
    (TrackerRuns.get_player_stats "P01"
       (TrackerRuns.run
          [TrackerRuns.mkCall "M1" "P01" "P02" (Some "P01") "WIN" "t1";
           TrackerRuns.mkCall "M2" "P02" "P01" None "WIN" "t2"]))
  = 2.
Proof.
  refine (proj1 (player_stats_count_the_matches
                   (TrackerRuns.run
                      [TrackerRuns.mkCall "M1" "P01" "P02" (Some "P01")
                         "WIN" "t1";
                       TrackerRuns.mkCall "M2" "P02" "P01" None "WIN" "t2"])
                   "P01" _)).
  by eexists.
Defined.

(** ** More on the broadcast *)

Module Deliveries.
Import Broadcast.

(** The task of a recipient ended in [True]. *)
Definition delivered (r : task_result) : bool :=
  match r with Returned true => true | _ => false end.

(** The recipients next to the way their task ended, in recipient
    order. *)
Definition gathered (max_retries : Z) (network : nat → Z → outcome exn ())
    (agents : list Agent) : list (Agent * task_result) :=
  zip agents
    (imap (λ i agent, send_to_agent max_retries (network i) agent) agents).

(** The ids of the recipients whose delivery did not succeed, in
    recipient order. *)
Definition failures (pairs : list (Agent * task_result)) : list string :=
  (λ ar, _get_agent_id ar.1) <$> filter (λ ar, delivered ar.2 = false) pairs.

End Deliveries.

Section broadcast_more.
Import Broadcast Deliveries.

Lemma attempts_spec (max_retries : Z) (post : Z → outcome exn ())
    (remaining : nat) :
  ∀ attempt,
    0 ≤ attempt → attempt + Z.of_nat remaining = max_retries →
    (attempts max_retries post (S remaining) attempt = Returned true
     ↔ ∃ k, attempt ≤ k ≤ max_retries ∧ post k = Returned ())
    ∧ (∀ e, attempts max_retries post (S remaining) attempt = Raised e
            ↔ (∀ k, attempt ≤ k ≤ max_retries → ∃ e', post k = Raised e')
              ∧ post max_retries = Raised e)
    ∧ attempts max_retries post (S remaining) attempt ≠ Returned false.
Proof.
  induction remaining as [|remaining IH]; intros attempt Hge Hsum;
    cbn [attempts]; destruct (post attempt) as [[]|e0] eqn:Hpost.
  - split; [|split]; [| |done].
    + split; [|done]. intros _. exists attempt. split; [lia|done].
    + intros e. split; [done|]. intros [Hall _].
      destruct (Hall attempt ltac:(lia)) as [e' He']. congruence.
  - assert (attempt = max_retries) as -> by lia.
    rewrite Z.eqb_refl. split; [|split]; [| |done].
    + split; [done|]. intros (k & Hk & Hret).
      assert (k = max_retries) as -> by lia. congruence.
    + intros e. split.
      * intros [= <-]. split; [|done]. intros k Hk.
        assert (k = max_retries) as -> by lia. eauto.
      * intros [_ He]. congruence.
  - split; [|split]; [| |done].
    + split; [|done]. intros _. exists attempt. split; [lia|done].
    + intros e. split; [done|]. intros [Hall _].
      destruct (Hall attempt ltac:(lia)) as [e' He']. congruence.
  - destruct (Z.eqb_spec attempt max_retries) as [->|Hne]; [lia|].
    destruct (IH (attempt + 1) ltac:(lia) ltac:(lia))
      as (Htrue & Hraise & Hfalse).
    split; [|split]; [| |done].
    + rewrite Htrue. split; intros (k & Hk & Hret).
      * exists k. split; [lia|done].
      * exists k. split; [|done].
        destruct (decide (k = attempt)) as [->|]; [congruence|lia].
    + intros e. rewrite Hraise. split; intros [Hall He]; split;
        try done; intros k Hk.
      * destruct (decide (k = attempt)) as [->|]; [eauto|].
        apply Hall. lia.
      * apply Hall. lia.
Qed.

Lemma process_results_lists_failures (pairs : list (Agent * task_result)) :
  ∀ report,
    let report' := foldl process_result report pairs in
    failed_agents report' = failed_agents report ++ failures pairs
    ∧ successful report'
      = successful report
        + Z.of_nat (length (filter (λ ar, delivered ar.2 = true) pairs))
    ∧ failed report'
      = failed report + Z.of_nat (length (failures pairs))
    ∧ (∀ id, is_Some (errors report' !! id)
             ↔ is_Some (errors report !! id) ∨ id ∈ failures pairs).
Proof.
  unfold failures.
  induction pairs as [|[agent [[]|e]] pairs IH]; intros report.
  - simpl. rewrite app_nil_r. repeat split; try lia; try tauto.
    intros [?|H]; [done|]. by apply elem_of_nil in H.
  - cbn [foldl]. destruct (IH (process_result report (agent, Returned true)))
      as (Hfa & Hs & Hf & He).
    rewrite filter_cons_False by done. rewrite filter_cons_True by done.
    cbn [process_result failed_agents successful failed errors fst snd length]
      in *.
    split; [done|]. split; [lia|]. split; [done|]. done.
  - cbn [foldl]. destruct (IH (process_result report (agent, Returned false)))
      as (Hfa & Hs & Hf & He).
    rewrite filter_cons_True by done. rewrite filter_cons_False by done.
    cbn [process_result failed_agents successful failed errors fst snd length
         fmap list_fmap] in *.
    split; [by rewrite Hfa, <- app_assoc|]. split; [done|]. split; [lia|].
    intros id. rewrite He, lookup_insert, elem_of_cons.
    case_decide as Hid.
    + split; intros _; [right; by left|left; eauto].
    + split; [intros [?|?]; [by left|right; by right]|].
      intros [?|[?|?]]; [by left|congruence|by right].
  - cbn [foldl]. destruct (IH (process_result report (agent, Raised e)))
      as (Hfa & Hs & Hf & He).
    rewrite filter_cons_True by done. rewrite filter_cons_False by done.
    cbn [process_result failed_agents successful failed errors fst snd length
         fmap list_fmap] in *.
    split; [by rewrite Hfa, <- app_assoc|]. split; [done|]. split; [lia|].
    intros id. rewrite He, lookup_insert, elem_of_cons.
    case_decide as Hid.
    + split; intros _; [right; by left|left; eauto].
    + split; [intros [?|?]; [by left|right; by right]|].
      intros [?|[?|?]]; [by left|congruence|by right].
Qed.

End broadcast_more.

(** X25: for a recipient with an endpoint and a retry bound of at least
    0, [send_to_agent] makes the attempts [0 .. max_retries] in turn
    until one succeeds: it returns [True] exactly when one of them
    succeeds, it raises exactly when all of them fail, and then the
    exception of the last attempt; it never returns [False]. *)
Theorem send_to_agent_retries_then_raises
    (max_retries : Z) (post : Z → outcome exn ())
    (agent : Broadcast.Agent) :
  0 ≤ max_retries →
  is_Some (Broadcast.nonempty (Broadcast.endpoint agent)) →
  (Broadcast.send_to_agent max_retries post agent = Returned true
   ↔ ∃ k, 0 ≤ k ≤ max_retries ∧ post k = Returned ())
  ∧ (∀ e, Broadcast.send_to_agent max_retries post agent = Raised e
          ↔ (∀ k, 0 ≤ k ≤ max_retries → ∃ e', post k = Raised e')
            ∧ post max_retries = Raised e)
  ∧ Broadcast.send_to_agent max_retries post agent ≠ Returned false.
Proof.
  intros Hmax [ep Hep]. unfold Broadcast.send_to_agent. rewrite Hep.
  replace (Z.to_nat (max_retries + 1)) with (S (Z.to_nat max_retries))
    by lia.
  apply attempts_spec; lia.
Qed.

Lemma send_to_agent_retries_then_raises_witness :
  Broadcast.send_to_agent 2
    (λ k, if k =? 2 then Returned () else Raised (TimeoutError ""))
    (Broadcast.mkAgent (Some "P01") None (Some "http://localhost:8101/mcp"))
  ≠ Returned false.
Proof.
  refine (proj2 (proj2 (send_to_agent_retries_then_raises 2
                          (λ k, if k =? 2 then Returned ()
                                else Raised (TimeoutError ""))
                          (Broadcast.mkAgent (Some "P01") None
                             (Some "http://localhost:8101/mcp")) _ _))).
  - lia.
  - by eexists.
Defined.

(** Every recipient has an id of one of the three kinds. *)
Lemma _get_agent_id_kind (agent : Broadcast.Agent) :
  let id := Broadcast._get_agent_id agent in
  (Broadcast.player_id agent = Some id ∧ id ≠ "")
  ∨ ((Broadcast.player_id agent = None
      ∨ Broadcast.player_id agent = Some "")
     ∧ Broadcast.referee_id agent = Some id ∧ id ≠ "")
  ∨ ((Broadcast.player_id agent = None
      ∨ Broadcast.player_id agent = Some "")
     ∧ (Broadcast.referee_id agent = None
        ∨ Broadcast.referee_id agent = Some "")
     ∧ id = "unknown").
Proof.
  unfold Broadcast._get_agent_id, Broadcast.nonempty.
  destruct (Broadcast.player_id agent) as [p|]; [case_decide as Hp|].
  - subst p. destruct (Broadcast.referee_id agent) as [r|];
      [case_decide as Hr|]; [subst r|..]; simpl; auto 10.
  - simpl. auto.
  - destruct (Broadcast.referee_id agent) as [r|];
      [case_decide as Hr|]; [subst r|..]; simpl; auto 10.
Qed.

(** X26: the report of a broadcast lists the failed recipients exactly:
    [failed_agents] holds one id for each recipient whose delivery did
    not succeed, in recipient order (an id shared by two of them appears
    twice); the id is the recipient's [player_id] when that is a
    non-empty string, else its [referee_id] when that is one, else
    ["unknown"].  [failed] is the length of [failed_agents],
    [successful] the number of deliveries that returned [True], and
    [errors] has an entry for exactly the ids in [failed_agents]. *)
Theorem report_lists_exactly_the_failures
    (max_retries : Z) (network : nat → Z → outcome exn ())
    (agents : list Broadcast.Agent) :
  let report := Broadcast._broadcast_to_agents max_retries network agents in
  let pairs := Deliveries.gathered max_retries network agents in
  Forall2
    (λ id ar,
       (Broadcast.player_id ar.1 = Some id ∧ id ≠ "")
       ∨ ((Broadcast.player_id ar.1 = None
           ∨ Broadcast.player_id ar.1 = Some "")
          ∧ Broadcast.referee_id ar.1 = Some id ∧ id ≠ "")
       ∨ ((Broadcast.player_id ar.1 = None
           ∨ Broadcast.player_id ar.1 = Some "")
          ∧ (Broadcast.referee_id ar.1 = None
             ∨ Broadcast.referee_id ar.1 = Some "")
          ∧ id = "unknown"))
    (Broadcast.failed_agents report)
    (filter (λ ar, Deliveries.delivered ar.2 = false) pairs)
  ∧ Broadcast.failed report
    = Z.of_nat (length (Broadcast.failed_agents report))
  ∧ Broadcast.successful report
    = Z.of_nat
        (length (filter (λ ar, Deliveries.delivered ar.2 = true) pairs))
  ∧ ∀ id, is_Some (Broadcast.errors report !! id)
          ↔ id ∈ Broadcast.failed_agents report.
Proof.
  intros report pairs.
  assert (Hreport : report
            = foldl Broadcast.process_result
                (Broadcast.mkReport (Z.of_nat (length agents)) 0 0 [] ∅)
                pairs).
  { unfold report, pairs, Broadcast._broadcast_to_agents,
      Broadcast.process_results, Deliveries.gathered.
    by destruct agents. }
  destruct (process_results_lists_failures pairs
              (Broadcast.mkReport (Z.of_nat (length agents)) 0 0 [] ∅))
    as (Hfa & Hs & Hf & He).
  rewrite <- Hreport in Hfa, Hs, Hf, He. simpl in Hfa, Hs, Hf, He.
  split; [|split; [by rewrite Hf, Hfa|split; [done|]]].
  - rewrite Hfa. unfold Deliveries.failures.
    apply Forall2_fmap_l, Forall_Forall2_diag, Forall_forall.
    intros ar _. apply _get_agent_id_kind.
  - intros id. rewrite He, Hfa, lookup_empty. split; [|by right].
    intros [[? ?]|?]; done.
Qed.

(** ** The handler of match result reports *)

Section result_handler_facts.
Import Standings.

(** Whenever [record_match_result] raises, the calculator is the one it
    was called on. *)
Lemma record_match_result_raised m a b w now (c : StandingsCalculator) e :
  (record_match_result m a b w now c).2 = Raised e →
  (record_match_result m a b w now c).1 = c.
Proof.
  unfold record_match_result.
  destruct (dict_mem a (players c)); simpl; [|done].
  destruct (dict_mem b (players c)); simpl; [|done].
  unfold MatchTracker.record_match. case_bool_decide; simpl; [|done].
  intros _. by destruct c.
Qed.

End result_handler_facts.

Module DemoReports.
Import Orchestration.

(** Two players, and one round with their match. *)
Definition standings : Standings.StandingsCalculator :=
  Standings.run DemoStandings.two_players.

Definition rounds : RoundManager.RoundManager :=
  RoundManager.run
    [RoundManager.InitializeTournament [[DemoRounds.match_1]];
     RoundManager.StartRound 1].


End DemoReports.


(** The handler is embedded for every request whose [match_id] is a
    string or null and whose winner is a string or null, whatever the
    other values are. *)
Lemma handle_match_result_report_defined
    (params : list (string * Orchestration.Json)) (now : string)
    (sc : Standings.StandingsCalculator) (rm : RoundManager.RoundManager) :
  (ResultHandler.get "match_id" Orchestration.JNull params
     = Orchestration.JNull
   ∨ ∃ s, ResultHandler.get "match_id" Orchestration.JNull params
          = Orchestration.JStr s) →
  (∀ fields,
     ResultHandler.get "result" (Orchestration.JObj []) params
       = Orchestration.JObj fields →
     default Orchestration.JNull (dict_get "winner" fields)
       = Orchestration.JNull
     ∨ ∃ s, default Orchestration.JNull (dict_get "winner" fields)
            = Orchestration.JStr s) →
  is_Some (ResultHandler.handle_match_result_report params now sc rm).
Proof.
  intros Hmatch Hwinner.
  unfold ResultHandler.handle_match_result_report,
    ResultHandler.error_response.
  cbv zeta.
  destruct (ResultHandler.get "result" (Orchestration.JObj []) params)
    as [|rb|rz|rs|ritems|fields]; cbn [Orchestration.py_get]; [eauto..|].
  specialize (Hwinner fields eq_refl).
  destruct (negb _ || negb _) eqn:Hmissing; [eauto|].
  destruct (default (Orchestration.JObj []) (dict_get "score" fields))
    as [|sb|sz|ss|sitems|sfields]; cbn [ResultHandler.py_keys]; [eauto..|].
  destruct (dict_keys sfields) as [|a [|b [|c keys]]]; [eauto..| |eauto].
  assert (Hid : is_Some (ResultHandler.as_match_id
                           (ResultHandler.get "match_id"
                              Orchestration.JNull params))).
  { destruct Hmatch as [Hm|[s Hm]]; rewrite Hm in *; [|by eexists].
    simpl in Hmissing. done. }
  destruct Hid as [mid ->].
  assert (Hw : is_Some (ResultHandler.as_winner_id
                          (default Orchestration.JNull
                             (dict_get "winner" fields)))).
  { destruct Hwinner as [-> |[s ->]]; by eexists. }
  destruct Hw as [w ->].
  destruct (Standings.record_match_result mid a b w now sc)
    as [sc' [[]|e]]; [|eauto].
  destruct (ResultHandler.mark_match_complete mid _ rm) as [rm' [rc|e]];
    eauto.
Qed.



(** ** Standings and tracker *)

Module StandingsViews.
Import Standings.

(** The counters of a standing, as the tracker keeps them. *)
Definition stats_of (p : PlayerStanding) : MatchTracker.PlayerStats :=
  MatchTracker.mkStats (wins p) (losses p) (ties p) (matches_played p).

Definition is_add (k : call) : Prop :=
  match k with AddPlayer _ _ => True | _ => False end.

(** Every stored standing has the counters the tracker has for the key
    it is stored under. *)
Definition agrees (c : StandingsCalculator) : Prop :=
  ∀ id p, dict_get id (players c) = Some p →
          stats_of p = TrackerRuns.get_player_stats id (match_tracker c).

End StandingsViews.

Section standings_tracker.
Import Standings StandingsViews.

Lemma dict_get_alter {V} (f : V → V) (k id : string)
    (d : list (string * V)) :
  dict_get id (dict_alter f k d)
  = (if decide (id = k) then f else λ v, v) <$> dict_get id d.
Proof.
  case_decide as Hk.
  - subst. apply dict_get_alter_eq.
  - rewrite dict_get_alter_ne by done. by destruct (dict_get id d).
Qed.

Lemma dict_elem_get {V} (k : string) (v : V) (d : list (string * V)) :
  NoDup (dict_keys d) → (k, v) ∈ d → dict_get k d = Some v.
Proof.
  unfold dict_keys. induction d as [|[k' v'] d IH]; simpl; intros Hnd Hin.
  - by apply elem_of_nil in Hin.
  - apply NoDup_cons in Hnd as [Hk' Hnd].
    apply elem_of_cons in Hin as [[= <- <-]|Hin].
    + by rewrite decide_True.
    + rewrite decide_False; [by apply IH|].
      intros ->. apply Hk'. apply list_elem_of_fmap. by exists (k', v).
Qed.

Lemma add_player_agrees (id name : string) (c : StandingsCalculator) :
  match_tracker c = MatchTracker.init →
  Forall (λ kp, stats_of kp.2 = MatchTracker.mkStats 0 0 0 0) (players c) →
  match_tracker (after (AddPlayer id name) c) = MatchTracker.init
  ∧ Forall (λ kp, stats_of kp.2 = MatchTracker.mkStats 0 0 0 0)
      (players (after (AddPlayer id name) c)).
Proof.
  intros Ht Hz. simpl. split; [done|]. by apply dict_set_Forall.
Qed.

Lemma adds_agree (adds : list call) :
  Forall is_add adds → agrees (run adds).
Proof.
  intros Hadds.
  assert (H : match_tracker (run adds) = MatchTracker.init
              ∧ Forall (λ kp, stats_of kp.2 = MatchTracker.mkStats 0 0 0 0)
                  (players (run adds))).
  { unfold run. induction adds as [|k adds IH] using rev_ind.
    - split; [done|constructor].
    - apply Forall_app in Hadds as [Hadds Hk].
      inversion Hk as [|?? Hadd _]; subst.
      rewrite foldl_app. cbn [foldl].
      destruct k as [id name| |]; [|done..].
      apply add_player_agrees; by apply IH. }
  destruct H as [Ht Hz]. intros id p Hp. rewrite Ht.
  apply dict_get_elem in Hp. rewrite Forall_forall in Hz.
  apply (Hz _ Hp).
Qed.

Lemma get_standings_agrees (c : StandingsCalculator) :
  NoDup (dict_keys (players c)) → agrees c → agrees (get_standings c).1.
Proof.
  intros Hnd Hc id p' Hp'.
  apply dict_get_elem, get_standings_stored in Hp' as (p & r & Hp & ->).
  apply dict_elem_get in Hp; [|done].
  change (match_tracker (get_standings c).1) with (match_tracker c).
  by rewrite <- (Hc id p Hp).
Qed.

Lemma record_match_result_agrees m a b w now (c : StandingsCalculator) :
  agrees c → agrees (record_match_result m a b w now c).1.
Proof.
  intros Hc.
  destruct ((record_match_result m a b w now c).2) as [[]|e] eqn:Hret.
  2:{ by rewrite (record_match_result_raised _ _ _ _ _ _ _ Hret). }
  revert Hret. unfold record_match_result.
  destruct (dict_mem a (players c)); simpl; [|done].
  destruct (dict_mem b (players c)); simpl; [|done].
  unfold MatchTracker.record_match. case_bool_decide as Hw; simpl; [done|].
  intros _.
  assert (Hvalid : w = None ∨ w = Some a ∨ w = Some b).
  { destruct w as [w|]; [|by left]. right.
    destruct (decide (w = a)) as [->|Ha]; [by left|].
    destruct (decide (w = b)) as [->|Hb]; [by right|].
    exfalso. apply Hw. repeat split; congruence. }
  intros id p'. unfold TrackerRuns.get_player_stats.
  cbn [players match_tracker MatchTracker.player_stats].
  set (st := MatchTracker.ensure_stats b
               (MatchTracker.ensure_stats a
                  (MatchTracker.player_stats (match_tracker c)))).
  assert (Hpa : is_Some (st !! a)).
  { apply ensure_stats_is_Some. right. apply ensure_stats_is_Some. by left. }
  assert (Hpb : is_Some (st !! b)).
  { apply ensure_stats_is_Some. by left. }
  assert (Hst : view st id
                = view (MatchTracker.player_stats (match_tracker c)) id).
  { unfold st. by rewrite !view_ensure_stats. }
  specialize (Hc id). unfold TrackerRuns.get_player_stats in Hc.
  fold (view (MatchTracker.player_stats (match_tracker c)) id) in Hc.
  rewrite <- Hst in Hc.
  destruct Hvalid as [->|[->| ->]].
  - fold (view (alter MatchTracker.add_tie b
                  (alter MatchTracker.add_tie a st)) id).
    rewrite !view_alter by (try apply alter_is_Some; done).
    rewrite !dict_get_alter.
    destruct (dict_get id (players c)) as [p|]; [|done].
    specialize (Hc p eq_refl). rewrite <- Hc.
    repeat case_decide; simplify_eq; simpl; intros [= <-]; reflexivity.
  - rewrite !decide_True by done.
    fold (view (alter MatchTracker.add_loss b
                  (alter MatchTracker.add_win a st)) id).
    rewrite !view_alter by (try apply alter_is_Some; done).
    rewrite !dict_get_alter.
    destruct (dict_get id (players c)) as [p|]; [|done].
    specialize (Hc p eq_refl). rewrite <- Hc.
    repeat case_decide; simplify_eq; simpl; intros [= <-]; reflexivity.
  - destruct (decide (b = a)) as [->|Hne].
    + fold (view (alter MatchTracker.add_loss a
                    (alter MatchTracker.add_win a st)) id).
      rewrite !view_alter by (try apply alter_is_Some; done).
      rewrite !dict_get_alter.
      destruct (dict_get id (players c)) as [p|]; [|done].
      specialize (Hc p eq_refl). rewrite <- Hc.
      repeat case_decide; simplify_eq; simpl; intros [= <-]; reflexivity.
    + fold (view (alter MatchTracker.add_loss a
                    (alter MatchTracker.add_win b st)) id).
      rewrite !view_alter by (try apply alter_is_Some; done).
      rewrite !dict_get_alter.
      destruct (dict_get id (players c)) as [p|]; [|done].
      specialize (Hc p eq_refl). rewrite <- Hc.
      repeat case_decide; simplify_eq; simpl; intros [= <-]; reflexivity.
Qed.

End standings_tracker.

(** X28: when every player is added before the first result is recorded,
    the standings and the tracker count alike: after any further
    [record_match_result] and [get_standings] calls, returning or
    raising, each stored standing has the [wins], [losses], [ties] and
    [matches_played] that the tracker's [get_player_stats] gives for the
    id. *)
Theorem standings_count_like_the_tracker
    (adds plays : list Standings.call) :
  Forall StandingsViews.is_add adds →
  Forall (λ k, ¬ StandingsViews.is_add k) plays →
  let c := Standings.run (adds ++ plays) in
  ∀ id p,
    dict_get id (Standings.players c) = Some p →
    StandingsViews.stats_of p
    = TrackerRuns.get_player_stats id (Standings.match_tracker c).
Proof.
  intros Hadds Hplays c. unfold c. clear c.
  induction plays as [|k plays IH] using rev_ind.
  - rewrite app_nil_r. by apply adds_agree.
  - apply Forall_app in Hplays as [Hplays Hk].
    inversion Hk as [|?? Hnoadd _]; subst.
    specialize (IH Hplays).
    unfold Standings.run in *. rewrite app_assoc, foldl_app. cbn [foldl].
    destruct k as [id name|m a b w now|].
    + by destruct Hnoadd.
    + by apply record_match_result_agrees.
    + apply get_standings_agrees; [|done].
      apply reachable_well_keyed. by exists (adds ++ plays).
Qed.

Lemma standings_count_like_the_tracker_witness :
  ∃ p,
    dict_get "P01"
      (Standings.players
         (Standings.run
            (DemoStandings.two_players
             ++ [Standings.RecordMatchResult "M1" "P01" "P02" (Some "P01")
                   "t1";
                 Standings.GetStandings]))) = Some p
    ∧ StandingsViews.stats_of p
      = TrackerRuns.get_player_stats "P01"
          (Standings.match_tracker
             (Standings.run
                (DemoStandings.two_players
                 ++ [Standings.RecordMatchResult "M1" "P01" "P02"
                       (Some "P01") "t1";
                     Standings.GetStandings]))).
Proof.
  eexists. split; [vm_compute; reflexivity|].
  apply (standings_count_like_the_tracker DemoStandings.two_players
           [Standings.RecordMatchResult "M1" "P01" "P02" (Some "P01") "t1";
            Standings.GetStandings]).
  - repeat constructor.
  - repeat constructor; by intros [].
  - vm_compute. reflexivity.
Defined.

(** ** Asking for the standings again *)

Section get_standings_again.
Import Standings.

Lemma insert_by_key_fmap {A B} (key : A → Z * Z * string)
    (key' : B → Z * Z * string) (g : A → B) (x : A) (l : list A) :
  key' (g x) = key x → Forall (λ y, key' (g y) = key y) l →
  insert_by_key key' (g x) (g <$> l) = g <$> insert_by_key key x l.
Proof.
  intros Hx. induction 1 as [|y l Hy Hl IH]; csimpl; [done|].
  rewrite Hx, Hy. destruct (key_lt (key x) (key y)); [done|].
  by rewrite IH.
Qed.

Lemma sort_by_key_fmap {A B} (key : A → Z * Z * string)
    (key' : B → Z * Z * string) (g : A → B) (l : list A) :
  Forall (λ y, key' (g y) = key y) l →
  sort_by_key key' (g <$> l) = g <$> sort_by_key key l.
Proof.
  unfold sort_by_key. intros Hl.
  assert (G : ∀ acc,
            Forall (λ y, key' (g y) = key y) acc →
            foldl (λ sorted x, insert_by_key key' x sorted) (g <$> acc)
              (g <$> l)
            = g <$> foldl (λ sorted x, insert_by_key key x sorted) acc l).
  { induction Hl as [|x l Hx Hl IH]; intros acc Hacc; csimpl; [done|].
    rewrite (insert_by_key_fmap key) by done. apply IH.
    rewrite Forall_forall. intros y Hy.
    rewrite insert_by_key_Permutation in Hy.
    apply elem_of_cons in Hy as [->|Hy]; [done|].
    rewrite Forall_forall in Hacc. by apply Hacc. }
  by apply (G []).
Qed.

Lemma filter_fmap_iff {A} (g : A → A) (P P' : A → Prop)
    `{!∀ x, Decision (P x)} `{!∀ x, Decision (P' x)} (l : list A) :
  (∀ x, P' (g x) ↔ P x) → filter P' (g <$> l) = g <$> filter P l.
Proof.
  intros HP. induction l as [|x l IH]; [done|].
  rewrite fmap_cons, !filter_cons, IH.
  destruct (decide (P' (g x))) as [Hgx|Hgx], (decide (P x)) as [Hx|Hx];
    try done; exfalso; apply Hgx || apply Hx; by apply HP.
Qed.

(** The tiebreak value does not look at ranks. *)
Lemma _get_tiebreaker_value_ranks t (g : PlayerStanding → PlayerStanding)
    (p : PlayerStanding) (l : list PlayerStanding) :
  (∀ q, player_id (g q) = player_id q ∧ points (g q) = points q) →
  _get_tiebreaker_value t (g p) (g <$> l) = _get_tiebreaker_value t p l.
Proof.
  intros Hg. unfold _get_tiebreaker_value.
  rewrite (filter_fmap_iff g
             (λ q, points q = points p ∧ player_id q ≠ player_id p)
             (λ q, points q = points (g p)
                   ∧ player_id q ≠ player_id (g p))).
  2:{ intros q. destruct (Hg q) as [-> ->], (Hg p) as [-> ->]. done. }
  rewrite length_fmap.
  destruct (filter _ l) as [|opponent rest]; simpl; [done|].
  destruct (Hg opponent) as [-> _], (Hg p) as [-> _]. done.
Qed.

Lemma foldl_insert_ext {A} (f1 f2 : A → string * Z) (l : list A)
    (m : gmap string Z) :
  Forall (λ x, f1 x = f2 x) l →
  foldl (λ m x, <[(f1 x).1 := (f1 x).2]> m) m l
  = foldl (λ m x, <[(f2 x).1 := (f2 x).2]> m) m l.
Proof.
  intros Hl. revert m. induction Hl as [|x l Hx Hl IH]; intros m; simpl;
    [done|].
  by rewrite Hx, IH.
Qed.

Lemma tiebreaker_values_ranks t (g : PlayerStanding → PlayerStanding)
    (l : list PlayerStanding) :
  (∀ q, player_id (g q) = player_id q ∧ points (g q) = points q) →
  tiebreaker_values t (g <$> l) = tiebreaker_values t l.
Proof.
  intros Hg. unfold tiebreaker_values.
  rewrite foldl_fmap.
  apply (foldl_insert_ext
           (λ p, (player_id (g p), _get_tiebreaker_value t (g p) (g <$> l)))
           (λ p, (player_id p, _get_tiebreaker_value t p l))).
  apply Forall_forall. intros p _.
  rewrite _get_tiebreaker_value_ranks by done.
  by destruct (Hg p) as [-> _].
Qed.

Lemma dict_elem_unique {V} (k : string) (v1 v2 : V)
    (d : list (string * V)) :
  NoDup (dict_keys d) → (k, v1) ∈ d → (k, v2) ∈ d → v1 = v2.
Proof.
  intros Hnd H1 H2.
  apply (dict_elem_get _ _ _ Hnd) in H1, H2. congruence.
Qed.

(** The sorted and ranked objects of [get_standings], with their keys. *)
Definition ranking (c : StandingsCalculator)
  : list (string * PlayerStanding) :=
  let tb := tiebreaker_values (match_tracker c) (dict_values (players c)) in
  assign_ranks (sort_by_key (λ kp, sort_key tb kp.2) (players c)).

(** The object stored under a key after the ranks were assigned. *)
Definition refresh (ranked : list (string * PlayerStanding))
    (kp : string * PlayerStanding) : string * PlayerStanding :=
  (kp.1, default kp.2 (dict_get kp.1 ranked)).

(** The same, found by the id of the object. *)
Definition reranked (ranked : list (string * PlayerStanding))
    (p : PlayerStanding) : PlayerStanding :=
  set_rank (default (rank p) (rank <$> dict_get (player_id p) ranked)) p.

Lemma get_standings_unfold (c : StandingsCalculator) :
  get_standings c
  = (mkCalc (refresh (ranking c) <$> players c) (match_tracker c),
     dict_values (ranking c)).
Proof. reflexivity. Qed.

Lemma refresh_reranked (c : StandingsCalculator) :
  well_keyed c →
  refresh (ranking c) <$> players c
  = prod_map id (reranked (ranking c)) <$> players c.
Proof.
  intros [Hnd Hid]. apply Forall_fmap_ext_1, Forall_forall.
  intros [k p] Hkp. rewrite Forall_forall in Hid.
  pose proof (Hid _ Hkp) as Hk. simpl in Hk.
  unfold refresh, reranked, prod_map. cbn [fst snd id]. rewrite Hk.
  destruct (dict_get k (ranking c)) as [v|] eqn:Hget; cbn [default fmap
    option_fmap option_map]; [|by destruct p].
  apply dict_get_elem in Hget. unfold ranking, assign_ranks in Hget.
  apply list_elem_of_lookup in Hget as [i Hi].
  rewrite list_lookup_imap in Hi.
  destruct (sort_by_key _ _ !! i) as [[k1 p1]|] eqn:Hs; simpl in Hi; [|done].
  injection Hi as <- <-.
  apply list_elem_of_lookup_2 in Hs. rewrite sort_by_key_Permutation in Hs.
  by rewrite (dict_elem_unique _ _ _ _ Hnd Hs Hkp).
Qed.

Lemma ranking_again (c : StandingsCalculator) :
  well_keyed c → ranking (get_standings c).1 = ranking c.
Proof.
  intros Hc. rewrite get_standings_unfold. unfold ranking at 1.
  cbn [fst players match_tracker]. rewrite refresh_reranked by done.
  set (h := reranked (ranking c)).
  assert (Hh : ∀ q, player_id (h q) = player_id q ∧ points (h q) = points q)
    by done.
  assert (Hvalues : dict_values (prod_map id h <$> players c)
                    = h <$> dict_values (players c)).
  { unfold dict_values. rewrite <- !list_fmap_compose.
    by apply list_fmap_ext. }
  rewrite Hvalues, tiebreaker_values_ranks by done.
  set (tb := tiebreaker_values _ _).
  rewrite (sort_by_key_fmap (λ kp, sort_key tb kp.2)
             (λ kp, sort_key tb kp.2) (prod_map id h)).
  2:{ apply Forall_forall. by intros [k p] _. }
  unfold ranking. fold tb. unfold assign_ranks. rewrite imap_fmap.
  apply imap_ext. by intros i [k p] _.
Qed.

Lemma refresh_refresh ranked (kp : string * PlayerStanding) :
  refresh ranked (refresh ranked kp) = refresh ranked kp.
Proof.
  unfold refresh. cbn [fst snd]. by destruct (dict_get kp.1 ranked).
Qed.

End get_standings_again.

(** X29: asking for the standings again changes nothing: on a calculator
    built by [add_player], [record_match_result] and [get_standings]
    calls, a second [get_standings] right after the first returns the
    same list, each player with the same rank, and leaves the stored
    standings as the first call left them. *)
Theorem get_standings_twice_is_get_standings_once
    (c : Standings.StandingsCalculator) :
  Standings.reachable c →
  Standings.get_standings (Standings.get_standings c).1
  = Standings.get_standings c.
Proof.
  intros Hc. apply reachable_well_keyed in Hc.
  rewrite (get_standings_unfold (Standings.get_standings c).1).
  rewrite ranking_again by done.
  rewrite (get_standings_unfold c). cbn [fst Standings.players
                                         Standings.match_tracker].
  rewrite <- list_fmap_compose. f_equal. f_equal.
  apply list_fmap_ext. intros i kp _. apply refresh_refresh.
Qed.

Lemma get_standings_twice_is_get_standings_once_witness :
  Standings.get_standings
    (Standings.get_standings
       (Standings.run
          (DemoStandings.two_players
           ++ [Standings.RecordMatchResult "M1" "P01" "P02" (Some "P02")
                 "t1"]))).1
  = Standings.get_standings
      (Standings.run
         (DemoStandings.two_players
          ++ [Standings.RecordMatchResult "M1" "P01" "P02" (Some "P02")
                "t1"])).
Proof.
  apply (get_standings_twice_is_get_standings_once
           (Standings.run
              (DemoStandings.two_players
               ++ [Standings.RecordMatchResult "M1" "P01" "P02" (Some "P02")
                     "t1"]))).
  by eexists.
Defined.

(** ** When a round is signalled complete *)

Module RoundReports.
Import RoundManager.

Definition is_initialize (c : call) : Prop :=
  match c with InitializeTournament _ => True | _ => False end.

(** The ids that the calls mark complete for round [n]. *)
Fixpoint marked_in (n : Z) (calls : list call) : gset string :=
  match calls with
  | [] => ∅
  | MarkMatchComplete id n' :: rest =>
      if decide (n' = n) then {[id]} ∪ marked_in n rest else marked_in n rest
  | _ :: rest => marked_in n rest
  end.

End RoundReports.

Section round_reports_facts.
Import RoundManager RoundReports.

Lemma calls_keep_the_round (calls : list call) :
  ∀ (m : RoundManager) (n : Z) (ms : list Match) (marked : gset string),
    Forall (λ c, ¬ is_initialize c) calls →
    round_matches m !! n = Some ms →
    completed_matches m !! n = Some marked →
    let m' := foldl (λ m c, after c m) m calls in
    round_matches m' !! n = Some ms
    ∧ completed_matches m' !! n = Some (marked ∪ marked_in n calls).
Proof.
  induction calls as [|c calls IH]; intros m n ms marked Hcalls Hr Hd.
  - simpl. split; [done|]. rewrite Hd. f_equal. set_solver.
  - apply Forall_cons in Hcalls as [Hc Hcalls]. cbn [foldl].
    destruct c as [schedule|k|id' k|k]; cbn [after marked_in].
    + by destruct Hc.
    + apply IH; [done| |].
      * unfold start_round. destruct (round_matches m !! k); [|done].
        destruct (round_status m !! k); [|done]. by case_decide.
      * unfold start_round. destruct (round_matches m !! k); [|done].
        destruct (round_status m !! k); [|done]. by case_decide.
    + unfold mark_match_complete.
      destruct (completed_matches m !! k) as [old|] eqn:Hk.
      * assert (Hm1 : ∀ o : outcome exn bool,
                  (mkManager (current_round m) (round_status m)
                     (round_matches m)
                     (<[k := old ∪ {[id']}]> (completed_matches m))
                     (total_rounds m), o).1
                  = mkManager (current_round m) (round_status m)
                      (round_matches m)
                      (<[k := old ∪ {[id']}]> (completed_matches m))
                      (total_rounds m)) by done.
        destruct (round_matches m !! k); rewrite Hm1.
        all: destruct (decide (k = n)) as [->|Hne].
        1,3: (assert (old = marked) as -> by congruence;
              set (m1 := mkManager _ _ _ _ _);
              assert (Hd1 : completed_matches m1 !! n
                            = Some (marked ∪ {[id']}))
                by (simpl; by rewrite lookup_insert_eq);
              destruct (IH m1 n ms (marked ∪ {[id']}) Hcalls Hr Hd1)
                as [H1 H2];
              split; [done|]; rewrite H2; f_equal; set_solver).
        all: apply IH; [done|done|]; simpl; by rewrite lookup_insert_ne.
      * cbn [fst]. rewrite decide_False by congruence. by apply IH.
    + apply IH; [done| |].
      * unfold complete_round. by destruct (round_matches m !! k).
      * unfold complete_round. by destruct (round_matches m !! k).
Qed.

End round_reports_facts.

(** X30: [mark_match_complete] signals the end of a round by counting
    the distinct ids reported for it: after any calls other than
    [initialize_tournament], it returns [True] exactly when the ids
    marked for the round so far, the new one included, are as many as
    the round has matches.  An id reported twice counts once; whether
    the round was started, and whether the ids are those of the round's
    matches, plays no part. *)
Theorem round_is_complete_when_ids_match_the_count
    (m : RoundManager.RoundManager) (n : Z)
    (ms : list RoundManager.Match) (marked : gset string)
    (calls : list RoundManager.call) (match_id : string) :
  Forall (λ c, ¬ RoundReports.is_initialize c) calls →
  RoundManager.round_matches m !! n = Some ms →
  RoundManager.completed_matches m !! n = Some marked →
  (RoundManager.mark_match_complete match_id n
     (foldl (λ m c, RoundManager.after c m) m calls)).2
  = Returned
      (bool_decide
         (size (marked ∪ RoundReports.marked_in n calls ∪ {[match_id]})
          = length ms)).
Proof.
  intros Hcalls Hr Hd.
  destruct (calls_keep_the_round calls m n ms marked Hcalls Hr Hd)
    as [Hr' Hd'].
  unfold RoundManager.mark_match_complete. by rewrite Hd', Hr'.
Qed.

Lemma round_is_complete_when_ids_match_the_count_witness :
  (RoundManager.mark_match_complete "L1_R1_M001" 1
     (foldl (λ m c, RoundManager.after c m)
        (RoundManager.initialize_tournament
           [[DemoRounds.match_1]; [DemoRounds.match_2]] RoundManager.init)
        [RoundManager.StartRound 1;
         RoundManager.MarkMatchComplete "L1_R1_M001" 1])).2
  = Returned
      (bool_decide
         (size (∅ ∪ RoundReports.marked_in 1
                      [RoundManager.StartRound 1;
                       RoundManager.MarkMatchComplete "L1_R1_M001" 1]
                ∪ {["L1_R1_M001"]})
          = length [DemoRounds.match_1])).
Proof.
  apply (round_is_complete_when_ids_match_the_count
           (RoundManager.initialize_tournament
              [[DemoRounds.match_1]; [DemoRounds.match_2]]
              RoundManager.init)
           1 [DemoRounds.match_1] ∅).
  - repeat constructor; by intros [].
  - reflexivity.
  - reflexivity.
Defined.
